(** * Sprite splitter: the detection and normalisation pipeline

    A shallow embedding of [src/utils/imageProcessor.ts],
    [src/services/geminiService.ts] and the orchestration in the
    application component, together with the properties stated about
    them.

    Conventions.
    - JavaScript numbers holding pixel coordinates, byte values and box
      fields are integers well inside the exactly representable range,
      and are modelled by [Z].
    - Array indices and loop counters are [nat]; arrays are lists read
      with [!!] and written with [<[i:=v]>].  A write past the end of a
      typed array is ignored by JavaScript, as it is by list insert.
    - A canvas handed to the pipeline holds a decoded image and has at
      least one pixel; [getImageData] on an empty canvas is not
      modelled.
    - Promises are modelled by their settled value and [await] by
      sequencing; the one place where the order of completions shows,
      the batches of the naming queue, takes that order as a
      parameter. *)

From Stdlib Require Import ZArith QArith Qminmax Qround Lia Bool.
From stdpp Require Import base relations list numbers strings pretty.

Open Scope Z_scope.

(** ** Data model ([src/types.ts]) *)

Record BoundingBox : Type := mkBox {
  box_x : Z;
  box_y : Z;
  box_width : Z;
  box_height : Z
}.

#[global] Instance BoundingBox_eq_dec : EqDecision BoundingBox.
Proof. solve_decision. Defined.

(** ** Canvases

    A canvas as the pipeline sees it: its size and the RGBA bytes that
    [getImageData(0, 0, width, height)] returns, row-major, four bytes
    per pixel.  [cv_context] tells whether [getContext('2d')] yields a
    context.  The embedding works on the [ImageData] buffer that is
    read and written back. *)
Record Canvas : Type := mkCanvas {
  cv_width : Z;
  cv_height : Z;
  cv_data : list Z;
  cv_context : bool
}.

(** ** Background removal ([removeBackground]) *)

(** [distance <= tolerance] for
    [distance = Math.sqrt((r-r0)^2 + (g-g0)^2 + (b-b0)^2)].  The sum of
    squares is an integer; for an integer tolerance the square root is
    below the tolerance exactly when its ceiling is, which is
    [Z.sqrt_up] (see [withinTolerance_spec]).  The tolerance slider
    yields integers. *)
Definition withinTolerance (tolerance r0 g0 b0 r g b : Z) : bool :=
  Z.sqrt_up ((r - r0) ^ 2 + (g - g0) ^ 2 + (b - b0) ^ 2) <=? tolerance.

Section RemoveBackground.

(** The test [distance <= tolerance] on the colour [r g b] of a
    pixel. *)
Variable close : Z -> Z -> Z -> bool.

(** Body of the [for] loop at index [i].  A byte read past the end
    is [undefined], the distance is then [NaN] and the comparison is
    false. *)
Definition removeAt (i : nat) (data : list Z) : list Z :=
  match data !! i, data !! (i + 1)%nat, data !! (i + 2)%nat with
  | Some r, Some g, Some b =>
      if close r g b then <[(i + 3)%nat := 0]> data else data
  | _, _, _ => data
  end.

(** [for (let i = 0; i < len; i += 4)], from index [i] on. *)
Fixpoint removeLoop (fuel : nat) (i : nat) (data : list Z) : list Z :=
  match fuel with
  | O => data
  | S fuel' =>
      if (i <? length data)%nat
      then removeLoop fuel' (i + 4)%nat (removeAt i data)
      else data
  end.

End RemoveBackground.

(** Whether the pixel starting at byte [i] passes the test. *)
Definition rgbClose (close : Z -> Z -> Z -> bool) (data : list Z) (i : nat)
  : bool :=
  match data !! i, data !! (i + 1)%nat, data !! (i + 2)%nat with
  | Some r, Some g, Some b => close r g b
  | _, _, _ => false
  end.

(** The buffer written back by [putImageData].  With [data[3]] equal
    to 0 the function returns before the loop. *)
Definition removeBackgroundData (tolerance : Z) (data : list Z) : list Z :=
  match data !! 3%nat with
  | Some 0 => data
  | _ =>
      match data !! 0%nat, data !! 1%nat, data !! 2%nat with
      | Some r0, Some g0, Some b0 =>
          removeLoop (withinTolerance tolerance r0 g0 b0)
                     (length data) 0 data
      | _, _, _ => data
      end
  end.

Definition removeBackground (canvas : Canvas) (tolerance : Z) : Canvas :=
  if cv_context canvas then
    {| cv_width := cv_width canvas;
       cv_height := cv_height canvas;
       cv_data := removeBackgroundData tolerance (cv_data canvas);
       cv_context := cv_context canvas |}
  else canvas.

(** The four bytes of pixel number [p]. *)
Definition pixelAt (data : list Z) (p : nat) : option (Z * Z * Z * Z) :=
  match data !! (4 * p)%nat, data !! (4 * p + 1)%nat,
        data !! (4 * p + 2)%nat, data !! (4 * p + 3)%nat with
  | Some r, Some g, Some b, Some a => Some (r, g, b, a)
  | _, _, _, _ => None
  end.

(** The buffer of a canvas has four bytes per pixel, each in 0..255. *)
Definition validCanvas (c : Canvas) : Prop :=
  0 <= cv_width c /\ 0 <= cv_height c /\
  Z.of_nat (length (cv_data c)) = 4 * cv_width c * cv_height c /\
  Forall (fun v => 0 <= v <= 255) (cv_data c).

(** ** Box merging ([mergeOverlappingBoxes]) *)

(** [doBoxesIntersect]: the four strict comparisons of the source. *)
Definition doBoxesIntersect (a b : BoundingBox) : bool :=
  (box_x a <? box_x b + box_width b) &&
  (box_x a + box_width a >? box_x b) &&
  (box_y a <? box_y b + box_height b) &&
  (box_y a + box_height a >? box_y b).

(** The box written to [result[i]] when [b2] is merged into [b1]. *)
Definition mergedBox (b1 b2 : BoundingBox) : BoundingBox :=
  let minX := Z.min (box_x b1) (box_x b2) in
  let minY := Z.min (box_y b1) (box_y b2) in
  let maxX := Z.max (box_x b1 + box_width b1) (box_x b2 + box_width b2) in
  let maxY := Z.max (box_y b1 + box_height b1) (box_y b2 + box_height b2) in
  {| box_x := minX; box_y := minY;
     box_width := maxX - minX; box_height := maxY - minY |}.

(** The inner [for (j = i + 1; ...)] loop: [rest] is [result] from
    index [j] on; the answer is the first [j] whose box intersects
    [result[i]]. *)
Fixpoint findJ (bi : BoundingBox) (j : nat) (rest : list BoundingBox)
  : option nat :=
  match rest with
  | [] => None
  | bj :: rest' =>
      if doBoxesIntersect bi bj then Some j else findJ bi (S j) rest'
  end.

(** The outer [for (i = 0; ...)] loop: [l] is [result] from index [i]
    on; the answer is the first pair [(i, j)], [i < j], in scan order
    whose boxes intersect. *)
Fixpoint findPair (i : nat) (l : list BoundingBox) : option (nat * nat) :=
  match l with
  | [] => None
  | bi :: rest =>
      match findJ bi (S i) rest with
      | Some j => Some (i, j)
      | None => findPair (S i) rest
      end
  end.

(** One iteration of the [while (changed)] loop.  [Some r] is the list
    after [result[i] = merged; result.splice(j, 1)], with [changed]
    set; [None] is a full scan that leaves [changed] false. *)
Definition mergePass (result : list BoundingBox)
  : option (list BoundingBox) :=
  match findPair 0 result with
  | Some (i, j) =>
      match result !! i, result !! j with
      | Some b1, Some b2 => Some (delete j (<[i := mergedBox b1 b2]> result))
      | _, _ => None
      end
  | None => None
  end.

(** The [while] loop, with a bound on the number of iterations. *)
Fixpoint mergeLoop (fuel : nat) (result : list BoundingBox)
  : list BoundingBox :=
  match fuel with
  | O => result
  | S fuel' =>
      match mergePass result with
      | Some result' => mergeLoop fuel' result'
      | None => result
      end
  end.

(** Every pass that changes the list shortens it by one, so
    [length boxes] iterations are enough (see [mergeLoop_fuel] and
    [mergeOverlappingBoxes_exits]). *)
Definition mergeOverlappingBoxes (boxes : list BoundingBox)
  : list BoundingBox :=
  mergeLoop (length boxes) boxes.

(** *** Relations used to state the properties of the merge *)

(** Geometric containment of [a] in [b]. *)
Definition boxInside (a b : BoundingBox) : Prop :=
  box_x b <= box_x a /\
  box_x a + box_width a <= box_x b + box_width b /\
  box_y b <= box_y a /\
  box_y a + box_height a <= box_y b + box_height b.

(** Equality of two box lists as unordered sets. *)
Definition sameBoxes (l1 l2 : list BoundingBox) : Prop :=
  forall b, b ∈ l1 <-> b ∈ l2.

(** No two boxes at different positions intersect: what a full scan
    without a hit establishes. *)
Definition noOverlap (l : list BoundingBox) : Prop :=
  forall i j b1 b2, (i < j)%nat ->
    l !! i = Some b1 -> l !! j = Some b2 -> doBoxesIntersect b1 b2 = false.

(** One merge of an intersecting pair, at any two positions. *)
Inductive mergeStep (l : list BoundingBox) : list BoundingBox -> Prop :=
| MergeStep i j b1 b2 :
    (i < j)%nat -> l !! i = Some b1 -> l !! j = Some b2 ->
    doBoxesIntersect b1 b2 = true ->
    mergeStep l (delete j (<[i := mergedBox b1 b2]> l)).

(** *** The fixpoint as a closure

    [generated l] holds of the boxes that can be built from the input
    [l] by merging intersecting boxes, in any order. *)
Inductive generated (l : list BoundingBox) : BoundingBox -> Prop :=
| gen_input b : b ∈ l -> generated l b
| gen_merge a b :
    generated l a -> generated l b -> doBoxesIntersect a b = true ->
    generated l (mergedBox a b).

(** Members that intersect are one and the same box. *)
Definition separated (F : list BoundingBox) : Prop :=
  forall a b, a ∈ F -> b ∈ F -> doBoxesIntersect a b = true -> a = b.

(** Every input box lies in a member of [F] which it either is or
    intersects. *)
Definition absorbs (l F : list BoundingBox) : Prop :=
  forall b, b ∈ l ->
    exists g, g ∈ F /\ boxInside b g /\ (b = g \/ doBoxesIntersect b g = true).

Record mergeClosure (l F : list BoundingBox) : Prop := {
  mc_separated : separated F;
  mc_absorbs : absorbs l F;
  mc_generated : forall f, f ∈ F -> generated l f
}.

(** *** The partition named by the specification

    The specification describes the result as the classes of the
    transitive closure of the overlap relation on the input boxes,
    each class replaced by the bounding box of its members.  The
    definitions below follow those words; they are compared with
    [mergeOverlappingBoxes] further down. *)

(** The overlap relation between two positions of the input. *)
Definition overlapsAt (l : list BoundingBox) (i j : nat) : bool :=
  match l !! i, l !! j with
  | Some a, Some b => doBoxesIntersect a b
  | _, _ => false
  end.

(** [j] is outside [cls] and overlaps one of its members. *)
Definition canJoin (l : list BoundingBox) (cls : list nat) (j : nat) : Prop :=
  (j ∉ cls) /\ Exists (fun i => overlapsAt l i j = true) cls.

#[global] Instance canJoin_dec l cls j : Decision (canJoin l cls j).
Proof. unfold canJoin. apply _. Defined.

Definition nextMember (l : list BoundingBox) (cls : list nat) : option nat :=
  match list_find (canJoin l cls) (seq 0 (length l)) with
  | Some (_, j) => Some j
  | None => None
  end.

(** Grow a class one position at a time until nothing can join. *)
Fixpoint classLoop (fuel : nat) (l : list BoundingBox) (cls : list nat)
  : list nat :=
  match fuel with
  | O => cls
  | S fuel' =>
      match nextMember l cls with
      | Some j => classLoop fuel' l (cls ++ [j])
      | None => cls
      end
  end.

(** The class of position [i]: everything linked to it by a chain of
    overlaps. *)
Definition classOf (l : list BoundingBox) (i : nat) : list nat :=
  classLoop (length l) l [i].

(** Extend the bounding box [acc] by the box at position [j]. *)
Definition addMember (l : list BoundingBox) (acc : BoundingBox) (j : nat)
  : BoundingBox :=
  match l !! j with
  | Some bj => mergedBox acc bj
  | None => acc
  end.

(** Bounding box of the boxes at the positions [cls]: minimum of the
    origins, maximum of the extents. *)
Definition unionOfClass (l : list BoundingBox) (cls : list nat)
  : option BoundingBox :=
  match cls with
  | [] => None
  | i :: rest =>
      match l !! i with
      | Some b => Some (foldl (addMember l) b rest)
      | None => None
      end
  end.

(** One box per input position: the bounding box of its class.  As a
    set of boxes this is the partition of the specification. *)
Definition transitiveClosureBoxes (l : list BoundingBox)
  : list BoundingBox :=
  omap (fun i => unionOfClass l (classOf l i)) (seq 0 (length l)).

(** A list of positions in which every position after the first
    overlaps an earlier one. *)
Inductive chained (l : list BoundingBox) : list nat -> Prop :=
| chained_one i b : l !! i = Some b -> chained l [i]
| chained_snoc cls i j :
    chained l cls -> i ∈ cls -> overlapsAt l i j = true ->
    chained l (cls ++ [j]).

(** Boolean form of [separated], for concrete lists. *)
Definition separatedb (F : list BoundingBox) : bool :=
  forallb (fun a =>
    forallb (fun b => implb (doBoxesIntersect a b) (bool_decide (a = b))) F) F.

(** ** Region detection ([findSprites]) *)

(** What a function returns or throws. *)
Inductive Result (A : Type) : Type :=
| Ok (a : A)
| Throw (msg : string).
Arguments Ok {A} a.
Arguments Throw {A} msg.

Definition getIndex (width x y : Z) : Z := (y * width + x) * 4.

(** [data[idx + 3] < 10]; a read past the end compares false. *)
Definition isTransparent (data : list Z) (idx : Z) : bool :=
  match data !! Z.to_nat (idx + 3) with
  | Some a => a <? 10
  | None => false
  end.

(** The local variables of [floodFill].  The top of the stack is the
    head of the list. *)
Record Fill : Type := mkFill {
  f_minX : Z; f_maxX : Z; f_minY : Z; f_maxY : Z;
  f_stack : list (Z * Z);
  f_visited : list Z;
  f_pixelCount : Z
}.

(** The box returned for a component that passed the noise filter. *)
Definition detectionBox (width height minX maxX minY maxY : Z)
  : BoundingBox :=
  let detectionPadding := 1 in
  {| box_x := Z.max 0 (minX - detectionPadding);
     box_y := Z.max 0 (minY - detectionPadding);
     box_width := Z.min width (maxX - minX + 1 + detectionPadding * 2);
     box_height := Z.min height (maxY - minY + 1 + detectionPadding * 2) |}.

Section FindSprites.

Variables (width height : Z) (data : list Z).

(** Body of [for (const [nx, ny] of neighbors)]. *)
Definition visitNeighbor (sv : list (Z * Z) * list Z) (n : Z * Z)
  : list (Z * Z) * list Z :=
  let '(stack, visited) := sv in
  let '(nx, ny) := n in
  if (0 <=? nx) && (nx <? width) && (0 <=? ny) && (ny <? height) then
    let vIdx := Z.to_nat (ny * width + nx) in
    match visited !! vIdx with
    | Some 0 =>
        if negb (isTransparent data (getIndex width nx ny))
        then ((nx, ny) :: stack, <[vIdx := 1]> visited)
        else sv
    | _ => sv
    end
  else sv.

(** One iteration of [while (stack.length > 0)] after the pop of
    [(x, y)]. *)
Definition fillStep (st : Fill) (x y : Z) (rest : list (Z * Z)) : Fill :=
  let neighbors := [(x + 1, y); (x - 1, y); (x, y + 1); (x, y - 1)] in
  let '(stack, visited) :=
    foldl visitNeighbor (rest, f_visited st) neighbors in
  {| f_minX := if x <? f_minX st then x else f_minX st;
     f_maxX := if x >? f_maxX st then x else f_maxX st;
     f_minY := if y <? f_minY st then y else f_minY st;
     f_maxY := if y >? f_maxY st then y else f_maxY st;
     f_stack := stack;
     f_visited := visited;
     f_pixelCount := f_pixelCount st + 1 |}.

Fixpoint fillLoop (fuel : nat) (st : Fill) : Fill :=
  match fuel with
  | O => st
  | S fuel' =>
      match f_stack st with
      | [] => st
      | (x, y) :: rest => fillLoop fuel' (fillStep st x y rest)
      end
  end.

(** [floodFill(startX, startY)]: the box, or [None] for [null], and
    the visited array it leaves.  Every pixel is pushed once at
    most, so the loop ends within [length visited] iterations (see
    [fillLoop_done]). *)
Definition floodFill (visited : list Z) (startX startY : Z)
  : option BoundingBox * list Z :=
  let st :=
    fillLoop (S (length visited))
      {| f_minX := startX; f_maxX := startX;
         f_minY := startY; f_maxY := startY;
         f_stack := [(startX, startY)];
         f_visited := <[Z.to_nat (startY * width + startX) := 1]> visited;
         f_pixelCount := 0 |} in
  (if f_pixelCount st <? 50 then None
   else Some (detectionBox width height
                (f_minX st) (f_maxX st) (f_minY st) (f_maxY st)),
   f_visited st).

(** Body of the scan at [(x, y)]. *)
Definition scanPixel (y : Z) (acc : list Z * list BoundingBox) (x : Z)
  : list Z * list BoundingBox :=
  let '(visited, boxes) := acc in
  match visited !! Z.to_nat (y * width + x) with
  | Some 0 =>
      if negb (isTransparent data (getIndex width x y)) then
        match floodFill visited x y with
        | (Some box, visited') => (visited', boxes ++ [box])
        | (None, visited') => (visited', boxes)
        end
      else acc
  | _ => acc
  end.

(** The boxes pushed by the scan, in discovery order. *)
Definition detectBoxes : list BoundingBox :=
  snd (foldl (fun acc y => foldl (scanPixel y) acc (seqZ 0 width))
             (replicate (Z.to_nat (width * height)) 0, [])
             (seqZ 0 height)).

End FindSprites.

Definition findSprites (canvas : Canvas) : Result (list BoundingBox) :=
  if cv_context canvas then
    Ok (mergeOverlappingBoxes
          (detectBoxes (cv_width canvas) (cv_height canvas) (cv_data canvas)))
  else Throw "Could not get canvas context".

(** Number of unvisited entries of the visited array. *)
Definition unvisited (visited : list Z) : nat :=
  length (filter (fun v => v = 0) visited).

(** A coordinate pair inside the raster, and the invariant of the
    [floodFill] loop: the extremes and every stacked pixel are inside
    the raster. *)
Definition inRaster (width height : Z) (p : Z * Z) : Prop :=
  0 <= p.1 < width /\ 0 <= p.2 < height.

Definition fillInv (width height : Z) (st : Fill) : Prop :=
  0 <= f_minX st <= f_maxX st /\ f_maxX st < width /\
  0 <= f_minY st <= f_maxY st /\ f_maxY st < height /\
  Forall (inRaster width height) (f_stack st).

(** What the detector guarantees of a box: it starts inside the
    raster, is not larger than the raster, and ends at most one pixel
    past the right and bottom edges. *)
Definition detectedBox (width height : Z) (b : BoundingBox) : Prop :=
  0 <= box_x b /\ 0 <= box_y b /\
  0 < box_width b <= width /\ 0 < box_height b <= height /\
  box_x b + box_width b <= width + 1 /\
  box_y b + box_height b <= height + 1.

(** ** Cropping ([cropImage]) *)

Record ProcessingSettings : Type := mkSettings {
  set_removeBackground : bool;
  set_backgroundTolerance : Z;
  set_targetSize : Z;
  set_padding : Z;
  set_homogenize : bool
}.

(** The arguments of the one [ctx.drawImage] call, and the canvas it
    draws on.  The destination rectangle is fractional in homogenised
    mode; its numbers are modelled by exact rationals. *)
Record DrawImage : Type := mkDraw {
  di_source : Canvas;
  di_sx : Z; di_sy : Z; di_sWidth : Z; di_sHeight : Z;
  di_dx : Q; di_dy : Q; di_dWidth : Q; di_dHeight : Q
}.

Record TempCanvas : Type := mkTemp {
  tc_width : Z;
  tc_height : Z;
  tc_imageSmoothingEnabled : bool;
  tc_imageSmoothingQuality : string;
  tc_draw : DrawImage
}.

(** [Math.round]: the nearest integer, halves upwards. *)
Definition mathRound (q : Q) : Z := Qfloor (q + (1 # 2))%Q.

(** The temporary canvas when [toBlob] is called.  The verbatim branch
    leaves the smoothing attributes of a new context at their
    defaults. *)
Definition cropCanvas (sourceCanvas : Canvas) (box : BoundingBox)
    (settings : ProcessingSettings) : TempCanvas :=
  if set_homogenize settings then
    let targetSize := set_targetSize settings in
    let paddingPx :=
      mathRound
        (inject_Z targetSize * (inject_Z (set_padding settings) / 100))%Q in
    let availableWidth := targetSize - paddingPx * 2 in
    let availableHeight := targetSize - paddingPx * 2 in
    let scale :=
      Qmin (inject_Z availableWidth / inject_Z (box_width box))%Q
           (inject_Z availableHeight / inject_Z (box_height box))%Q in
    let drawWidth := (inject_Z (box_width box) * scale)%Q in
    let drawHeight := (inject_Z (box_height box) * scale)%Q in
    let startX :=
      (inject_Z paddingPx + (inject_Z availableWidth - drawWidth) / 2)%Q in
    let startY :=
      (inject_Z paddingPx + (inject_Z availableHeight - drawHeight) / 2)%Q in
    {| tc_width := targetSize;
       tc_height := targetSize;
       tc_imageSmoothingEnabled := true;
       tc_imageSmoothingQuality := "high";
       tc_draw :=
         mkDraw sourceCanvas
           (box_x box) (box_y box) (box_width box) (box_height box)
           startX startY drawWidth drawHeight |}
  else
    let margin := 2 in
    {| tc_width := box_width box + margin * 2;
       tc_height := box_height box + margin * 2;
       tc_imageSmoothingEnabled := true;
       tc_imageSmoothingQuality := "low";
       tc_draw :=
         mkDraw sourceCanvas
           (box_x box) (box_y box) (box_width box) (box_height box)
           (inject_Z margin) (inject_Z margin)
           (inject_Z (box_width box)) (inject_Z (box_height box)) |}.

(** ** Naming ([identifyAsset]) *)

(** A JavaScript string: its UTF-16 code units. *)
Definition JsString : Type := list Z.

Definition jsString (s : string) : JsString :=
  map (fun c => Z.of_N (Ascii.N_of_ascii c)) (String.list_ascii_of_string s).

(** White space and line terminators, as removed by [trim]. *)
Definition isWhiteSpace (c : Z) : bool :=
  ((9 <=? c) && (c <=? 13)) || (c =? 32) || (c =? 160) || (c =? 5760) ||
  ((8192 <=? c) && (c <=? 8202)) || (c =? 8232) || (c =? 8233) ||
  (c =? 8239) || (c =? 8287) || (c =? 12288) || (c =? 65279).

Fixpoint trimStart (s : JsString) : JsString :=
  match s with
  | [] => []
  | c :: s' => if isWhiteSpace c then trimStart s' else s
  end.

Definition trim (s : JsString) : JsString :=
  rev (trimStart (rev (trimStart s))).

(** [s.replace(/c/g, '')] for a single code unit [c]. *)
Definition removeAll (c : Z) (s : JsString) : JsString :=
  List.filter (fun d => negb (d =? c)) s.

(** What the calls inside the [try] block of [identifyAsset] come to. *)
Inductive ApiOutcome : Type :=
| MissingKey
| ReadFailure
| RequestFailure
| Answer (text : option JsString).

Definition unknown_item : JsString := jsString "unknown_item".

Definition identifyAsset (outcome : ApiOutcome) : JsString :=
  match outcome with
  | Answer response_text =>
      let text :=
        match response_text with
        | Some t => match trim t with [] => unknown_item | t' => t' end
        | None => unknown_item
        end in
      trim (removeAll 10 (removeAll 96 text))
  | MissingKey | ReadFailure | RequestFailure => unknown_item
  end.

(** The collaborator failed: it threw, rejected, or returned no text
    (none at all, or nothing but white space). *)
Definition collaboratorFailed (outcome : ApiOutcome) : Prop :=
  match outcome with
  | Answer (Some t) => trim t = []
  | _ => True
  end.

(** ** The application component *)

(** The hidden canvas after step 1 of [process]: the image, with its
    background removed if requested. *)
Definition preparedCanvas (image : Canvas) (settings : ProcessingSettings)
  : Canvas :=
  if set_removeBackground settings
  then removeBackground image (set_backgroundTolerance settings)
  else image.

Inductive ProcessingStep : Type := UPLOAD | SETTINGS | PROCESSING | REVIEW.

Inductive Status : Type := pending | naming | ready | error.

Section App.

(** The encoded image, opaque to the pipeline. *)
Variable Blob : Type.

(** The browser: whether a temporary canvas gets a context, the PNG
    encoder behind [toBlob] ([None] when the callback receives
    [null]), and the clock behind [Date.now()]. *)
Variable tempContext : bool.
Variable toBlob : TempCanvas -> option Blob.
Variable now : nat -> Z.

(** [id] is [asset-<index>-<Date.now()>], kept as the pair it is
    printed from.  [previewUrl] is left out. *)
Record Asset : Type := mkAsset {
  a_id : nat * Z;
  a_originalName : JsString;
  a_finalName : JsString;
  a_blob : Blob;
  a_box : BoundingBox;
  a_outputWidth : Z;
  a_outputHeight : Z;
  a_status : Status
}.

Record AppState : Type := mkApp {
  app_step : ProcessingStep;
  app_assets : list Asset;
  app_processedCount : Z;
  app_alerts : list string
}.

(** The collaborator: the outcome of the naming request made for an
    asset, and the order in which the requests of one batch
    complete. *)
Variable respond : Asset -> ApiOutcome.
Variable completion : list Asset -> list Asset.

(** The promise returned by [cropImage], settled. *)
Definition cropImage (sourceCanvas : Canvas) (box : BoundingBox)
    (settings : ProcessingSettings) : Result Blob :=
  if tempContext then
    match toBlob (cropCanvas sourceCanvas box settings) with
    | Some blob => Ok blob
    | None => Throw "Crop failed"
    end
  else Throw "No context".

(** The callback of [boxes.map] in [process]. *)
Definition makeAsset (canvas : Canvas) (settings : ProcessingSettings)
    (index : nat) (box : BoundingBox) : Result Asset :=
  match cropImage canvas box settings with
  | Ok blob =>
      let isHomogenized := set_homogenize settings in
      Ok {| a_id := (index, now index);
            a_originalName := jsString "";
            a_finalName :=
              jsString "item_" ++ jsString (pretty (index + 1)%nat);
            a_blob := blob;
            a_box := box;
            a_outputWidth :=
              if isHomogenized then set_targetSize settings
              else box_width box + 4;
            a_outputHeight :=
              if isHomogenized then set_targetSize settings
              else box_height box + 4;
            a_status := pending |}
  | Throw msg => Throw msg
  end.

(** [await Promise.all(...)]: all the values, or a rejection as soon
    as one promise rejects. *)
Fixpoint promiseAll {A} (rs : list (Result A)) : Result (list A) :=
  match rs with
  | [] => Ok []
  | Ok a :: rs' =>
      match promiseAll rs' with
      | Ok l => Ok (a :: l)
      | Throw msg => Throw msg
      end
  | Throw msg :: _ => Throw msg
  end.

(** The [catch] block of [process]. *)
Definition processFailed (st : AppState) : AppState :=
  {| app_step := UPLOAD;
     app_assets := app_assets st;
     app_processedCount := app_processedCount st;
     app_alerts :=
       app_alerts st
       ++ ["Failed to process image. See console for details."%string] |}.

(** [process], run with [image] drawn on the hidden canvas: the
    state it leaves and the assets handed to [queueAiNaming], if the
    run gets that far. *)
Definition process (image : Canvas) (settings : ProcessingSettings)
    (st : AppState) : AppState * option (list Asset) :=
  if cv_context image then
    let canvas := preparedCanvas image settings in
    match findSprites canvas with
    | Ok [] =>
        ({| app_step := SETTINGS;
            app_assets := app_assets st;
            app_processedCount := app_processedCount st;
            app_alerts :=
              app_alerts st
              ++ ["No distinct sprites found. Try adjusting background removal."%string] |},
         None)
    | Ok boxes =>
        match promiseAll (imap (makeAsset canvas settings) boxes) with
        | Ok initialAssets =>
            ({| app_step := REVIEW;
                app_assets := initialAssets;
                app_processedCount := app_processedCount st;
                app_alerts := app_alerts st |},
             Some initialAssets)
        | Throw _ => (processFailed st, None)
        end
    | Throw _ => (processFailed st, None)
    end
  else (st, None).

(** The two updates of the asset list made for one asset. *)
Definition markNaming (id : nat * Z) (prev : list Asset) : list Asset :=
  fmap (fun a =>
         if decide (a_id a = id)
         then mkAsset (a_id a) (a_originalName a) (a_finalName a)
                (a_blob a) (a_box a) (a_outputWidth a) (a_outputHeight a)
                naming
         else a) prev.

Definition markReady (id : nat * Z) (name : JsString) (prev : list Asset)
  : list Asset :=
  fmap (fun a =>
         if decide (a_id a = id)
         then mkAsset (a_id a) name name
                (a_blob a) (a_box a) (a_outputWidth a) (a_outputHeight a)
                ready
         else a) prev.

Definition startNaming (st : AppState) (asset : Asset) : AppState :=
  {| app_step := app_step st;
     app_assets := markNaming (a_id asset) (app_assets st);
     app_processedCount := app_processedCount st;
     app_alerts := app_alerts st |}.

Definition finishNaming (st : AppState) (asset : Asset) : AppState :=
  {| app_step := app_step st;
     app_assets :=
       markReady (a_id asset) (identifyAsset (respond asset))
         (app_assets st);
     app_processedCount := app_processedCount st + 1;
     app_alerts := app_alerts st |}.

(** One batch: every callback runs up to its [await], which marks
    its asset as naming; the continuations then run in the order in
    which the requests complete. *)
Definition runBatch (batch : list Asset) (st : AppState) : AppState :=
  foldl finishNaming (foldl startNaming st batch) (completion batch).

(** [for (let i = 0; i < currentAssets.length; i += BATCH_SIZE)]. *)
Fixpoint queueLoop (fuel : nat) (i : nat) (currentAssets : list Asset)
    (st : AppState) : AppState :=
  match fuel with
  | O => st
  | S fuel' =>
      if (i <? length currentAssets)%nat then
        let BATCH_SIZE := 3%nat in
        let batch := take BATCH_SIZE (drop i currentAssets) in
        queueLoop fuel' (i + BATCH_SIZE)%nat currentAssets
          (runBatch batch st)
      else st
  end.

Definition queueAiNaming (currentAssets : list Asset) (st : AppState)
  : AppState :=
  queueLoop (length currentAssets) 0 currentAssets st.

(** A processing run followed by the naming it starts. *)
Definition runPipeline (image : Canvas) (settings : ProcessingSettings)
    (st : AppState) : AppState :=
  match process image settings st with
  | (st', Some initialAssets) => queueAiNaming initialAssets st'
  | (st', None) => st'
  end.

End App.

(** The entry of an asset list is [ready] under the name [name]. *)
Definition namedReady {Blob : Type} (name : JsString) (a : Asset Blob)
  : Prop :=
  a_status Blob a = ready /\
  a_originalName Blob a = name /\ a_finalName Blob a = name.

(** What the specification says of an encoding failure: every detected
    box yields a sprite, marked [error] exactly when its encoding
    failed. *)
Definition failureIsolated {Blob : Type} (boxes : list BoundingBox)
    (encoded : BoundingBox -> bool) (final : list (Asset Blob)) : Prop :=
  forall box, box ∈ boxes ->
    exists a, a ∈ final /\ a_box Blob a = box /\
              (a_status Blob a = error <-> encoded box = false).

(** ** Sample inputs and runs *)

(** A white pixel followed by a black one, both opaque. *)
Definition whiteBlack : Canvas :=
  mkCanvas 2 1 [255; 255; 255; 255; 0; 0; 0; 255] true.

(** Padded boxes of a vertical bar, a horizontal bar meeting it at the
    corner, and a blob lying between them. *)
Definition barV : BoundingBox := mkBox 0 3 4 27.
Definition barH : BoundingBox := mkBox 3 0 27 4.
Definition blob : BoundingBox := mkBox 13 13 10 10.

(** Padded boxes of 20 by 20 squares at (10,10), (25,25) and
    (150,150). *)
Definition sq10 : BoundingBox := mkBox 9 9 22 22.
Definition sq25 : BoundingBox := mkBox 24 24 22 22.
Definition sq150 : BoundingBox := mkBox 149 149 22 22.

(** A raster given by its opaque pixels: opaque pixels are black with
    alpha 255, the others are fully transparent. *)
Definition rasterOf (width height : Z) (opaque : Z -> Z -> bool) : Canvas :=
  mkCanvas width height
    (flat_map (fun y =>
       flat_map (fun x => [0; 0; 0; if opaque x y then 255 else 0])
                (seqZ 0 width))
       (seqZ 0 height))
    true.

(** A 10 by 10 raster with one opaque 8 by 8 square that touches the
    right and bottom edges. *)
Definition cornerRaster : Canvas :=
  rasterOf 10 10 (fun x y => (2 <=? x) && (2 <=? y)).

(** A 30 by 30 raster with a vertical bar, a horizontal bar that
    meets it diagonally at the corner, and an 8 by 8 blob between
    them: three components whose padded boxes are [barV], [barH] and
    [blob]. *)
Definition barsRaster : Canvas :=
  rasterOf 30 30 (fun x y =>
    ((1 <=? x) && (x <=? 2) && (4 <=? y) && (y <=? 28)) ||
    ((1 <=? y) && (y <=? 2) && (4 <=? x) && (x <=? 28)) ||
    ((14 <=? x) && (x <=? 21) && (14 <=? y) && (y <=? 21))).

(** A 24 by 12 raster with two opaque 7 by 8 rectangles. *)
Definition twoSquares : Canvas :=
  rasterOf 24 12 (fun x y =>
    (2 <=? y) && (y <? 10) &&
    (((2 <=? x) && (x <? 9)) || ((13 <=? x) && (x <? 20)))).

Definition verbatim : ProcessingSettings := mkSettings false 20 512 10 false.

(** An encoder that fails on the sprite whose box starts at column 1
    and returns the canvas itself otherwise. *)
Definition failsOnFirst (c : TempCanvas) : option TempCanvas :=
  if di_sx (tc_draw c) =? 1 then None else Some c.

(** The state in which [process] starts after a first upload. *)
Definition initialState (Blob : Type) : AppState Blob :=
  mkApp Blob PROCESSING [] 0 [].

(** A 64 by 64 opaque raster. *)
Definition plainRaster : Canvas := rasterOf 64 64 (fun _ _ => true).

(** Four pending assets, and a collaborator that fails on the second
    one and answers the others. *)
Definition sampleAsset (index : nat) : Asset unit :=
  mkAsset unit (index, 0) (jsString "")
    (jsString "item_" ++ jsString (pretty (index + 1)%nat))
    tt (mkBox (Z.of_nat index * 20) 0 10 10) 14 14 pending.

Definition sampleAssets : list (Asset unit) :=
  [sampleAsset 0; sampleAsset 1; sampleAsset 2; sampleAsset 3].

Definition sampleRespond (a : Asset unit) : ApiOutcome :=
  if (fst (a_id unit a) =? 1)%nat then RequestFailure
  else Answer (Some (jsString " iron_sword ")).

(** ** Definitions used by the further properties *)

(** A third square, overlapping [sq25] but not [sq10]. *)
Definition sq40 : BoundingBox := mkBox 39 39 22 22.

(** Pixel number [idx] of the raster is opaque for the detector. *)
Definition opaqueAt (data : list Z) (idx : nat) : bool :=
  negb (isTransparent data (Z.of_nat idx * 4)).

(** Number of opaque pixels of the raster. *)
Definition opaquePixels (width height : Z) (data : list Z) : nat :=
  length (filter (fun idx => opaqueAt data idx = true)
                 (seq 0 (Z.to_nat (width * height)))).

(** Number of pixels that are opaque and not yet visited; [k] is the
    pixel number of the head of [visited]. *)
Fixpoint pendingPixels (data : list Z) (k : nat) (visited : list Z) : nat :=
  match visited with
  | [] => 0
  | v :: visited' =>
      (if bool_decide (v = 0) && opaqueAt data k then 1 else 0)
      + pendingPixels data (S k) visited'
  end.

(** A 10 by 10 raster with one opaque 7 by 7 square: 49 pixels. *)
Definition speckRaster : Canvas :=
  rasterOf 10 10 (fun x y => (2 <=? x) && (x <=? 8) && (2 <=? y) && (y <=? 8)).

(** The state [process] leaves when no sprite was found. *)
Definition noSprites {Blob : Type} (st : AppState Blob) : AppState Blob :=
  mkApp Blob SETTINGS (app_assets Blob st) (app_processedCount Blob st)
    (app_alerts Blob st
     ++ ["No distinct sprites found. Try adjusting background removal."%string]).

(** Two entries of the asset list are the same sprite: they agree on
    everything but the names and the status. *)
Definition sameSprite {Blob : Type} (a a' : Asset Blob) : Prop :=
  a_id Blob a' = a_id Blob a /\ a_blob Blob a' = a_blob Blob a /\
  a_box Blob a' = a_box Blob a /\
  a_outputWidth Blob a' = a_outputWidth Blob a /\
  a_outputHeight Blob a' = a_outputHeight Blob a.

(** *** Event handlers of the application component *)

Section Handlers.

Variable Blob : Type.

(** The state of the component that the handlers below touch: the
    state [process] works on and the uploaded image. *)
Record Session : Type := mkSession {
  ses_app : AppState Blob;
  ses_sourceImage : option Canvas
}.

(** [handleRename]. *)
Definition handleRename (id : nat * Z) (newName : JsString)
    (st : AppState Blob) : AppState Blob :=
  {| app_step := app_step Blob st;
     app_assets :=
       fmap (fun a =>
               if decide (a_id Blob a = id)
               then mkAsset Blob (a_id Blob a) (a_originalName Blob a) newName
                      (a_blob Blob a) (a_box Blob a)
                      (a_outputWidth Blob a) (a_outputHeight Blob a)
                      (a_status Blob a)
               else a) (app_assets Blob st);
     app_processedCount := app_processedCount Blob st;
     app_alerts := app_alerts Blob st |}.

(** [handleReset]. *)
Definition handleReset (ses : Session) : Session :=
  {| ses_app := mkApp Blob UPLOAD [] 0 (app_alerts Blob (ses_app ses));
     ses_sourceImage := None |}.

End Handlers.

(** *** Helpers of the naming service *)

(** [s.split(sep)] for a separator of one code unit. *)
Fixpoint jsSplit (sep : Z) (s : JsString) : list JsString :=
  match s with
  | [] => [[]]
  | c :: s' =>
      if c =? sep then [] :: jsSplit sep s'
      else match jsSplit sep s' with
           | w :: ws => (c :: w) :: ws
           | [] => [[c]]
           end
  end.

(** [blobToBase64], given what the [FileReader] ends with: the data URL
    in [reader.result], or an error.  The promise resolves with
    [result.split(',')[1]], which is [undefined] ([None]) when the
    result holds no comma. *)
Definition blobToBase64 (read : Result JsString) : Result (option JsString) :=
  match read with
  | Ok result => Ok (jsSplit 44 result !! 1%nat)
  | Throw msg => Throw msg
  end.

(** A two-pixel image of one colour, and settings that remove the
    background with the default tolerance. *)
Definition plainImage : Canvas :=
  mkCanvas 2 1 [10; 20; 30; 255; 10; 20; 30; 128] true.

Definition removing : ProcessingSettings := mkSettings true 20 512 10 false.

(** * Properties *)

(** ** Geometry of boxes *)

Lemma doBoxesIntersect_true a b :
  doBoxesIntersect a b = true <->
  box_x a < box_x b + box_width b /\ box_x b < box_x a + box_width a /\
  box_y a < box_y b + box_height b /\ box_y b < box_y a + box_height a.
Proof.
  unfold doBoxesIntersect.
  rewrite !andb_true_iff, !Z.ltb_lt, !Z.gtb_gt. lia.
Qed.

Lemma doBoxesIntersect_sym a b : doBoxesIntersect a b = doBoxesIntersect b a.
Proof.
  apply eq_true_iff_eq. rewrite !doBoxesIntersect_true. lia.
Qed.

Lemma doBoxesIntersect_mono a b a' b' :
  boxInside a a' -> boxInside b b' ->
  doBoxesIntersect a b = true -> doBoxesIntersect a' b' = true.
Proof.
  unfold boxInside. rewrite !doBoxesIntersect_true. lia.
Qed.

Lemma boxInside_refl a : boxInside a a.
Proof. unfold boxInside. lia. Qed.

Lemma boxInside_trans a b c : boxInside a b -> boxInside b c -> boxInside a c.
Proof. unfold boxInside. lia. Qed.

Lemma boxInside_antisym a b : boxInside a b -> boxInside b a -> a = b.
Proof.
  destruct a as [ax ay aw ah], b as [bx by' bw bh].
  unfold boxInside; simpl. intros H1 H2.
  f_equal; lia.
Qed.

Lemma mergedBox_inside_l a b : boxInside a (mergedBox a b).
Proof. unfold boxInside, mergedBox; simpl. lia. Qed.

Lemma mergedBox_inside_r a b : boxInside b (mergedBox a b).
Proof. unfold boxInside, mergedBox; simpl. lia. Qed.

Lemma mergedBox_least a b c :
  boxInside a c -> boxInside b c -> boxInside (mergedBox a b) c.
Proof. unfold boxInside, mergedBox; simpl. lia. Qed.

(** A box produced by a merge of two intersecting boxes intersects
    itself, i.e. has positive width and height. *)
Lemma mergedBox_self_intersect a b :
  doBoxesIntersect a b = true ->
  doBoxesIntersect (mergedBox a b) (mergedBox a b) = true.
Proof.
  intros H.
  eapply doBoxesIntersect_mono; [| | exact H].
  - apply mergedBox_inside_l.
  - apply mergedBox_inside_r.
Qed.

Create HintDb boxes.
#[local] Hint Resolve boxInside_refl mergedBox_inside_l mergedBox_inside_r
  : boxes.

(** ** The pair scan *)

Lemma findJ_Some bi j rest k :
  findJ bi j rest = Some k ->
  exists b, (j <= k)%nat /\ rest !! (k - j)%nat = Some b /\
            doBoxesIntersect bi b = true.
Proof.
  revert j. induction rest as [|bj rest IH]; intros j; simpl; [done|].
  destruct (doBoxesIntersect bi bj) eqn:E.
  - intros [= <-]. exists bj. rewrite Nat.sub_diag. auto.
  - intros H. destruct (IH _ H) as (b & Hle & Hb & Hi).
    exists b. split; [lia|]. split; [|done].
    replace (k - j)%nat with (S (k - S j)) by lia. done.
Qed.

Lemma findJ_None bi j rest :
  findJ bi j rest = None ->
  forall k b, rest !! k = Some b -> doBoxesIntersect bi b = false.
Proof.
  revert j. induction rest as [|bj rest IH]; intros j; simpl; [done|].
  destruct (doBoxesIntersect bi bj) eqn:E; [done|].
  intros H [|k] b; simpl.
  - by intros [= <-].
  - eauto.
Qed.

Lemma findPair_Some i l a b :
  findPair i l = Some (a, b) ->
  exists b1 b2, (i <= a < b)%nat /\
    l !! (a - i)%nat = Some b1 /\ l !! (b - i)%nat = Some b2 /\
    doBoxesIntersect b1 b2 = true.
Proof.
  revert i. induction l as [|bi rest IH]; intros i; simpl; [done|].
  destruct (findJ bi (S i) rest) as [j|] eqn:E.
  - intros [= <- <-]. apply findJ_Some in E as (b2 & Hle & Hb & Hi).
    exists bi, b2. rewrite Nat.sub_diag. split; [lia|]. split; [done|].
    split; [|done].
    replace (j - i)%nat with (S (j - S i)) by lia. done.
  - intros H. destruct (IH _ H) as (b1 & b2 & Hle & H1 & H2 & Hi).
    exists b1, b2. split; [lia|].
    replace (a - i)%nat with (S (a - S i)) by lia.
    replace (b - i)%nat with (S (b - S i)) by lia. done.
Qed.

Lemma findPair_None i l : findPair i l = None -> noOverlap l.
Proof.
  revert i. induction l as [|bi rest IH]; intros i; simpl.
  - intros _ a b b1 b2 _ H. by rewrite lookup_nil in H.
  - destruct (findJ bi (S i) rest) as [j|] eqn:E; [done|].
    intros H a b b1 b2 Hlt H1 H2.
    destruct b as [|b]; [lia|]. simpl in H2.
    destruct a as [|a]; simpl in H1.
    + injection H1 as <-. eapply findJ_None; eauto.
    + eapply (IH _ H a b); eauto. lia.
Qed.

Lemma noOverlap_findPair i l : noOverlap l -> findPair i l = None.
Proof.
  destruct (findPair i l) as [[a b]|] eqn:E; [|done].
  intros H. apply findPair_Some in E as (b1 & b2 & Hle & H1 & H2 & Hi).
  rewrite (H (a - i)%nat (b - i)%nat b1 b2) in Hi; [done|lia|done|done].
Qed.

Lemma mergePass_Some l l' : mergePass l = Some l' -> mergeStep l l'.
Proof.
  unfold mergePass.
  destruct (findPair 0 l) as [[i j]|] eqn:E; [|done].
  apply findPair_Some in E as (b1 & b2 & Hle & H1 & H2 & Hi).
  rewrite Nat.sub_0_r in H1, H2. rewrite H1, H2.
  intros [= <-]. econstructor; eauto. lia.
Qed.

Lemma mergePass_None l : mergePass l = None <-> noOverlap l.
Proof.
  unfold mergePass. split.
  - destruct (findPair 0 l) as [[i j]|] eqn:E.
    + apply findPair_Some in E as (b1 & b2 & Hle & H1 & H2 & Hi).
      rewrite Nat.sub_0_r in H1, H2. by rewrite H1, H2.
    + intros _. by eapply findPair_None.
  - intros H. by rewrite (noOverlap_findPair 0 l H).
Qed.

Lemma mergeStep_length l l' : mergeStep l l' -> length l = S (length l').
Proof.
  intros [i j b1 b2 Hlt H1 H2 Hi].
  apply lookup_lt_Some in H2.
  assert (is_Some (<[i:=mergedBox b1 b2]> l !! j)) as Hs.
  { apply lookup_lt_is_Some. rewrite length_insert. lia. }
  rewrite (length_delete _ _ Hs), length_insert. lia.
Qed.

(** ** The loop terminates with a full scan that finds nothing *)

Lemma mergeLoop_exits fuel l :
  (length l <= fuel)%nat -> mergePass (mergeLoop fuel l) = None.
Proof.
  revert l. induction fuel as [|fuel IH]; intros l Hlen; simpl.
  - destruct l; [done|simpl in Hlen; lia].
  - destruct (mergePass l) as [l'|] eqn:E; [|done].
    apply IH. apply mergePass_Some, mergeStep_length in E. lia.
Qed.

Lemma mergeLoop_fixed fuel l : mergePass l = None -> mergeLoop fuel l = l.
Proof. intros H. destruct fuel; simpl; [done|]. by rewrite H. Qed.

Lemma mergeLoop_fuel fuel l :
  (length l <= fuel)%nat -> mergeLoop fuel l = mergeOverlappingBoxes l.
Proof.
  unfold mergeOverlappingBoxes.
  revert l. induction fuel as [|fuel IH]; intros l Hlen.
  - destruct l; [done|simpl in Hlen; lia].
  - simpl. destruct (mergePass l) as [l'|] eqn:E.
    + pose proof (mergeStep_length _ _ (mergePass_Some _ _ E)) as Hl.
      rewrite Hl. simpl. rewrite E. apply IH. lia.
    + by rewrite mergeLoop_fixed.
Qed.

Lemma mergeOverlappingBoxes_exits boxes :
  mergePass (mergeOverlappingBoxes boxes) = None.
Proof. by apply mergeLoop_exits. Qed.

Lemma mergeOverlappingBoxes_noOverlap boxes :
  noOverlap (mergeOverlappingBoxes boxes).
Proof. apply mergePass_None, mergeOverlappingBoxes_exits. Qed.

Lemma mergeLoop_steps fuel l : rtc mergeStep l (mergeLoop fuel l).
Proof.
  revert l. induction fuel as [|fuel IH]; intros l; simpl; [done|].
  destruct (mergePass l) as [l'|] eqn:E; [|done].
  eapply rtc_l; [by apply mergePass_Some|apply IH].
Qed.

(** ** What one merge does to the members of the list *)

Lemma mergeStep_members l l' :
  mergeStep l l' ->
  exists b1 b2,
    b1 ∈ l /\ b2 ∈ l /\ doBoxesIntersect b1 b2 = true /\
    mergedBox b1 b2 ∈ l' /\
    (forall b, b ∈ l' -> b = mergedBox b1 b2 \/ b ∈ l) /\
    (forall b, b ∈ l -> b ∈ l' \/ b = b1 \/ b = b2).
Proof.
  intros [i j b1 b2 Hlt H1 H2 Hi].
  pose proof (lookup_lt_Some _ _ _ H1) as Hli.
  pose proof (lookup_lt_Some _ _ _ H2) as Hlj.
  exists b1, b2.
  split; [by eapply list_elem_of_lookup_2|].
  split; [by eapply list_elem_of_lookup_2|].
  split; [done|].
  split; [|split].
  - apply list_elem_of_lookup. exists i.
    rewrite list_lookup_delete_lt by done.
    by apply list_lookup_insert_eq.
  - intros b Hb. apply list_elem_of_delete_inv in Hb.
    apply list_elem_of_lookup in Hb as [k Hk].
    apply list_lookup_insert_Some in Hk as [(-> & -> & _)|[_ Hk]].
    + by left.
    + right. by eapply list_elem_of_lookup_2.
  - intros b Hb. apply list_elem_of_lookup in Hb as [k Hk].
    destruct (decide (k = i)) as [->|Hki]; [right; left; congruence|].
    destruct (decide (k = j)) as [->|Hkj]; [right; right; congruence|].
    left. apply list_elem_of_lookup.
    destruct (decide (k < j)%nat) as [Hlt'|Hge].
    + exists k. rewrite list_lookup_delete_lt by done.
      by rewrite list_lookup_insert_ne.
    + exists (pred k). rewrite list_lookup_delete_ge by lia.
      replace (S (pred k)) with k by lia.
      by rewrite list_lookup_insert_ne.
Qed.

(** ** The closure characterisation *)

Lemma noOverlap_separated F : noOverlap F -> separated F.
Proof.
  intros H a b Ha Hb Hi.
  apply list_elem_of_lookup in Ha as [i Hia].
  apply list_elem_of_lookup in Hb as [j Hjb].
  destruct (Nat.lt_trichotomy i j) as [Hlt|[->|Hgt]].
  - by rewrite (H i j a b) in Hi.
  - congruence.
  - rewrite doBoxesIntersect_sym in Hi. by rewrite (H j i b a) in Hi.
Qed.

Lemma generated_mono l1 l2 b :
  (forall c, c ∈ l1 -> c ∈ l2) -> generated l1 b -> generated l2 b.
Proof.
  intros Hsub. induction 1 as [b Hb|a b _ IHa _ IHb Hi].
  - apply gen_input; auto.
  - by apply gen_merge.
Qed.

Lemma generated_trans l1 l2 b :
  (forall c, c ∈ l1 -> generated l2 c) -> generated l1 b -> generated l2 b.
Proof.
  intros Hsub. induction 1 as [b Hb|a b _ IHa _ IHb Hi].
  - auto.
  - by apply gen_merge.
Qed.

(** A generated box that does not intersect itself was never merged. *)
Lemma generated_degenerate l b :
  generated l b -> doBoxesIntersect b b = false -> b ∈ l.
Proof.
  destruct 1 as [b Hb|a b _ _ Hi]; [done|].
  by rewrite (mergedBox_self_intersect _ _ Hi).
Qed.

(** Every generated box lies inside a member of a separated list that
    covers the input. *)
Lemma generated_inside l F b :
  separated F -> absorbs l F -> generated l b ->
  exists g, g ∈ F /\ boxInside b g.
Proof.
  intros Hsep Habs. induction 1 as [b Hb|a b _ IHa _ IHb Hi].
  - destruct (Habs b Hb) as (g & Hg & Hin & _). eauto.
  - destruct IHa as (ga & Hga & Ha), IHb as (gb & Hgb & Hb).
    assert (ga = gb) as <-.
    { apply Hsep; [done..|]. eapply doBoxesIntersect_mono; eauto. }
    exists ga. split; [done|]. by apply mergedBox_least.
Qed.

Lemma mergeClosure_subset l F G :
  mergeClosure l F -> mergeClosure l G -> forall f, f ∈ F -> f ∈ G.
Proof.
  intros [HsF HaF HgF] [HsG HaG HgG] f Hf.
  destruct (doBoxesIntersect f f) eqn:Hself.
  - destruct (generated_inside l G f HsG HaG (HgF f Hf)) as (g & Hg & Hfg).
    destruct (generated_inside l F g HsF HaF (HgG g Hg)) as (f' & Hf' & Hgf').
    assert (f = f') as <-.
    { apply HsF; [done..|].
      eapply doBoxesIntersect_mono; [apply boxInside_refl| |exact Hself].
      by eapply boxInside_trans. }
    by rewrite (boxInside_antisym f g).
  - pose proof (generated_degenerate l f (HgF f Hf) Hself) as Hin.
    destruct (HaG f Hin) as (g & Hg & Hfg & [->|Hi]); [done|].
    destruct (generated_inside l F g HsF HaF (HgG g Hg)) as (f' & Hf' & Hgf').
    assert (f = f') as <-.
    { apply HsF; [done..|].
      eapply doBoxesIntersect_mono; [apply boxInside_refl|exact Hgf'|exact Hi]. }
    assert (doBoxesIntersect f f = true); [|congruence].
    eapply doBoxesIntersect_mono; [apply boxInside_refl|exact Hgf'|exact Hi].
Qed.

(** The closure of an input is unique as a set of boxes. *)
Lemma mergeClosure_unique l F G :
  mergeClosure l F -> mergeClosure l G -> sameBoxes F G.
Proof. intros HF HG b. split; by eapply mergeClosure_subset. Qed.

Lemma mergeClosure_input l1 l2 F :
  sameBoxes l1 l2 -> mergeClosure l1 F -> mergeClosure l2 F.
Proof.
  intros Hs [Hsep Habs Hgen]. split; [done| |].
  - intros b Hb. apply Habs, Hs, Hb.
  - intros f Hf. eapply generated_mono; [|by apply Hgen].
    intros c. apply Hs.
Qed.

(** Coverage and generation are kept by every merge. *)
Lemma mergeStep_invariant l cur cur' :
  mergeStep cur cur' ->
  absorbs l cur /\ (forall f, f ∈ cur -> generated l f) ->
  absorbs l cur' /\ (forall f, f ∈ cur' -> generated l f).
Proof.
  intros Hstep [Habs Hgen].
  apply mergeStep_members in Hstep
    as (b1 & b2 & H1 & H2 & Hi & Hm & Hnew & Hold).
  assert (forall b g, boxInside b g -> (b = g \/ doBoxesIntersect b g = true) ->
            g = b1 \/ g = b2 ->
            doBoxesIntersect b (mergedBox b1 b2) = true) as Hkey.
  { intros b g Hbg Hor Hg.
    assert (doBoxesIntersect g (mergedBox b1 b2) = true) as Hgm.
    { destruct Hg as [->| ->].
      - eapply doBoxesIntersect_mono; [| |exact Hi]; auto with boxes.
      - rewrite doBoxesIntersect_sym.
        eapply doBoxesIntersect_mono; [| |exact Hi]; auto with boxes. }
    destruct Hor as [->|Hbi]; [done|].
    eapply doBoxesIntersect_mono; [apply boxInside_refl| |exact Hbi].
    destruct Hg as [->| ->]; auto with boxes. }
  split.
  - intros b Hb. destruct (Habs b Hb) as (g & Hg & Hbg & Hor).
    destruct (Hold g Hg) as [Hg'|Hg']; [by eauto|].
    exists (mergedBox b1 b2). split; [done|]. split.
    + eapply boxInside_trans; [exact Hbg|].
      destruct Hg' as [->| ->]; auto with boxes.
    + right. by eapply Hkey.
  - intros f Hf. destruct (Hnew f Hf) as [->|Hf']; [|by auto].
    apply gen_merge; auto.
Qed.

Lemma mergeSteps_invariant l cur cur' :
  rtc mergeStep cur cur' ->
  absorbs l cur /\ (forall f, f ∈ cur -> generated l f) ->
  absorbs l cur' /\ (forall f, f ∈ cur' -> generated l f).
Proof.
  induction 1 as [|cur mid cur' Hstep _ IH]; [done|].
  intros H. by apply IH, (mergeStep_invariant l cur mid).
Qed.

Lemma absorbs_refl l : absorbs l l.
Proof. intros b Hb. exists b. auto with boxes. Qed.

(** The list returned by the loop is the closure of its input. *)
Lemma mergeOverlappingBoxes_closure boxes :
  mergeClosure boxes (mergeOverlappingBoxes boxes).
Proof.
  destruct (mergeSteps_invariant boxes boxes (mergeOverlappingBoxes boxes))
    as [Habs Hgen].
  - apply mergeLoop_steps.
  - split; [apply absorbs_refl|]. intros f. apply gen_input.
  - split; [|done..].
    apply noOverlap_separated, mergeOverlappingBoxes_noOverlap.
Qed.

(** ** The classes of the transitive closure *)

Lemma overlapsAt_true l i j :
  overlapsAt l i j = true <->
  exists a b, l !! i = Some a /\ l !! j = Some b /\ doBoxesIntersect a b = true.
Proof.
  unfold overlapsAt. split.
  - destruct (l !! i) as [a|], (l !! j) as [b|]; try done. eauto.
  - intros (a & b & -> & -> & H). done.
Qed.

Lemma overlapsAt_sym l i j : overlapsAt l i j = overlapsAt l j i.
Proof.
  unfold overlapsAt.
  destruct (l !! i) as [a|], (l !! j) as [b|]; try done.
  apply doBoxesIntersect_sym.
Qed.

Lemma nextMember_Some l cls j :
  nextMember l cls = Some j ->
  (j < length l)%nat /\ (j ∉ cls) /\
  exists i, i ∈ cls /\ overlapsAt l i j = true.
Proof.
  unfold nextMember.
  destruct (list_find _ _) as [[k j']|] eqn:E; [|done].
  intros [= ->]. apply list_find_Some in E as (Hk & [Hn Hex] & _).
  split.
  - apply list_elem_of_lookup_2, elem_of_seq in Hk. lia.
  - split; [done|]. apply list.Exists_exists in Hex. exact Hex.
Qed.

Lemma nextMember_None l cls i j :
  nextMember l cls = None ->
  i ∈ cls -> overlapsAt l i j = true -> j ∈ cls.
Proof.
  unfold nextMember.
  destruct (list_find _ _) as [[k j']|] eqn:E; [done|].
  intros _ Hi Ho. apply list_find_None in E.
  destruct (decide (j ∈ cls)) as [|Hn]; [done|exfalso].
  apply overlapsAt_true in Ho as Ho'. destruct Ho' as (a & b & _ & Hb & _).
  apply lookup_lt_Some in Hb.
  rewrite list.Forall_forall in E. apply (E j).
  - apply elem_of_seq. lia.
  - split; [done|]. apply list.Exists_exists. eauto.
Qed.

Lemma classLoop_chained fuel l cls :
  chained l cls -> chained l (classLoop fuel l cls).
Proof.
  revert cls. induction fuel as [|fuel IH]; intros cls Hc; simpl; [done|].
  destruct (nextMember l cls) as [j|] eqn:E; [|done].
  apply nextMember_Some in E as (_ & _ & i & Hi & Ho).
  apply IH. by eapply chained_snoc.
Qed.

Lemma classLoop_head fuel l cls i :
  head cls = Some i -> head (classLoop fuel l cls) = Some i.
Proof.
  revert cls. induction fuel as [|fuel IH]; intros cls Hh; simpl; [done|].
  destruct (nextMember l cls) as [j|]; [|done].
  apply IH. by rewrite head_app, Hh.
Qed.

(** A class has no repeated position and stays inside the input, so
    its length is bounded and the loop stops because nothing more can
    join. *)
Lemma classLoop_saturated fuel l cls :
  NoDup cls -> (forall j, j ∈ cls -> (j < length l)%nat) ->
  (length l < fuel + length cls)%nat ->
  nextMember l (classLoop fuel l cls) = None.
Proof.
  revert cls. induction fuel as [|fuel IH]; intros cls Hnd Hin Hlen; simpl.
  - exfalso.
    assert (cls ⊆+ seq 0 (length l)) as Hsub.
    { apply NoDup_submseteq; [done|].
      intros j Hj. apply elem_of_seq. specialize (Hin j Hj). lia. }
    apply submseteq_length in Hsub. rewrite length_seq in Hsub. lia.
  - destruct (nextMember l cls) as [j|] eqn:E; [|done].
    apply nextMember_Some in E as (Hj & Hn & _).
    apply IH.
    + apply list.NoDup_app. split; [done|]. split; [|apply NoDup_singleton].
      intros k Hk ->%list_elem_of_singleton. done.
    + intros k [Hk| ->%list_elem_of_singleton]%elem_of_app; auto.
    + rewrite length_app. simpl. lia.
Qed.

Lemma classOf_saturated l i :
  (i < length l)%nat -> nextMember l (classOf l i) = None.
Proof.
  intros Hi. apply classLoop_saturated.
  - apply NoDup_singleton.
  - by intros j ->%list_elem_of_singleton.
  - simpl. lia.
Qed.

Lemma chained_reachable l cls :
  chained l cls ->
  exists i, head cls = Some i /\
    forall j, j ∈ cls -> rtc (fun a b => overlapsAt l a b = true) i j.
Proof.
  induction 1 as [i b Hb|cls i j _ (i0 & Hh & IH) Hi Ho].
  - exists i. split; [done|]. by intros j ->%list_elem_of_singleton.
  - exists i0. split; [by rewrite head_app, Hh|].
    intros k [Hk| ->%list_elem_of_singleton]%elem_of_app; [auto|].
    eapply rtc_r; [by apply IH|done].
Qed.

(** The computed class is the class of the transitive closure. *)
Lemma classOf_spec l i j :
  (i < length l)%nat ->
  j ∈ classOf l i <-> rtc (fun a b => overlapsAt l a b = true) i j.
Proof.
  intros Hi.
  assert (chained l (classOf l i)) as Hc.
  { apply lookup_lt_is_Some in Hi as [b Hb].
    apply classLoop_chained. by eapply chained_one. }
  assert (head (classOf l i) = Some i) as Hh by by apply classLoop_head.
  split.
  - intros Hj. destruct (chained_reachable _ _ Hc) as (i0 & Hh0 & Hr).
    rewrite Hh in Hh0. injection Hh0 as <-. auto.
  - revert j. apply rtc_ind_r.
    + by apply head_Some_elem_of.
    + intros k j _ Hkj IH.
      eapply nextMember_None; [by apply classOf_saturated|apply IH|done].
Qed.

Lemma addMember_inside l acc j : boxInside acc (addMember l acc j).
Proof. unfold addMember. destruct (l !! j); auto with boxes. Qed.

Lemma addMembers_inside l rest acc :
  boxInside acc (foldl (addMember l) acc rest).
Proof.
  revert acc. induction rest as [|k rest IH]; intros acc; simpl;
    [auto with boxes|].
  eapply boxInside_trans; [apply addMember_inside|apply IH].
Qed.

(** [unionOfClass] is the bounding box of the class: it contains the
    box at every position of the class and lies inside every box that
    does. *)
Lemma unionOfClass_upper l cls g j bj :
  unionOfClass l cls = Some g -> j ∈ cls -> l !! j = Some bj ->
  boxInside bj g.
Proof.
  destruct cls as [|i rest]; [done|]. simpl.
  destruct (l !! i) as [b|] eqn:Hb; [|done].
  intros [= <-] [->|Hj]%elem_of_cons Hbj.
  - replace bj with b by congruence. apply addMembers_inside.
  - clear Hb. revert b.
    induction rest as [|k rest IH]; intros b; [by apply elem_of_nil in Hj|].
    simpl. apply elem_of_cons in Hj as [->|Hj]; [|by apply IH].
    eapply boxInside_trans; [|apply addMembers_inside].
    unfold addMember. rewrite Hbj. apply mergedBox_inside_r.
Qed.

Lemma unionOfClass_least l cls g c :
  unionOfClass l cls = Some g ->
  (forall j bj, j ∈ cls -> l !! j = Some bj -> boxInside bj c) ->
  boxInside g c.
Proof.
  destruct cls as [|i rest]; [done|]. simpl.
  destruct (l !! i) as [b|] eqn:Hb; [|done]. intros [= <-] Hall.
  assert (boxInside b c) as Hbc by (eapply Hall; [left|done]).
  assert (forall j bj, j ∈ rest -> l !! j = Some bj -> boxInside bj c)
    as Hrest by (intros j bj Hj; apply Hall; by right).
  clear Hall Hb. revert b Hbc.
  induction rest as [|k rest IH]; intros b Hbc; simpl; [done|].
  apply IH.
  - intros j bj Hj. apply Hrest. by right.
  - unfold addMember. destruct (l !! k) as [bk|] eqn:Hk; [|done].
    apply mergedBox_least; [done|]. eapply Hrest; [left|done].
Qed.

(** The bounding box of a chained class can be built by merges of
    intersecting boxes, contains its members, and is or intersects the
    box the class started from. *)
Lemma chained_union l cls :
  chained l cls ->
  exists i0 b0 g,
    head cls = Some i0 /\ l !! i0 = Some b0 /\
    unionOfClass l cls = Some g /\ generated l g /\
    (forall j bj, j ∈ cls -> l !! j = Some bj -> boxInside bj g) /\
    (b0 = g \/ doBoxesIntersect b0 g = true).
Proof.
  induction 1
    as [i b Hb|cls i j _ (i0 & b0 & g & Hh & Hb0 & Hu & Hgen & Hin & Hor) Hi Ho].
  - exists i, b, b. simpl. rewrite Hb.
    split; [done|]. split; [done|]. split; [done|]. split; [|split].
    + apply gen_input. by eapply list_elem_of_lookup_2.
    + intros k bk ->%list_elem_of_singleton ?. simplify_eq.
      apply boxInside_refl.
    + by left.
  - apply overlapsAt_true in Ho as (bi & bj & Hbi & Hbj & Hint).
    assert (doBoxesIntersect g bj = true) as Hgj.
    { eapply doBoxesIntersect_mono; [by eapply Hin|apply boxInside_refl|done]. }
    exists i0, b0, (mergedBox g bj).
    split; [by rewrite head_app, Hh|]. split; [done|].
    split; [|split; [|split]].
    + destruct cls as [|c cls]; [done|]. simpl in *.
      injection Hh as ->. rewrite Hb0 in *. injection Hu as <-.
      rewrite foldl_snoc. unfold addMember at 1. by rewrite Hbj.
    + apply gen_merge; [done| |done].
      apply gen_input. by eapply list_elem_of_lookup_2.
    + intros k bk [Hk| ->%list_elem_of_singleton]%elem_of_app Hbk.
      * eapply boxInside_trans; [by eapply Hin|apply mergedBox_inside_l].
      * simplify_eq. apply mergedBox_inside_r.
    + right. destruct Hor as [->|Hor].
      * eapply doBoxesIntersect_mono;
          [apply boxInside_refl|apply mergedBox_inside_r|done].
      * eapply doBoxesIntersect_mono;
          [apply boxInside_refl|apply mergedBox_inside_l|done].
Qed.

Lemma classOf_union l i b :
  l !! i = Some b ->
  exists g, unionOfClass l (classOf l i) = Some g /\ generated l g /\
            boxInside b g /\ (b = g \/ doBoxesIntersect b g = true).
Proof.
  intros Hb.
  assert (chained l (classOf l i)) as Hc.
  { apply classLoop_chained. by eapply chained_one. }
  assert (head (classOf l i) = Some i) as Hh by by apply classLoop_head.
  destruct (chained_union _ _ Hc)
    as (i0 & b0 & g & Hh0 & Hb0 & Hu & Hgen & Hin & Hor).
  rewrite Hh in Hh0. injection Hh0 as <-. rewrite Hb in Hb0.
  injection Hb0 as <-.
  exists g. split; [done|]. split; [done|]. split; [|done].
  eapply Hin; [|done]. by apply head_Some_elem_of.
Qed.

Lemma transitiveClosureBoxes_elem l g :
  g ∈ transitiveClosureBoxes l <->
  exists i, (i < length l)%nat /\ unionOfClass l (classOf l i) = Some g.
Proof.
  unfold transitiveClosureBoxes. rewrite list_elem_of_omap.
  split; intros (i & H1 & H2); exists i.
  - apply elem_of_seq in H1. split; [lia|done].
  - split; [|done]. apply elem_of_seq. lia.
Qed.

(** When the class boxes are separated, they are the closure. *)
Lemma transitiveClosureBoxes_closure l :
  separated (transitiveClosureBoxes l) ->
  mergeClosure l (transitiveClosureBoxes l).
Proof.
  intros Hsep. split; [done| |].
  - intros b [i Hb]%list_elem_of_lookup.
    destruct (classOf_union l i b Hb) as (g & Hu & _ & Hin & Hor).
    exists g. split; [|done].
    apply transitiveClosureBoxes_elem. exists i.
    split; [by eapply lookup_lt_Some|done].
  - intros g (i & Hi & Hu)%transitiveClosureBoxes_elem.
    apply lookup_lt_is_Some in Hi as [b Hb].
    destruct (classOf_union l i b Hb) as (g' & Hu' & Hgen & _).
    congruence.
Qed.

(** ** Box merging: the stated properties *)

Example merge_two_overlapping :
  mergeOverlappingBoxes [sq10; sq25] = [mkBox 9 9 37 37].
Proof. reflexivity. Qed.

Example merge_two_apart :
  mergeOverlappingBoxes [sq10; sq150] = [sq10; sq150].
Proof. reflexivity. Qed.

Example merge_bars_and_blob :
  mergeOverlappingBoxes [barV; barH; blob] = [mkBox 0 0 30 30].
Proof. reflexivity. Qed.

Example closure_bars_and_blob :
  transitiveClosureBoxes [barV; barH; blob]
  = [mkBox 0 0 30 30; mkBox 0 0 30 30; blob].
Proof. reflexivity. Qed.

Lemma separatedb_sound F : separatedb F = true -> separated F.
Proof.
  unfold separatedb. rewrite forallb_forall.
  intros H a b Ha Hb Hi.
  apply list_elem_of_In in Ha, Hb.
  specialize (H a Ha). rewrite forallb_forall in H.
  specialize (H b Hb). rewrite Hi in H. simpl in H.
  by apply bool_decide_eq_true in H.
Qed.

(** Every class of the transitive closure ends up inside one box of
    the result. *)
Lemma transitiveClosureBoxes_inside boxes g :
  g ∈ transitiveClosureBoxes boxes ->
  exists f, f ∈ mergeOverlappingBoxes boxes /\ boxInside g f.
Proof.
  intros (i & Hi & Hu)%transitiveClosureBoxes_elem.
  apply lookup_lt_is_Some in Hi as [b Hb].
  destruct (classOf_union boxes i b Hb) as (g' & Hu' & Hgen & _).
  assert (g' = g) as -> by congruence.
  destruct (mergeOverlappingBoxes_closure boxes) as [Hsep Habs _].
  by eapply generated_inside.
Qed.

(** C1, as stated, fails: the two bars overlap and are merged into a
    box that overlaps the blob, which overlaps neither bar.  The loop
    returns one box; the classes of the transitive closure on the
    input give two. *)
Lemma mergeOverlappingBoxes_not_transitive_closure :
  ~ sameBoxes (mergeOverlappingBoxes [barV; barH; blob])
              (transitiveClosureBoxes [barV; barH; blob]).
Proof.
  intros H. specialize (H blob). destruct H as [_ H].
  assert (blob ∈ mergeOverlappingBoxes [barV; barH; blob]) as Hin.
  { apply H. rewrite closure_bars_and_blob. set_solver. }
  rewrite merge_bars_and_blob in Hin.
  apply list_elem_of_singleton in Hin. discriminate Hin.
Qed.

(** C1, amended: the set of boxes returned by [mergeOverlappingBoxes]
    equals the partition given by the transitive closure of the overlap
    relation on the input boxes, each class replaced by its bounding
    box, exactly when the bounding boxes of the classes do not overlap
    one another. *)
Theorem mergeOverlappingBoxes_transitive_closure boxes :
  sameBoxes (mergeOverlappingBoxes boxes) (transitiveClosureBoxes boxes)
  <-> separated (transitiveClosureBoxes boxes).
Proof.
  split.
  - intros Hsame a b Ha Hb.
    apply Hsame in Ha, Hb. revert a b Ha Hb.
    apply noOverlap_separated, mergeOverlappingBoxes_noOverlap.
  - intros Hsep. eapply mergeClosure_unique.
    + apply mergeOverlappingBoxes_closure.
    + by apply transitiveClosureBoxes_closure.
Qed.

Lemma mergeOverlappingBoxes_transitive_closure_witness :
  separated (transitiveClosureBoxes [sq10; sq150; sq25]) /\
  sameBoxes (mergeOverlappingBoxes [sq10; sq150; sq25])
            (transitiveClosureBoxes [sq10; sq150; sq25]).
Proof.
  assert (separated (transitiveClosureBoxes [sq10; sq150; sq25])) as H.
  { apply separatedb_sound. vm_compute. reflexivity. }
  split; [exact H|].
  exact (proj2 (mergeOverlappingBoxes_transitive_closure [sq10; sq150; sq25])
           H).
Defined.

(** C6: [mergeOverlappingBoxes] is order-insensitive: on a list and on
    any permutation of it, it returns the same set of boxes. *)
Theorem mergeOverlappingBoxes_order_insensitive l1 l2 :
  l1 ≡ₚ l2 ->
  sameBoxes (mergeOverlappingBoxes l1) (mergeOverlappingBoxes l2).
Proof.
  intros Hp. eapply mergeClosure_unique.
  - apply mergeOverlappingBoxes_closure.
  - eapply mergeClosure_input; [|apply mergeOverlappingBoxes_closure].
    intros b. by rewrite Hp.
Qed.

Lemma mergeOverlappingBoxes_order_insensitive_witness :
  [barV; barH; blob] ≡ₚ [blob; barV; barH] /\
  sameBoxes (mergeOverlappingBoxes [barV; barH; blob])
            (mergeOverlappingBoxes [blob; barV; barH]).
Proof.
  assert ([barV; barH; blob] ≡ₚ [blob; barV; barH]) as H.
  { apply Permutation_sym, (Permutation_cons_append [barV; barH] blob). }
  split; [exact H|].
  exact (mergeOverlappingBoxes_order_insensitive _ _ H).
Defined.

(** The loop leaves its own result alone, as a list. *)
Lemma mergeOverlappingBoxes_fixed boxes :
  mergeOverlappingBoxes (mergeOverlappingBoxes boxes)
  = mergeOverlappingBoxes boxes.
Proof.
  unfold mergeOverlappingBoxes at 1.
  apply mergeLoop_fixed, mergeOverlappingBoxes_exits.
Qed.

(** C7: [mergeOverlappingBoxes] is idempotent: applied to its own
    output it returns the same set of boxes as applied once. *)
Theorem mergeOverlappingBoxes_idempotent boxes :
  sameBoxes (mergeOverlappingBoxes (mergeOverlappingBoxes boxes))
            (mergeOverlappingBoxes boxes).
Proof. intros b. by rewrite mergeOverlappingBoxes_fixed. Qed.

(** C10: every box of the input is geometrically contained in some box
    of the output of [mergeOverlappingBoxes]. *)
Theorem mergeOverlappingBoxes_covers boxes b :
  b ∈ boxes ->
  exists g, g ∈ mergeOverlappingBoxes boxes /\ boxInside b g.
Proof.
  intros Hb.
  destruct (mergeOverlappingBoxes_closure boxes) as [_ Habs _].
  destruct (Habs b Hb) as (g & Hg & Hin & _). eauto.
Qed.

Lemma mergeOverlappingBoxes_covers_witness :
  blob ∈ [barV; barH; blob] /\
  exists g, g ∈ mergeOverlappingBoxes [barV; barH; blob] /\ boxInside blob g.
Proof.
  assert (blob ∈ [barV; barH; blob]) as H.
  { apply list_elem_of_lookup. exists 2%nat. reflexivity. }
  split; [exact H|].
  exact (mergeOverlappingBoxes_covers [barV; barH; blob] blob H).
Defined.



(** ** Background removal *)

Lemma withinTolerance_spec t r0 g0 b0 r g b :
  withinTolerance t r0 g0 b0 r g b = true <->
  0 <= t /\ (r - r0) ^ 2 + (g - g0) ^ 2 + (b - b0) ^ 2 <= t * t.
Proof.
  unfold withinTolerance. rewrite Z.leb_le.
  set (s := (r - r0) ^ 2 + (g - g0) ^ 2 + (b - b0) ^ 2).
  assert (0 <= s) as Hs by (unfold s; nia).
  destruct (Z.eq_dec s 0) as [->|Hne].
  - change (Z.sqrt_up 0) with 0. nia.
  - pose proof (Z.sqrt_up_spec s ltac:(lia)) as Hspec.
    pose proof (Z.sqrt_up_nonneg s) as Hnn.
    split; intros; nia.
Qed.

Section RemoveLoop.

Variable close : Z -> Z -> Z -> bool.

Lemma removeAt_rgbClose i data :
  removeAt close i data
  = if rgbClose close data i then <[(i + 3)%nat := 0]> data else data.
Proof.
  unfold removeAt, rgbClose.
  by destruct (data !! i), (data !! (i + 1)%nat), (data !! (i + 2)%nat).
Qed.

Lemma removeAt_length i data :
  length (removeAt close i data) = length data.
Proof.
  rewrite removeAt_rgbClose.
  destruct (rgbClose close data i); [apply length_insert|done].
Qed.

Lemma removeAt_lookup_ne i data k :
  k <> (i + 3)%nat -> removeAt close i data !! k = data !! k.
Proof.
  intros Hk. rewrite removeAt_rgbClose.
  destruct (rgbClose close data i); [|done].
  by rewrite list_lookup_insert_ne.
Qed.

Lemma removeAt_lookup_alpha i data :
  removeAt close i data !! (i + 3)%nat
  = if rgbClose close data i
    then (if (i + 3 <? length data)%nat then Some 0 else None)
    else data !! (i + 3)%nat.
Proof.
  rewrite removeAt_rgbClose.
  destruct (rgbClose close data i); [|done].
  destruct (Nat.ltb_spec (i + 3) (length data)).
  - by apply list_lookup_insert_eq.
  - rewrite list_insert_ge by done. by apply lookup_ge_None.
Qed.

Lemma removeAt_keeps_rgbClose i data j :
  (j + 2 < i + 3 \/ i + 3 < j)%nat ->
  rgbClose close (removeAt close i data) j = rgbClose close data j.
Proof.
  intros Hj. unfold rgbClose.
  rewrite !removeAt_lookup_ne by lia. done.
Qed.

Lemma removeLoop_length fuel i data :
  length (removeLoop close fuel i data) = length data.
Proof.
  revert i data. induction fuel as [|fuel IH]; intros i data; simpl; [done|].
  destruct (i <? length data)%nat; [|done].
  by rewrite IH, removeAt_length.
Qed.

(** Bytes that are not the alpha byte of a pixel from [i] on are
    untouched. *)
Lemma removeLoop_lookup_other fuel i data k :
  (forall m, k <> (i + 4 * m + 3)%nat) ->
  removeLoop close fuel i data !! k = data !! k.
Proof.
  revert i data. induction fuel as [|fuel IH]; intros i data Hk; simpl;
    [done|].
  destruct (i <? length data)%nat; [|done].
  rewrite IH.
  - apply removeAt_lookup_ne. specialize (Hk 0%nat). lia.
  - intros m. specialize (Hk (S m)). lia.
Qed.

Lemma rgbClose_out data j :
  (length data <= j)%nat -> rgbClose close data j = false.
Proof.
  intros Hlen. unfold rgbClose. by rewrite (lookup_ge_None_2 data j).
Qed.

(** The alpha byte of the [m]-th pixel from [i] on. *)
Lemma removeLoop_lookup_alpha fuel i data m :
  (length data <= i + 4 * fuel)%nat ->
  removeLoop close fuel i data !! (i + 4 * m + 3)%nat
  = if rgbClose close data (i + 4 * m)
    then (if (i + 4 * m + 3 <? length data)%nat then Some 0 else None)
    else data !! (i + 4 * m + 3)%nat.
Proof.
  revert i data m.
  induction fuel as [|fuel IH]; intros i data m Hlen; cbn [removeLoop].
  - by rewrite rgbClose_out by lia.
  - destruct (Nat.ltb_spec i (length data)) as [Hlt|Hge];
      [|by rewrite rgbClose_out by lia].
    destruct m as [|m].
    + rewrite removeLoop_lookup_other by (intros m; lia).
      rewrite Nat.mul_0_r, Nat.add_0_r.
      apply removeAt_lookup_alpha.
    + replace (i + 4 * S m)%nat with (i + 4 + 4 * m)%nat by lia.
      rewrite IH by (rewrite removeAt_length; lia).
      rewrite removeAt_keeps_rgbClose by lia.
      rewrite removeAt_length.
      by rewrite removeAt_lookup_ne by lia.
Qed.

(** [length data] iterations are enough: more fuel changes nothing. *)
Lemma removeLoop_fuel fuel extra i data :
  (length data <= i + 4 * fuel)%nat ->
  removeLoop close (fuel + extra) i data = removeLoop close fuel i data.
Proof.
  revert i data. induction fuel as [|fuel IH]; intros i data Hlen.
  - destruct extra as [|extra]; [done|]. cbn [Nat.add removeLoop].
    by destruct (Nat.ltb_spec i (length data)); [lia|].
  - cbn [Nat.add removeLoop].
    destruct (Nat.ltb_spec i (length data)); [|done].
    apply IH. rewrite removeAt_length. lia.
Qed.

End RemoveLoop.

(** The reference colour and the guard on its alpha, read from the
    buffer. *)
Lemma removeBackgroundData_eq t data :
  removeBackgroundData t data = data \/
  exists r0 g0 b0,
    data !! 0%nat = Some r0 /\ data !! 1%nat = Some g0 /\
    data !! 2%nat = Some b0 /\ data !! 3%nat <> Some 0 /\
    removeBackgroundData t data
    = removeLoop (withinTolerance t r0 g0 b0) (length data) 0 data.
Proof.
  unfold removeBackgroundData.
  destruct (data !! 3%nat) as [a0|] eqn:Ha.
  - destruct (Z.eq_dec a0 0) as [->|Hne]; [by left|].
    destruct (data !! 0%nat) as [r0|], (data !! 1%nat) as [g0|],
      (data !! 2%nat) as [b0|]; try (left; by destruct a0).
    right. exists r0, g0, b0.
    repeat split; try done; [congruence|by destruct a0].
  - destruct (data !! 0%nat) as [r0|], (data !! 1%nat) as [g0|],
      (data !! 2%nat) as [b0|]; try by left.
    right. exists r0, g0, b0. by repeat split.
Qed.

Lemma removeBackgroundData_length t data :
  length (removeBackgroundData t data) = length data.
Proof.
  destruct (removeBackgroundData_eq t data)
    as [->|(r0 & g0 & b0 & _ & _ & _ & _ & ->)]; [done|].
  apply removeLoop_length.
Qed.

Lemma removeBackgroundData_colour t data p c :
  (c < 3)%nat ->
  removeBackgroundData t data !! (4 * p + c)%nat = data !! (4 * p + c)%nat.
Proof.
  intros Hc.
  destruct (removeBackgroundData_eq t data)
    as [->|(r0 & g0 & b0 & _ & _ & _ & _ & ->)]; [done|].
  apply removeLoop_lookup_other. intros m. lia.
Qed.

Lemma removeBackgroundData_alpha t data r0 g0 b0 a0 p :
  pixelAt data 0 = Some (r0, g0, b0, a0) -> a0 <> 0 ->
  removeBackgroundData t data !! (4 * p + 3)%nat
  = if rgbClose (withinTolerance t r0 g0 b0) data (4 * p)
    then (if (4 * p + 3 <? length data)%nat then Some 0 else None)
    else data !! (4 * p + 3)%nat.
Proof.
  unfold pixelAt. simpl.
  destruct (data !! 0%nat) as [r|] eqn:Hr; [|done].
  destruct (data !! 1%nat) as [g|] eqn:Hg; [|done].
  destruct (data !! 2%nat) as [b|] eqn:Hb; [|done].
  destruct (data !! 3%nat) as [a|] eqn:Ha; [|done].
  intros [= -> -> -> ->] Hne.
  unfold removeBackgroundData. rewrite Hr, Hg, Hb, Ha.
  destruct a0; [done| |];
    apply (removeLoop_lookup_alpha _ (length data) 0 data p); lia.
Qed.

Lemma removeBackgroundData_changed t data k :
  removeBackgroundData t data !! k = data !! k \/
  removeBackgroundData t data !! k = Some 0.
Proof.
  destruct (removeBackgroundData_eq t data)
    as [->|(r0 & g0 & b0 & _ & _ & _ & _ & ->)]; [by left|].
  pose proof (Nat.div_mod_eq k 4) as Hk.
  pose proof (Nat.mod_upper_bound k 4 ltac:(done)) as Hc.
  destruct (decide (k mod 4 = 3)%nat) as [H3|H3].
  - replace k with (0 + 4 * (k / 4) + 3)%nat at 1 3 by lia.
    rewrite removeLoop_lookup_alpha by lia.
    destruct (rgbClose _ _ _); [|left; f_equal; lia].
    destruct (Nat.ltb_spec (0 + 4 * (k / 4) + 3) (length data)); [by right|].
    left. symmetry. apply lookup_ge_None. lia.
  - left. apply removeLoop_lookup_other. intros m. lia.
Qed.

(** C9: [removeBackground] changes nothing but alpha bytes: the size
    of the raster and every red, green and blue byte are as before, a
    byte that changes becomes 0, and with an alpha of 0 at pixel (0,0)
    the raster is returned as it was. *)
Theorem removeBackground_frame (canvas : Canvas) (tolerance : Z) :
  cv_width (removeBackground canvas tolerance) = cv_width canvas /\
  cv_height (removeBackground canvas tolerance) = cv_height canvas /\
  length (cv_data (removeBackground canvas tolerance))
    = length (cv_data canvas) /\
  (forall p c, (c < 3)%nat ->
     cv_data (removeBackground canvas tolerance) !! (4 * p + c)%nat
     = cv_data canvas !! (4 * p + c)%nat) /\
  (forall k,
     cv_data (removeBackground canvas tolerance) !! k = cv_data canvas !! k \/
     cv_data (removeBackground canvas tolerance) !! k = Some 0) /\
  (cv_data canvas !! 3%nat = Some 0 ->
     removeBackground canvas tolerance = canvas).
Proof.
  unfold removeBackground.
  destruct canvas as [w h data [|]]; simpl.
  - split; [done|]. split; [done|].
    split; [apply removeBackgroundData_length|].
    split; [intros p c; apply removeBackgroundData_colour|].
    split; [apply removeBackgroundData_changed|].
    intros Ha. unfold removeBackgroundData. by rewrite Ha.
  - repeat split; auto.
Qed.

Lemma removeBackground_frame_witness :
  cv_data (mkCanvas 1 2 [7; 8; 9; 0; 7; 8; 9; 200] true) !! 3%nat = Some 0 /\
  removeBackground (mkCanvas 1 2 [7; 8; 9; 0; 7; 8; 9; 200] true) 20
  = mkCanvas 1 2 [7; 8; 9; 0; 7; 8; 9; 200] true.
Proof.
  split; [reflexivity|].
  apply (removeBackground_frame
           (mkCanvas 1 2 [7; 8; 9; 0; 7; 8; 9; 200] true) 20).
  reflexivity.
Defined.

Lemma pixelAt_Some data p r g b a :
  pixelAt data p = Some (r, g, b, a) <->
  data !! (4 * p)%nat = Some r /\ data !! (4 * p + 1)%nat = Some g /\
  data !! (4 * p + 2)%nat = Some b /\ data !! (4 * p + 3)%nat = Some a.
Proof.
  unfold pixelAt.
  destruct (data !! (4 * p)%nat), (data !! (4 * p + 1)%nat),
    (data !! (4 * p + 2)%nat), (data !! (4 * p + 3)%nat);
    split; try done; try (by intros (? & ? & ? & ?)).
  - by intros [= -> -> -> ->].
  - by intros ([= ->] & [= ->] & [= ->] & [= ->]).
Qed.

(** The alpha byte of every pixel after [removeBackground], for a
    white opaque reference pixel. *)
Lemma removeBackground_white_alpha canvas t p r g b a :
  cv_context canvas = true ->
  pixelAt (cv_data canvas) 0 = Some (255, 255, 255, 255) ->
  pixelAt (cv_data canvas) p = Some (r, g, b, a) ->
  cv_data (removeBackground canvas t) !! (4 * p + 3)%nat
  = Some (if withinTolerance t 255 255 255 r g b then 0 else a).
Proof.
  intros Hctx H0 Hp. unfold removeBackground. rewrite Hctx. cbn [cv_data].
  rewrite (removeBackgroundData_alpha t _ _ _ _ _ p H0) by done.
  apply pixelAt_Some in Hp as (Hr & Hg & Hb & Ha).
  unfold rgbClose. rewrite Hr, Hg, Hb, Ha.
  destruct (withinTolerance t 255 255 255 r g b); [|done].
  apply lookup_lt_Some in Ha.
  by destruct (Nat.ltb_spec (4 * p + 3) (length (cv_data canvas))); [|lia].
Qed.

(** C5, as stated, fails in its second half: black is at distance
    255 * sqrt 3 > 441 from white, so tolerance 441 leaves a black
    pixel opaque. *)
Lemma removeBackground_441_keeps_black :
  pixelAt (cv_data whiteBlack) 0 = Some (255, 255, 255, 255) /\
  ~ (forall p, (p < 2)%nat ->
       cv_data (removeBackground whiteBlack 441) !! (4 * p + 3)%nat = Some 0).
Proof.
  split; [reflexivity|].
  intros H. specialize (H 1%nat ltac:(lia)). vm_compute in H. discriminate H.
Qed.

(** C5, amended: for a raster whose pixel (0,0) is (255,255,255,255),
    tolerance 0 sets alpha to 0 exactly on the pixels whose colour is
    (255,255,255) and leaves every other alpha as it was, and every
    tolerance from 442 on, the least integer above the largest distance
    255 * sqrt 3, sets alpha to 0 on every pixel. *)
Theorem removeBackground_white canvas :
  validCanvas canvas -> cv_context canvas = true ->
  pixelAt (cv_data canvas) 0 = Some (255, 255, 255, 255) ->
  (forall p r g b a,
     pixelAt (cv_data canvas) p = Some (r, g, b, a) ->
     cv_data (removeBackground canvas 0) !! (4 * p + 3)%nat
     = Some (if decide (r = 255 /\ g = 255 /\ b = 255) then 0 else a)) /\
  (forall t p r g b a,
     442 <= t ->
     pixelAt (cv_data canvas) p = Some (r, g, b, a) ->
     cv_data (removeBackground canvas t) !! (4 * p + 3)%nat = Some 0).
Proof.
  intros (_ & _ & _ & Hbytes) Hctx H0. split.
  - intros p r g b a Hp.
    rewrite (removeBackground_white_alpha canvas 0 p r g b a) by done.
    f_equal. destruct (withinTolerance 0 255 255 255 r g b) eqn:E.
    + apply withinTolerance_spec in E. rewrite decide_True; [done|nia].
    + rewrite decide_False; [done|]. intros (-> & -> & ->). done.
  - intros t p r g b a Ht Hp.
    rewrite (removeBackground_white_alpha canvas t p r g b a) by done.
    f_equal.
    assert (withinTolerance t 255 255 255 r g b = true) as ->; [|done].
    apply withinTolerance_spec.
    rewrite list.Forall_forall in Hbytes.
    apply pixelAt_Some in Hp as (Hr & Hg & Hb & _).
    apply list_elem_of_lookup_2, Hbytes in Hr, Hg, Hb.
    nia.
Qed.

Lemma removeBackground_white_witness :
  validCanvas whiteBlack /\ cv_context whiteBlack = true /\
  pixelAt (cv_data whiteBlack) 0 = Some (255, 255, 255, 255) /\
  cv_data (removeBackground whiteBlack 442) !! 7%nat = Some 0.
Proof.
  assert (validCanvas whiteBlack) as Hv.
  { unfold validCanvas. simpl. repeat split; try lia.
    repeat constructor; lia. }
  split; [exact Hv|]. split; [reflexivity|]. split; [reflexivity|].
  destruct (removeBackground_white whiteBlack Hv eq_refl eq_refl) as [_ H].
  apply (H 442 1%nat 0 0 0 255); [lia|reflexivity].
Defined.

(** ** Region detection *)

Lemma unvisited_le visited : (unvisited visited <= length visited)%nat.
Proof. apply length_filter. Qed.

Lemma unvisited_mark visited i :
  visited !! i = Some 0 ->
  S (unvisited (<[i := 1]> visited)) = unvisited visited.
Proof.
  unfold unvisited. revert i.
  induction visited as [|v visited IH]; intros [|i] H; try done.
  - injection H as ->.
    change (<[0%nat:=1]> (0 :: visited)) with (1 :: visited).
    rewrite (filter_cons_True _ 0) by done.
    by rewrite (filter_cons_False _ 1) by done.
  - change (<[S i:=1]> (v :: visited)) with (v :: <[i:=1]> visited).
    specialize (IH i H).
    destruct (decide (v = 0)) as [->|Hv].
    + rewrite !filter_cons_True by done. simpl. by rewrite IH.
    + by rewrite !filter_cons_False by done.
Qed.

Section FillLoop.

Variables (width height : Z) (data : list Z).

(** A push takes its pixel out of the unvisited ones. *)
Lemma visitNeighbor_measure stack visited n :
  (length (visitNeighbor width height data (stack, visited) n).1
   + unvisited (visitNeighbor width height data (stack, visited) n).2
   = length stack + unvisited visited)%nat
  /\ length (visitNeighbor width height data (stack, visited) n).2
     = length visited.
Proof.
  destruct n as [nx ny]. unfold visitNeighbor.
  destruct ((0 <=? nx) && (nx <? width) && (0 <=? ny) && (ny <? height));
    [|done].
  destruct (visited !! Z.to_nat (ny * width + nx)) as [[| |]|] eqn:E;
    try done.
  destruct (negb (isTransparent data (getIndex width nx ny))); [|done].
  simpl. rewrite length_insert. split; [|done].
  rewrite <- (unvisited_mark visited _ E). lia.
Qed.

Lemma visitNeighbors_measure ns stack visited :
  (length (foldl (visitNeighbor width height data) (stack, visited) ns).1
   + unvisited (foldl (visitNeighbor width height data) (stack, visited) ns).2
   = length stack + unvisited visited)%nat
  /\ length (foldl (visitNeighbor width height data) (stack, visited) ns).2
     = length visited.
Proof.
  revert stack visited.
  induction ns as [|n ns IH]; intros stack visited; cbn [foldl]; [done|].
  destruct (visitNeighbor_measure stack visited n) as [H1 H2].
  destruct (visitNeighbor width height data (stack, visited) n)
    as [stack' visited'].
  simpl in H1, H2. destruct (IH stack' visited') as [H3 H4].
  split; [lia|congruence].
Qed.

Lemma fillStep_measure st x y rest :
  (length (f_stack (fillStep width height data st x y rest))
   + unvisited (f_visited (fillStep width height data st x y rest))
   = length rest + unvisited (f_visited st))%nat.
Proof.
  unfold fillStep.
  destruct (visitNeighbors_measure
              [(x + 1, y); (x - 1, y); (x, y + 1); (x, y - 1)]
              rest (f_visited st)) as [H _].
  destruct (foldl _ _ _) as [stack visited]. exact H.
Qed.

(** With the stack and the unvisited pixels counted in, the fuel is
    enough for the loop to end on an empty stack. *)
Lemma fillLoop_done fuel st :
  (length (f_stack st) + unvisited (f_visited st) <= fuel)%nat ->
  f_stack (fillLoop width height data fuel st) = [].
Proof.
  revert st. induction fuel as [|fuel IH]; intros st Hm; simpl.
  - destruct (f_stack st); [done|simpl in Hm; lia].
  - destruct (f_stack st) as [|[x y] rest] eqn:E; [done|].
    apply IH. rewrite fillStep_measure. simpl in Hm. lia.
Qed.

(** The loop of [floodFill] always runs to the end. *)
Lemma floodFill_terminates visited startX startY :
  f_stack
    (fillLoop width height data (S (length visited))
       {| f_minX := startX; f_maxX := startX;
          f_minY := startY; f_maxY := startY;
          f_stack := [(startX, startY)];
          f_visited :=
            <[Z.to_nat (startY * width + startX) := 1]> visited;
          f_pixelCount := 0 |}) = [].
Proof.
  apply fillLoop_done. simpl.
  pose proof (unvisited_le
    (<[Z.to_nat (startY * width + startX) := 1]> visited)) as H.
  rewrite length_insert in H. lia.
Qed.

End FillLoop.

(** What the clamping of [detectionBox] gives for a component inside
    the raster: the box starts inside and is no larger than the
    raster, but it can reach one pixel past the right or bottom edge. *)
Lemma detectionBox_bounds width height minX maxX minY maxY :
  0 <= minX <= maxX -> maxX < width -> 0 <= minY <= maxY -> maxY < height ->
  let b := detectionBox width height minX maxX minY maxY in
  0 <= box_x b /\ 0 <= box_y b /\
  0 < box_width b <= width /\ 0 < box_height b <= height /\
  box_x b + box_width b <= width + 1 /\
  box_y b + box_height b <= height + 1 /\
  (box_x b + box_width b <= width <-> minX <= 1 \/ maxX < width - 1) /\
  (box_y b + box_height b <= height <-> minY <= 1 \/ maxY < height - 1).
Proof. unfold detectionBox. simpl. lia. Qed.

Example findSprites_twoSquares :
  findSprites twoSquares = Ok [mkBox 1 1 9 10; mkBox 12 1 9 10].
Proof. vm_compute. reflexivity. Qed.

(** The boxes of the bars and the blob come out of the detector, and
    [findSprites] merges all three into one. *)
Example detectBoxes_barsRaster :
  detectBoxes 30 30 (cv_data barsRaster) = [barH; barV; blob].
Proof. vm_compute. reflexivity. Qed.

Example findSprites_barsRaster :
  findSprites barsRaster = Ok [mkBox 0 0 30 30].
Proof. vm_compute. reflexivity. Qed.

(** C2 does not hold of the code: a component that reaches the right
    and bottom edges and starts at column and row 2 gets a box of the
    full width and height placed at (1,1), which ends one pixel
    outside the raster. *)
Theorem findSprites_box_leaves_raster :
  cv_width cornerRaster = 10 /\ cv_height cornerRaster = 10 /\
  detectBoxes 10 10 (cv_data cornerRaster) = [mkBox 1 1 10 10] /\
  findSprites cornerRaster = Ok [mkBox 1 1 10 10] /\
  ~ (box_x (mkBox 1 1 10 10) + box_width (mkBox 1 1 10 10)
     <= cv_width cornerRaster) /\
  ~ (box_y (mkBox 1 1 10 10) + box_height (mkBox 1 1 10 10)
     <= cv_height cornerRaster).
Proof.
  split; [reflexivity|]. split; [reflexivity|].
  split; [vm_compute; reflexivity|].
  split; [vm_compute; reflexivity|].
  split; vm_compute; intros H; apply H; reflexivity.
Qed.

Section FillInvariant.

Variables (width height : Z) (data : list Z).

Lemma visitNeighbor_inRaster stack visited n :
  Forall (inRaster width height) stack ->
  Forall (inRaster width height)
    (visitNeighbor width height data (stack, visited) n).1.
Proof.
  intros Hs. destruct n as [nx ny]. unfold visitNeighbor.
  destruct ((0 <=? nx) && (nx <? width) && (0 <=? ny) && (ny <? height))
    eqn:Hb; [|done].
  destruct (visited !! Z.to_nat (ny * width + nx)) as [[| |]|]; try done.
  destruct (negb (isTransparent data (getIndex width nx ny))); [|done].
  simpl. constructor; [|done].
  rewrite !andb_true_iff, !Z.leb_le, !Z.ltb_lt in Hb.
  unfold inRaster. simpl. lia.
Qed.

Lemma visitNeighbors_inRaster ns stack visited :
  Forall (inRaster width height) stack ->
  Forall (inRaster width height)
    (foldl (visitNeighbor width height data) (stack, visited) ns).1.
Proof.
  revert stack visited.
  induction ns as [|n ns IH]; intros stack visited Hs; cbn [foldl]; [done|].
  pose proof (visitNeighbor_inRaster stack visited n Hs) as H.
  destruct (visitNeighbor width height data (stack, visited) n)
    as [stack' visited'].
  by apply IH.
Qed.

Lemma fillStep_inv st x y rest :
  fillInv width height st -> f_stack st = (x, y) :: rest ->
  fillInv width height (fillStep width height data st x y rest).
Proof.
  intros (Hx & Hxw & Hy & Hyh & Hs) E. rewrite E in Hs.
  apply Forall_cons in Hs as [[Hpx Hpy] Hrest]. simpl in Hpx, Hpy.
  unfold fillStep.
  pose proof (visitNeighbors_inRaster
                [(x + 1, y); (x - 1, y); (x, y + 1); (x, y - 1)]
                rest (f_visited st) Hrest) as Hst.
  destruct (foldl _ _ _) as [stack visited].
  unfold fillInv. simpl.
  destruct (Z.ltb_spec x (f_minX st)), (Z.gtb_spec x (f_maxX st)),
    (Z.ltb_spec y (f_minY st)), (Z.gtb_spec y (f_maxY st));
    repeat split; try lia; exact Hst.
Qed.

Lemma fillLoop_inv fuel st :
  fillInv width height st ->
  fillInv width height (fillLoop width height data fuel st).
Proof.
  revert st. induction fuel as [|fuel IH]; intros st Hinv; simpl; [done|].
  destruct (f_stack st) as [|[x y] rest] eqn:E; [done|].
  by apply IH, fillStep_inv.
Qed.

(** A box returned by [floodFill] for a start inside the raster. *)
Lemma floodFill_box visited startX startY b :
  0 <= startX < width -> 0 <= startY < height ->
  (floodFill width height data visited startX startY).1 = Some b ->
  detectedBox width height b.
Proof.
  intros Hx Hy. unfold floodFill.
  match goal with |- context [fillLoop _ _ _ ?n ?st0] =>
    pose proof (fillLoop_inv n st0) as Hinv end.
  destruct Hinv as (Hix & Hixw & Hiy & Hiyh & _).
  { unfold fillInv. simpl. repeat split; try lia.
    constructor; [|constructor]. unfold inRaster. simpl. lia. }
  simpl. destruct (_ <? 50); [done|]. intros [= <-].
  pose proof (detectionBox_bounds width height _ _ _ _ Hix Hixw Hiy Hiyh)
    as H.
  unfold detectedBox. simpl in H. tauto.
Qed.

Lemma scanPixel_boxes y acc x :
  0 <= x < width -> 0 <= y < height ->
  Forall (detectedBox width height) acc.2 ->
  Forall (detectedBox width height)
    (scanPixel width height data y acc x).2.
Proof.
  intros Hx Hy Hacc. destruct acc as [visited boxes]. unfold scanPixel.
  destruct (visited !! Z.to_nat (y * width + x)) as [[| |]|]; try done.
  destruct (negb (isTransparent data (getIndex width x y))); [|done].
  pose proof (floodFill_box visited x y) as Hbox.
  destruct (floodFill width height data visited x y) as [[b|] visited'];
    [|done].
  simpl in *. apply Forall_app. split; [done|].
  constructor; [|constructor]. by apply Hbox.
Qed.

Lemma scanRow_boxes y xs acc :
  0 <= y < height -> Forall (fun x => 0 <= x < width) xs ->
  Forall (detectedBox width height) acc.2 ->
  Forall (detectedBox width height)
    (foldl (scanPixel width height data y) acc xs).2.
Proof.
  intros Hy Hxs. revert acc.
  induction Hxs as [|x xs Hx _ IH]; intros acc Hacc; cbn [foldl]; [done|].
  by apply IH, scanPixel_boxes.
Qed.

Lemma scanRows_boxes ys acc :
  Forall (fun y => 0 <= y < height) ys ->
  Forall (detectedBox width height) acc.2 ->
  Forall (detectedBox width height)
    (foldl (fun acc y =>
              foldl (scanPixel width height data y) acc (seqZ 0 width))
           acc ys).2.
Proof.
  assert (Forall (fun x => 0 <= x < width) (seqZ 0 width)) as Hxs.
  { apply list.Forall_forall. intros x Hx%elem_of_seqZ. lia. }
  intros Hys. revert acc.
  induction Hys as [|y ys Hy _ IH]; intros acc Hacc; cbn [foldl]; [done|].
  by apply IH, scanRow_boxes.
Qed.

(** Every box pushed by the scan of [findSprites] starts inside the
    raster and is no larger than it; its right and bottom ends are
    bounded only up to one pixel past the edge. *)
Lemma detectBoxes_bounds :
  Forall (detectedBox width height) (detectBoxes width height data).
Proof.
  unfold detectBoxes. apply scanRows_boxes.
  - apply list.Forall_forall. intros y Hy%elem_of_seqZ. lia.
  - constructor.
Qed.

End FillInvariant.

(** ** Cropping *)

Lemma cropImage_Ok Blob tempContext toBlob src box settings blob :
  cropImage Blob tempContext toBlob src box settings = Ok blob <->
  tempContext = true /\ toBlob (cropCanvas src box settings) = Some blob.
Proof.
  unfold cropImage. destruct tempContext.
  - destruct (toBlob _); split; intros H; try done.
    + by injection H as ->.
    + destruct H as [_ H]. by injection H as ->.
    + by destruct H.
  - split; [done|]. by intros [? _].
Qed.

Lemma cropImage_Throw Blob tempContext toBlob src box settings msg :
  cropImage Blob tempContext toBlob src box settings = Throw msg <->
  (tempContext = false /\ msg = "No context"%string) \/
  (tempContext = true /\ toBlob (cropCanvas src box settings) = None /\
   msg = "Crop failed"%string).
Proof.
  unfold cropImage. destruct tempContext.
  - destruct (toBlob _); split; intros H; try done.
    + by destruct H as [[? _]|(_ & ? & _)].
    + injection H as <-. by right.
    + by destruct H as [[? _]|(_ & _ & ->)].
  - split; intros H.
    + injection H as <-. by left.
    + by destruct H as [[_ ->]|[? _]].
Qed.

(** In verbatim mode the canvas is the box plus a margin of 2 on each
    side and the box is drawn unscaled at (2,2). *)
Lemma cropCanvas_verbatim src box settings :
  set_homogenize settings = false ->
  cropCanvas src box settings
  = mkTemp (box_width box + 4) (box_height box + 4) true "low"
      (mkDraw src (box_x box) (box_y box) (box_width box) (box_height box)
         2 2 (inject_Z (box_width box)) (inject_Z (box_height box))).
Proof. intros H. unfold cropCanvas. by rewrite H. Qed.

(** The homogenised sample of the specification: a 100 by 50 box,
    target size 512, padding 10 percent. *)
Example cropCanvas_homogenized_sample :
  let out := cropCanvas plainRaster (mkBox 0 0 100 50)
               (mkSettings false 20 512 10 true) in
  tc_width out = 512 /\ tc_height out = 512 /\
  (di_dx (tc_draw out) == 51)%Q /\ (di_dy (tc_draw out) == 307 # 2)%Q /\
  (di_dWidth (tc_draw out) == 410)%Q /\ (di_dHeight (tc_draw out) == 205)%Q.
Proof. repeat split. Qed.

(** C3, as stated, fails: the output for a 30 by 40 box is 44 pixels
    high, not 38. *)
Lemma cropImage_verbatim_not_34x38 :
  exists out,
    cropImage TempCanvas true Some plainRaster (mkBox 5 5 30 40) verbatim
    = Ok out /\
    ~ (tc_width out = 34 /\ tc_height out = 38).
Proof.
  eexists. split; [reflexivity|].
  intros [_ H]. discriminate H.
Qed.

(** C3, amended: in verbatim mode, [cropImage] applied to a box of
    width 30 and height 40 produces an output raster of exactly 34 by
    44 pixels, with the pixels of the source box copied unscaled
    starting at offset (2,2). *)
Theorem cropImage_verbatim_30x40
    Blob tempContext toBlob src box settings blob :
  set_homogenize settings = false ->
  box_width box = 30 -> box_height box = 40 ->
  cropImage Blob tempContext toBlob src box settings = Ok blob ->
  exists out,
    toBlob out = Some blob /\
    tc_width out = 34 /\ tc_height out = 44 /\
    tc_draw out = mkDraw src (box_x box) (box_y box) 30 40 2 2 30 40.
Proof.
  intros Hh Hw Hht [_ Hb]%cropImage_Ok.
  rewrite (cropCanvas_verbatim _ _ _ Hh), Hw, Hht in Hb.
  eexists. split; [exact Hb|]. done.
Qed.

Lemma cropImage_verbatim_30x40_witness :
  exists out : TempCanvas,
    Some out = Some (cropCanvas plainRaster (mkBox 5 5 30 40) verbatim) /\
    tc_width out = 34 /\ tc_height out = 44 /\
    tc_draw out = mkDraw plainRaster 5 5 30 40 2 2 30 40.
Proof.
  exact (cropImage_verbatim_30x40 TempCanvas true Some plainRaster
           (mkBox 5 5 30 40) verbatim
           (cropCanvas plainRaster (mkBox 5 5 30 40) verbatim)
           eq_refl eq_refl eq_refl eq_refl).
Defined.

(** ** A processing run *)

Section Process.

Context {Blob : Type}.
Variables (tempContext : bool) (toBlob : TempCanvas -> option Blob)
          (now : nat -> Z).

Lemma promiseAll_Throw {A} (rs : list (Result A)) i msg :
  rs !! i = Some (Throw msg) -> exists msg', promiseAll rs = Throw msg'.
Proof.
  revert i. induction rs as [|r rs IH]; intros [|i] H; try done.
  - injection H as ->. by eexists.
  - destruct r as [a|m]; simpl; [|by eexists].
    destruct (IH i H) as [msg' ->]. by eexists.
Qed.

Lemma promiseAll_Ok {A} (rs : list (Result A)) l :
  promiseAll rs = Ok l -> Forall2 (fun r a => r = Ok a) rs l.
Proof.
  revert l. induction rs as [|r rs IH]; intros l; simpl.
  - intros [= <-]. constructor.
  - destruct r as [a|m]; [|done].
    destruct (promiseAll rs) as [l'|]; [|done].
    intros [= <-]. constructor; auto.
Qed.

Lemma makeAsset_Throw canvas settings index box msg :
  cropImage Blob tempContext toBlob canvas box settings = Throw msg ->
  makeAsset Blob tempContext toBlob now canvas settings index box
  = Throw msg.
Proof. intros H. unfold makeAsset. by rewrite H. Qed.

Lemma makeAsset_Ok canvas settings index box a :
  makeAsset Blob tempContext toBlob now canvas settings index box = Ok a ->
  a_status Blob a = pending /\ a_box Blob a = box.
Proof.
  unfold makeAsset. destruct (cropImage _ _ _ _ _ _); [|done].
  by intros [= <-].
Qed.

(** Where a run does produce assets, each of them is pending. *)
Lemma process_assets_pending image settings st st' assets :
  process Blob tempContext toBlob now image settings st
  = (st', Some assets) ->
  app_assets Blob st' = assets /\
  Forall (fun a => a_status Blob a = pending) assets.
Proof.
  unfold process. destruct (cv_context image); [|done].
  destruct (findSprites _) as [[|b boxes]|]; try done.
  destruct (promiseAll _) as [l|] eqn:E; [|done].
  intros [= <- <-]. split; [done|].
  apply promiseAll_Ok in E.
  apply list.Forall_forall. intros a Ha.
  apply list_elem_of_lookup in Ha as [k Hk].
  destruct (Forall2_lookup_r _ _ _ _ _ E Hk) as (r & Hr & ->).
  apply list_lookup_imap_Some in Hr as (box & _ & Hr).
  symmetry in Hr. by apply makeAsset_Ok in Hr as [? _].
Qed.

(** An encoding failure of any one sprite sends the whole run to the
    [catch] block. *)
Lemma process_crop_failure image settings st boxes i box msg :
  cv_context image = true ->
  findSprites (preparedCanvas image settings) = Ok boxes ->
  boxes !! i = Some box ->
  cropImage Blob tempContext toBlob (preparedCanvas image settings)
    box settings = Throw msg ->
  process Blob tempContext toBlob now image settings st
  = (processFailed Blob st, None).
Proof.
  intros Hctx Hfind Hbox Hcrop. unfold process. rewrite Hctx, Hfind.
  destruct boxes as [|b boxes]; [done|].
  destruct (promiseAll_Throw
    (imap (makeAsset Blob tempContext toBlob now
             (preparedCanvas image settings) settings) (b :: boxes)) i msg)
    as [msg' ->]; [|done].
  rewrite list_lookup_imap, Hbox. simpl.
  by rewrite (makeAsset_Throw _ _ _ _ msg).
Qed.

Lemma makeAsset_id canvas settings index box a :
  makeAsset Blob tempContext toBlob now canvas settings index box = Ok a ->
  a_id Blob a = (index, now index).
Proof.
  unfold makeAsset. destruct (cropImage _ _ _ _ _ _); [|done].
  by intros [= <-].
Qed.

(** The identifiers given by a run are pairwise different. *)
Lemma process_ids_distinct image settings st st' assets :
  process Blob tempContext toBlob now image settings st
  = (st', Some assets) ->
  NoDup (a_id Blob <$> assets).
Proof.
  unfold process. destruct (cv_context image); [|done].
  destruct (findSprites _) as [[|b boxes]|]; try done.
  destruct (promiseAll _) as [l|] eqn:E; [|done].
  intros [= <- <-]. apply promiseAll_Ok in E.
  assert (forall k a, l !! k = Some a -> (a_id Blob a).1 = k) as Hk.
  { intros k a Ha.
    destruct (Forall2_lookup_r _ _ _ _ _ E Ha) as (r & Hr & ->).
    apply list_lookup_imap_Some in Hr as (box & _ & Hr).
    symmetry in Hr. apply makeAsset_id in Hr. by rewrite Hr. }
  apply NoDup_alt. intros i j id Hi Hj.
  rewrite list_lookup_fmap in Hi, Hj.
  destruct (l !! i) as [a|] eqn:Ea; [|done].
  destruct (l !! j) as [a'|] eqn:Ea'; [|done].
  simpl in Hi, Hj. injection Hi as <-. injection Hj as Hj.
  rewrite <- (Hk i a Ea), <- (Hk j a' Ea'). by rewrite Hj.
Qed.

(** A run that does not hand assets to the naming queue leaves the
    asset list as it was. *)
Lemma process_no_assets image settings st st' :
  process Blob tempContext toBlob now image settings st = (st', None) ->
  app_assets Blob st' = app_assets Blob st.
Proof.
  unfold process. destruct (cv_context image); [|by intros [= <-]].
  destruct (findSprites _) as [[|b boxes]|]; try by intros [= <-].
  destruct (promiseAll _) as [l|]; [done|by intros [= <-]].
Qed.

End Process.

(** C4, as stated, fails: with two sprites detected and the encoding
    of the first one failing, the run ends with no sprite at all; the
    second sprite is not produced and nothing is marked [error]. *)
Lemma encoding_failure_not_isolated :
  findSprites (preparedCanvas twoSquares verbatim)
  = Ok [mkBox 1 1 9 10; mkBox 12 1 9 10] /\
  cropImage TempCanvas true failsOnFirst
    (preparedCanvas twoSquares verbatim) (mkBox 1 1 9 10) verbatim
  = Throw "Crop failed" /\
  (exists blob,
     cropImage TempCanvas true failsOnFirst
       (preparedCanvas twoSquares verbatim) (mkBox 12 1 9 10) verbatim
     = Ok blob) /\
  ~ failureIsolated [mkBox 1 1 9 10; mkBox 12 1 9 10]
      (fun box => negb (box_x box =? 1))
      (app_assets TempCanvas
         (runPipeline TempCanvas true failsOnFirst (fun _ => 0)
            (fun _ => MissingKey) (fun batch => batch)
            twoSquares verbatim (initialState TempCanvas))).
Proof.
  split; [exact findSprites_twoSquares|].
  split; [reflexivity|]. split; [eexists; reflexivity|].
  intros H.
  destruct (H (mkBox 12 1 9 10)) as (a & Ha & _).
  - apply list_elem_of_lookup. by exists 1%nat.
  - vm_compute in Ha. by apply elem_of_nil in Ha.
Qed.

(** C4, amended: when the encoding of the output image of one sprite
    fails, the whole run is abandoned: no sprite of the run is
    produced or marked [error], the asset list is left as it was, the
    failure is reported to the user and the application returns to
    the upload step. *)
Theorem runPipeline_encoding_failure
    Blob tempContext toBlob now respond completion
    image settings st boxes i box msg :
  cv_context image = true ->
  findSprites (preparedCanvas image settings) = Ok boxes ->
  boxes !! i = Some box ->
  cropImage Blob tempContext toBlob (preparedCanvas image settings)
    box settings = Throw msg ->
  app_step Blob
    (runPipeline Blob tempContext toBlob now respond completion
       image settings st) = UPLOAD /\
  app_assets Blob
    (runPipeline Blob tempContext toBlob now respond completion
       image settings st) = app_assets Blob st /\
  app_alerts Blob
    (runPipeline Blob tempContext toBlob now respond completion
       image settings st)
  = app_alerts Blob st
    ++ ["Failed to process image. See console for details."%string].
Proof.
  intros Hctx Hfind Hbox Hcrop. unfold runPipeline.
  by rewrite (process_crop_failure tempContext toBlob now image settings st
                boxes i box msg).
Qed.

Lemma runPipeline_encoding_failure_witness :
  app_step TempCanvas
    (runPipeline TempCanvas true failsOnFirst (fun _ => 0)
       (fun _ => MissingKey) (fun batch => batch)
       twoSquares verbatim (initialState TempCanvas)) = UPLOAD /\
  app_assets TempCanvas
    (runPipeline TempCanvas true failsOnFirst (fun _ => 0)
       (fun _ => MissingKey) (fun batch => batch)
       twoSquares verbatim (initialState TempCanvas)) = [] /\
  app_alerts TempCanvas
    (runPipeline TempCanvas true failsOnFirst (fun _ => 0)
       (fun _ => MissingKey) (fun batch => batch)
       twoSquares verbatim (initialState TempCanvas))
  = ["Failed to process image. See console for details."%string].
Proof.
  apply (runPipeline_encoding_failure TempCanvas true failsOnFirst
           (fun _ => 0) (fun _ => MissingKey) (fun batch => batch)
           twoSquares verbatim (initialState TempCanvas)
           [mkBox 1 1 9 10; mkBox 12 1 9 10] 0 (mkBox 1 1 9 10)
           "Crop failed").
  - reflexivity.
  - vm_compute. reflexivity.
  - reflexivity.
  - reflexivity.
Defined.

(** ** The naming queue *)

Lemma identifyAsset_failed outcome :
  collaboratorFailed outcome -> identifyAsset outcome = unknown_item.
Proof.
  destruct outcome as [| | |[t|]]; try done.
  simpl. by intros ->.
Qed.

Section Naming.

Context {Blob : Type}.
Variables (respond : Asset Blob -> ApiOutcome)
          (completion : list (Asset Blob) -> list (Asset Blob)).
Hypothesis completion_perm : forall batch, completion batch ≡ₚ batch.

(** An entry that is left as it is. *)
Ltac entry_unchanged e :=
  exists e; split; [done|]; split; [done|];
  rewrite ?drop_ge by lia;
  intros [H|H]; [by apply elem_of_nil in H|done].

Lemma startNaming_lookup st a k e :
  app_assets Blob st !! k = Some e ->
  exists e', app_assets Blob (startNaming Blob st a) !! k = Some e' /\
             a_id Blob e' = a_id Blob e /\
             (a_id Blob e <> a_id Blob a -> e' = e).
Proof.
  intros He. simpl. unfold markNaming. rewrite list_lookup_fmap, He. simpl.
  eexists. split; [done|]. by case_decide.
Qed.

Lemma finishNaming_lookup st a k e :
  app_assets Blob st !! k = Some e ->
  exists e', app_assets Blob (finishNaming Blob respond st a) !! k = Some e' /\
             a_id Blob e' = a_id Blob e /\
             (a_id Blob e <> a_id Blob a -> e' = e) /\
             (a_id Blob e = a_id Blob a -> namedReady (identifyAsset (respond a)) e').
Proof.
  intros He. simpl. unfold markReady. rewrite list_lookup_fmap, He. simpl.
  eexists. split; [done|]. by case_decide.
Qed.

Lemma startNaming_fold batch st k e :
  app_assets Blob st !! k = Some e ->
  exists e', app_assets Blob (foldl (startNaming Blob) st batch) !! k = Some e' /\
             a_id Blob e' = a_id Blob e /\
             ((forall b, b ∈ batch -> a_id Blob e <> a_id Blob b) -> e' = e).
Proof.
  revert st e. induction batch as [|b batch IH]; intros st e He.
  - by exists e.
  - destruct (startNaming_lookup st b k e He) as (e1 & H1 & Hid1 & Hne1).
    destruct (IH _ _ H1) as (e' & H' & Hid' & Hne').
    exists e'. split; [done|]. split; [congruence|].
    intros Hall. rewrite Hne', Hne1; [done| |].
    + apply Hall. left.
    + intros c Hc. rewrite Hid1. apply Hall. by right.
Qed.

Lemma finishNaming_fold done st k e t :
  app_assets Blob st !! k = Some e -> a_id Blob e = a_id Blob t ->
  (forall d, d ∈ done -> a_id Blob d = a_id Blob t -> d = t) ->
  exists e',
    app_assets Blob (foldl (finishNaming Blob respond) st done) !! k = Some e' /\
    a_id Blob e' = a_id Blob t /\
    (t ∈ done \/ namedReady (identifyAsset (respond t)) e -> namedReady (identifyAsset (respond t)) e').
Proof.
  revert st e. induction done as [|d done IH]; intros st e He Hid Hinj.
  - entry_unchanged e.
  - destruct (finishNaming_lookup st d k e He) as (e1 & H1 & Hid1 & Hne1 & Heq1).
    destruct (IH _ _ H1) as (e' & H' & Hid' & Hdone').
    { congruence. }
    { intros c Hc. apply Hinj. by right. }
    exists e'. split; [done|]. split; [done|].
    intros Hor. apply Hdone'.
    destruct (decide (a_id Blob d = a_id Blob t)) as [Hd|Hd].
    + right. rewrite <- (Hinj d) by (done || left). apply Heq1. congruence.
    + rewrite Hne1 by congruence.
      destruct Hor as [[->|Ht]%elem_of_cons|Hr]; [done|by left|by right].
Qed.

Lemma asset_id_inj (currentAssets : list (Asset Blob)) a b :
  NoDup (a_id Blob <$> currentAssets) ->
  a ∈ currentAssets -> b ∈ currentAssets ->
  a_id Blob a = a_id Blob b -> a = b.
Proof.
  intros Hnd [i Hi]%list_elem_of_lookup [j Hj]%list_elem_of_lookup Hid.
  assert (i = j) as ->; [|congruence].
  apply (NoDup_lookup _ i j (a_id Blob a) Hnd).
  - by rewrite list_lookup_fmap, Hi.
  - by rewrite list_lookup_fmap, Hj, Hid.
Qed.

Section Queue.

Variable currentAssets : list (Asset Blob).
Hypothesis ids_distinct : NoDup (a_id Blob <$> currentAssets).
Variable t : Asset Blob.
Hypothesis t_listed : t ∈ currentAssets.

(** A batch makes the entries of [t] ready under its name if [t]
    is in the batch, and leaves them ready if they were. *)
Lemma runBatch_entry batch st k e :
  (forall b, b ∈ batch -> b ∈ currentAssets) ->
  app_assets Blob st !! k = Some e -> a_id Blob e = a_id Blob t ->
  exists e',
    app_assets Blob (runBatch Blob respond completion batch st) !! k
    = Some e' /\
    a_id Blob e' = a_id Blob t /\
    (t ∈ batch \/ namedReady (identifyAsset (respond t)) e -> namedReady (identifyAsset (respond t)) e').
Proof.
  intros Hsub He Hid. unfold runBatch.
  destruct (startNaming_fold batch st k e He) as (e1 & H1 & Hid1 & Hne1).
  destruct (finishNaming_fold (completion batch) _ k e1 t H1)
    as (e' & H' & Hid' & Hdone'); [congruence| |].
  { intros d Hd Hdt. apply (asset_id_inj currentAssets); auto.
    apply Hsub. by rewrite <- (completion_perm batch). }
  exists e'. split; [done|]. split; [done|].
  intros Hor. apply Hdone'.
  destruct (decide (a_id Blob t ∈ a_id Blob <$> batch)) as [Hin|Hout].
  - left. rewrite (completion_perm batch).
    apply list_elem_of_fmap in Hin as (b & Hb & Hbin).
    by rewrite (asset_id_inj currentAssets t b) by auto.
  - assert (t ∉ batch) as Hnt.
    { intros Ht. apply Hout, list_elem_of_fmap. eauto. }
    destruct Hor as [Ht|Hr]; [done|]. right.
    rewrite Hne1; [done|].
    intros b Hb Hbid. apply Hout, list_elem_of_fmap.
    exists b. split; [congruence|done].
Qed.

Lemma queueLoop_entry fuel i st k e :
  (length currentAssets <= i + 3 * fuel)%nat ->
  app_assets Blob st !! k = Some e -> a_id Blob e = a_id Blob t ->
  exists e',
    app_assets Blob
      (queueLoop Blob respond completion fuel i currentAssets st) !! k
    = Some e' /\
    a_id Blob e' = a_id Blob t /\
    (t ∈ drop i currentAssets \/ namedReady (identifyAsset (respond t)) e ->
     namedReady (identifyAsset (respond t)) e').
Proof.
  revert i st e.
  induction fuel as [|fuel IH]; intros i st e Hlen He Hid;
    cbn [queueLoop].
  - entry_unchanged e.
  - destruct (Nat.ltb_spec i (length currentAssets)) as [Hlt|Hge].
    + destruct (runBatch_entry (take 3 (drop i currentAssets)) st k e)
        as (e1 & H1 & Hid1 & Hdone1); [|done|done|].
      { intros b Hb. by apply (subseteq_drop i), (subseteq_take 3). }
      destruct (IH (i + 3)%nat _ e1 ltac:(lia) H1 Hid1)
        as (e' & H' & Hid' & Hdone').
      exists e'. split; [done|]. split; [done|].
      intros Hor. apply Hdone'.
      destruct Hor as [Ht|Hr]; [|right; auto].
      rewrite <- (take_drop 3 (drop i currentAssets)) in Ht.
      apply elem_of_app in Ht as [Ht|Ht]; [right; auto|left].
      by rewrite drop_drop in Ht.
    + entry_unchanged e.
Qed.

End Queue.

Lemma runBatch_length batch st :
  length (app_assets Blob (runBatch Blob respond completion batch st))
  = length (app_assets Blob st).
Proof.
  unfold runBatch.
  assert (forall l st', length (app_assets Blob
            (foldl (finishNaming Blob respond) st' l))
          = length (app_assets Blob st')) as Hf.
  { induction l as [|a l IH]; intros st'; simpl; [done|].
    rewrite IH. simpl. unfold markReady. by rewrite length_fmap. }
  assert (forall l st', length (app_assets Blob
            (foldl (startNaming Blob) st' l))
          = length (app_assets Blob st')) as Hs.
  { induction l as [|a l IH]; intros st'; simpl; [done|].
    rewrite IH. simpl. unfold markNaming. by rewrite length_fmap. }
  by rewrite Hf, Hs.
Qed.

Lemma queueLoop_length fuel i currentAssets st :
  length (app_assets Blob
            (queueLoop Blob respond completion fuel i currentAssets st))
  = length (app_assets Blob st).
Proof.
  revert i st. induction fuel as [|fuel IH]; intros i st; simpl; [done|].
  destruct (i <? length currentAssets)%nat; [|done].
  by rewrite IH, runBatch_length.
Qed.

(** [length currentAssets] iterations are enough for the batches. *)
Lemma queueLoop_fuel fuel extra i currentAssets st :
  (length currentAssets <= i + 3 * fuel)%nat ->
  queueLoop Blob respond completion (fuel + extra) i currentAssets st
  = queueLoop Blob respond completion fuel i currentAssets st.
Proof.
  revert i st. induction fuel as [|fuel IH]; intros i st Hlen.
  - destruct extra as [|extra]; [done|]. cbn [Nat.add queueLoop].
    by destruct (Nat.ltb_spec i (length currentAssets)); [lia|].
  - cbn [Nat.add queueLoop].
    destruct (Nat.ltb_spec i (length currentAssets)); [|done].
    apply IH. lia.
Qed.

End Naming.

(** After a run that produced sprites, every sprite is ready. *)
Lemma runPipeline_all_ready
    Blob tempContext toBlob now respond completion
    image settings st st' assets :
  (forall batch, completion batch ≡ₚ batch) ->
  process Blob tempContext toBlob now image settings st
  = (st', Some assets) ->
  Forall (fun a => a_status Blob a = ready)
    (app_assets Blob
       (runPipeline Blob tempContext toBlob now respond completion
          image settings st)).
Proof.
  intros Hperm Hproc. unfold runPipeline. rewrite Hproc.
  pose proof (process_ids_distinct _ _ _ _ _ _ _ _ Hproc) as Hnd.
  apply process_assets_pending in Hproc as [Hassets _].
  apply list.Forall_forall. intros a [k Hk]%list_elem_of_lookup.
  assert (is_Some (assets !! k)) as [e He].
  { apply lookup_lt_is_Some. apply lookup_lt_Some in Hk.
    unfold queueAiNaming in Hk. rewrite queueLoop_length in Hk.
    by rewrite <- Hassets. }
  destruct (queueLoop_entry respond completion Hperm assets Hnd e
              (list_elem_of_lookup_2 _ _ _ He)
              (length assets) 0 st' k e)
    as (e' & He' & _ & Hdone); [lia|by rewrite Hassets|done|].
  unfold queueAiNaming in Hk. rewrite Hk in He'. injection He' as <-.
  destruct Hdone as [Hr _]; [|done].
  left. rewrite drop_0. by eapply list_elem_of_lookup_2.
Qed.

(** X20: no run gives a sprite the [error] status: if no asset of the
    state is in error before [process] and the naming it starts, none
    is afterwards, whether the run fails, finds nothing or succeeds. *)
Lemma runPipeline_no_error
    Blob tempContext toBlob now respond completion image settings st :
  (forall batch, completion batch ≡ₚ batch) ->
  Forall (fun a => a_status Blob a <> error) (app_assets Blob st) ->
  Forall (fun a => a_status Blob a <> error)
    (app_assets Blob
       (runPipeline Blob tempContext toBlob now respond completion
          image settings st)).
Proof.
  intros Hperm Hst.
  destruct (process Blob tempContext toBlob now image settings st)
    as [st' [assets|]] eqn:E.
  - eapply Forall_impl.
    + by eapply runPipeline_all_ready.
    + intros a Ha. simpl in Ha. by rewrite Ha.
  - unfold runPipeline. rewrite E.
    by rewrite (process_no_assets _ _ _ _ _ _ _ E).
Qed.

(** C8: when the collaborator call for a sprite fails (it throws,
    rejects or returns no text), [identifyAsset] returns the fallback
    name [unknown_item] instead of an error, and the naming queue
    still brings that sprite, like every other sprite of the run, to
    the [ready] status under the name [identifyAsset] returned, in
    whatever order the requests of a batch complete. *)
Theorem queueAiNaming_failure_fallback
    Blob (respond : Asset Blob -> ApiOutcome)
    (completion : list (Asset Blob) -> list (Asset Blob))
    (currentAssets : list (Asset Blob)) (st : AppState Blob) :
  (forall batch, completion batch ≡ₚ batch) ->
  NoDup (a_id Blob <$> currentAssets) ->
  (forall outcome,
     collaboratorFailed outcome -> identifyAsset outcome = unknown_item) /\
  (forall asset k e,
     asset ∈ currentAssets ->
     app_assets Blob st !! k = Some e -> a_id Blob e = a_id Blob asset ->
     exists e',
       app_assets Blob
         (queueAiNaming Blob respond completion currentAssets st) !! k
       = Some e' /\
       a_id Blob e' = a_id Blob asset /\
       namedReady (identifyAsset (respond asset)) e' /\
       (collaboratorFailed (respond asset) -> namedReady unknown_item e')).
Proof.
  intros Hperm Hnd. split; [exact identifyAsset_failed|].
  intros asset k e Hin He Hid.
  destruct (queueLoop_entry respond completion Hperm currentAssets Hnd
              asset Hin (length currentAssets) 0 st k e)
    as (e' & He' & Hid' & Hdone); [lia|done|done|].
  exists e'. split; [exact He'|]. split; [done|].
  assert (namedReady (identifyAsset (respond asset)) e') as Hready.
  { apply Hdone. left. by rewrite drop_0. }
  split; [done|].
  intros Hfail. by rewrite <- (identifyAsset_failed _ Hfail).
Qed.

Lemma queueAiNaming_failure_fallback_witness :
  (forall batch : list (Asset unit), reverse batch ≡ₚ batch) /\
  NoDup (a_id unit <$> sampleAssets) /\
  collaboratorFailed (sampleRespond (sampleAsset 1)) /\
  exists e',
    app_assets unit
      (queueAiNaming unit sampleRespond reverse sampleAssets
         (mkApp unit REVIEW sampleAssets 0 [])) !! 1%nat = Some e' /\
    namedReady unknown_item e'.
Proof.
  assert (NoDup (a_id unit <$> sampleAssets)) as Hnd.
  { apply (bool_decide_unpack (NoDup (a_id unit <$> sampleAssets))).
    vm_compute. exact I. }
  split; [exact reverse_Permutation|]. split; [exact Hnd|].
  split; [exact I|].
  destruct (queueAiNaming_failure_fallback unit sampleRespond reverse
              sampleAssets (mkApp unit REVIEW sampleAssets 0 [])
              reverse_Permutation Hnd) as [_ H].
  destruct (H (sampleAsset 1) 1%nat (sampleAsset 1)) as (e' & He' & _ & _ & Hf).
  - apply list_elem_of_lookup. by exists 1%nat.
  - reflexivity.
  - reflexivity.
  - exists e'. split; [exact He'|]. apply Hf. exact I.
Defined.

Example queueAiNaming_sample :
  (fun a => (a_finalName unit a, a_status unit a)) <$>
    app_assets unit
      (queueAiNaming unit sampleRespond reverse sampleAssets
         (mkApp unit REVIEW sampleAssets 0 []))
  = [(jsString "iron_sword", ready); (unknown_item, ready);
     (jsString "iron_sword", ready); (jsString "iron_sword", ready)].
Proof. vm_compute. reflexivity. Qed.

(** * Further properties of the code *)

(** ** Box merging *)

Lemma mergeSteps_length l l' :
  rtc mergeStep l l' -> (length l' <= length l)%nat /\ (l <> [] -> l' <> []).
Proof.
  induction 1 as [l|l mid l' Hstep _ [IHlen IHne]]; [done|].
  pose proof (mergeStep_length _ _ Hstep) as Hlen.
  split; [lia|]. intros _. apply IHne.
  destruct Hstep as [i j b1 b2 Hlt H1 H2 _].
  intros Hnil. apply (f_equal length) in Hnil.
  apply lookup_lt_Some in H2.
  assert (is_Some (<[i:=mergedBox b1 b2]> l !! j)) as Hs.
  { apply lookup_lt_is_Some. rewrite length_insert. lia. }
  rewrite (length_delete _ _ Hs), length_insert in Hnil. simpl in Hnil. lia.
Qed.

Lemma generated_hull l R g :
  (forall b, b ∈ l -> boxInside b R) -> generated l g -> boxInside g R.
Proof.
  intros Hall. induction 1 as [b Hb|a b _ IHa _ IHb _]; [auto|].
  by apply mergedBox_least.
Qed.

Lemma generated_contains_input l g :
  generated l g -> exists b, b ∈ l /\ boxInside b g.
Proof.
  induction 1 as [b Hb|a b _ (c & Hc & Hca) _ _ _].
  - exists b. auto with boxes.
  - exists c. split; [done|].
    eapply boxInside_trans; [exact Hca|apply mergedBox_inside_l].
Qed.

Lemma generated_positive l g :
  (forall b, b ∈ l -> 0 < box_width b /\ 0 < box_height b) ->
  generated l g -> 0 < box_width g /\ 0 < box_height g.
Proof.
  intros Hall. destruct 1 as [b Hb|a b _ _ Hi]; [auto|].
  apply mergedBox_self_intersect, doBoxesIntersect_true in Hi. lia.
Qed.

(** X1: in the list returned by [mergeOverlappingBoxes] no two boxes
    at different positions intersect. *)
Theorem mergeOverlappingBoxes_pairwise_apart boxes i j b1 b2 :
  i <> j ->
  mergeOverlappingBoxes boxes !! i = Some b1 ->
  mergeOverlappingBoxes boxes !! j = Some b2 ->
  doBoxesIntersect b1 b2 = false.
Proof.
  intros Hij H1 H2.
  pose proof (mergeOverlappingBoxes_noOverlap boxes) as Hno.
  destruct (Nat.lt_trichotomy i j) as [Hlt|[->|Hgt]]; [eauto|done|].
  rewrite doBoxesIntersect_sym. eauto.
Qed.

Lemma mergeOverlappingBoxes_pairwise_apart_witness :
  0%nat <> 1%nat /\
  mergeOverlappingBoxes [sq10; sq150; sq25] !! 0%nat = Some (mkBox 9 9 37 37) /\
  mergeOverlappingBoxes [sq10; sq150; sq25] !! 1%nat = Some sq150 /\
  doBoxesIntersect (mkBox 9 9 37 37) sq150 = false.
Proof.
  split; [lia|]. split; [reflexivity|]. split; [reflexivity|].
  apply (mergeOverlappingBoxes_pairwise_apart [sq10; sq150; sq25] 0 1);
    [lia|reflexivity|reflexivity].
Defined.

(** X2: [mergeOverlappingBoxes] returns its input unchanged, as a
    list, exactly when no two boxes of the input intersect. *)
Theorem mergeOverlappingBoxes_unchanged_iff boxes :
  mergeOverlappingBoxes boxes = boxes <-> noOverlap boxes.
Proof.
  split.
  - intros H. rewrite <- H. apply mergeOverlappingBoxes_noOverlap.
  - intros H. apply mergeLoop_fixed, mergePass_None, H.
Qed.

(** X3: merging never lengthens the list and never empties a list
    that was not empty. *)
Theorem mergeOverlappingBoxes_length boxes :
  (length (mergeOverlappingBoxes boxes) <= length boxes)%nat /\
  (boxes <> [] -> mergeOverlappingBoxes boxes <> []).
Proof. apply mergeSteps_length, mergeLoop_steps. Qed.

(** X4: every box of the result contains a box of the input, and lies
    inside every box that contains all the boxes of the input: merging
    invents no region and never reaches past the hull of the input. *)
Theorem mergeOverlappingBoxes_within_hull boxes R g :
  (forall b, b ∈ boxes -> boxInside b R) ->
  g ∈ mergeOverlappingBoxes boxes ->
  boxInside g R /\ exists b, b ∈ boxes /\ boxInside b g.
Proof.
  intros Hall Hg.
  destruct (mergeOverlappingBoxes_closure boxes) as [_ _ Hgen].
  split.
  - eapply generated_hull; eauto.
  - by apply generated_contains_input, Hgen.
Qed.

Lemma mergeOverlappingBoxes_within_hull_witness :
  (forall b, b ∈ [barV; barH; blob] -> boxInside b (mkBox 0 0 30 30)) /\
  mkBox 0 0 30 30 ∈ mergeOverlappingBoxes [barV; barH; blob] /\
  boxInside (mkBox 0 0 30 30) (mkBox 0 0 30 30) /\
  exists b, b ∈ [barV; barH; blob] /\ boxInside b (mkBox 0 0 30 30).
Proof.
  assert (forall b, b ∈ [barV; barH; blob] -> boxInside b (mkBox 0 0 30 30))
    as Hall.
  { intros b Hb. repeat (apply elem_of_cons in Hb as [->|Hb]);
      [| | |by apply elem_of_nil in Hb]; unfold boxInside; simpl; lia. }
  assert (mkBox 0 0 30 30 ∈ mergeOverlappingBoxes [barV; barH; blob]) as Hg.
  { apply list_elem_of_lookup. by exists 0%nat. }
  split; [exact Hall|]. split; [exact Hg|].
  exact (mergeOverlappingBoxes_within_hull [barV; barH; blob]
           (mkBox 0 0 30 30) (mkBox 0 0 30 30) Hall Hg).
Defined.

(** X5: if every box of the input has positive width and height, so
    has every box of the result. *)
Theorem mergeOverlappingBoxes_positive boxes g :
  (forall b, b ∈ boxes -> 0 < box_width b /\ 0 < box_height b) ->
  g ∈ mergeOverlappingBoxes boxes ->
  0 < box_width g /\ 0 < box_height g.
Proof.
  intros Hall Hg.
  destruct (mergeOverlappingBoxes_closure boxes) as [_ _ Hgen].
  eapply generated_positive; eauto.
Qed.

Lemma mergeOverlappingBoxes_positive_witness :
  (forall b, b ∈ [sq10; sq25] -> 0 < box_width b /\ 0 < box_height b) /\
  mkBox 9 9 37 37 ∈ mergeOverlappingBoxes [sq10; sq25] /\
  0 < box_width (mkBox 9 9 37 37) /\ 0 < box_height (mkBox 9 9 37 37).
Proof.
  assert (forall b, b ∈ [sq10; sq25] -> 0 < box_width b /\ 0 < box_height b)
    as Hall.
  { intros b Hb. repeat (apply elem_of_cons in Hb as [->|Hb]);
      [| |by apply elem_of_nil in Hb]; simpl; lia. }
  assert (mkBox 9 9 37 37 ∈ mergeOverlappingBoxes [sq10; sq25]) as Hg.
  { apply list_elem_of_lookup. by exists 0%nat. }
  split; [exact Hall|]. split; [exact Hg|].
  exact (mergeOverlappingBoxes_positive [sq10; sq25] (mkBox 9 9 37 37) Hall Hg).
Defined.

(** X6: the scan order does not matter: whatever pairs of intersecting
    boxes are merged, in whatever order, once no two boxes intersect
    the set of boxes is the one [mergeOverlappingBoxes] returns. *)
Theorem mergeOverlappingBoxes_any_order boxes F :
  rtc mergeStep boxes F -> noOverlap F ->
  sameBoxes F (mergeOverlappingBoxes boxes).
Proof.
  intros Hsteps Hno. eapply mergeClosure_unique.
  - destruct (mergeSteps_invariant boxes boxes F Hsteps) as [Habs Hgen].
    + split; [apply absorbs_refl|]. intros f. apply gen_input.
    + split; [by apply noOverlap_separated|done..].
  - apply mergeOverlappingBoxes_closure.
Qed.

Lemma mergeOverlappingBoxes_any_order_witness :
  rtc mergeStep [sq10; sq25; sq40] [mkBox 9 9 52 52] /\
  noOverlap [mkBox 9 9 52 52] /\
  sameBoxes [mkBox 9 9 52 52] (mergeOverlappingBoxes [sq10; sq25; sq40]).
Proof.
  assert (rtc mergeStep [sq10; sq25; sq40] [mkBox 9 9 52 52]) as Hsteps.
  { eapply rtc_l.
    { apply (MergeStep [sq10; sq25; sq40] 1 2 sq25 sq40);
        [lia|reflexivity|reflexivity|reflexivity]. }
    eapply rtc_l; [|apply rtc_refl].
    apply (MergeStep [sq10; mkBox 24 24 37 37] 0 1 sq10 (mkBox 24 24 37 37));
      [lia|reflexivity|reflexivity|reflexivity]. }
  assert (noOverlap [mkBox 9 9 52 52]) as Hno.
  { apply mergePass_None. reflexivity. }
  split; [exact Hsteps|]. split; [exact Hno|].
  exact (mergeOverlappingBoxes_any_order [sq10; sq25; sq40]
           [mkBox 9 9 52 52] Hsteps Hno).
Defined.

(** ** Region detection *)

Lemma pendingPixels_mark data k visited i :
  visited !! i = Some 0 -> opaqueAt data (k + i) = true ->
  S (pendingPixels data k (<[i := 1]> visited)) = pendingPixels data k visited.
Proof.
  revert k i. induction visited as [|v visited IH]; intros k [|i] Hv Ho;
    try done.
  - injection Hv as ->. rewrite Nat.add_0_r in Ho.
    change (<[0%nat:=1]> (0 :: visited)) with (1 :: visited).
    simpl. by rewrite Ho.
  - change (<[S i:=1]> (v :: visited)) with (v :: <[i:=1]> visited).
    simpl. rewrite <- (IH (S k) i Hv); [lia|].
    by replace (S k + i)%nat with (k + S i)%nat by lia.
Qed.

Lemma pendingPixels_all data k n :
  pendingPixels data k (replicate n 0)
  = length (filter (fun idx => opaqueAt data idx = true) (seq k n)).
Proof.
  revert k. induction n as [|n IH]; intros k; simpl; [done|].
  rewrite IH. destruct (opaqueAt data k) eqn:E.
  - by rewrite filter_cons_True.
  - rewrite filter_cons_False; [done|]. by rewrite E.
Qed.

Section FillCount.

Variables (width height : Z) (data : list Z).

(** A push takes its pixel out of the pending ones. *)
Lemma visitNeighbor_pending stack visited n :
  (length (visitNeighbor width height data (stack, visited) n).1
   + pendingPixels data 0 (visitNeighbor width height data (stack, visited) n).2
   = length stack + pendingPixels data 0 visited)%nat.
Proof.
  destruct n as [nx ny]. unfold visitNeighbor.
  destruct ((0 <=? nx) && (nx <? width) && (0 <=? ny) && (ny <? height))
    eqn:Hb; [|done].
  destruct (visited !! Z.to_nat (ny * width + nx)) as [[| |]|] eqn:E;
    try done.
  destruct (negb (isTransparent data (getIndex width nx ny))) eqn:Ho; [|done].
  simpl. rewrite <- (pendingPixels_mark data 0 visited _ E); [lia|].
  rewrite !andb_true_iff, !Z.leb_le, !Z.ltb_lt in Hb.
  unfold opaqueAt. simpl. rewrite Z2Nat.id by nia. exact Ho.
Qed.

Lemma visitNeighbors_pending ns stack visited :
  (length (foldl (visitNeighbor width height data) (stack, visited) ns).1
   + pendingPixels data 0
       (foldl (visitNeighbor width height data) (stack, visited) ns).2
   = length stack + pendingPixels data 0 visited)%nat.
Proof.
  revert stack visited.
  induction ns as [|n ns IH]; intros stack visited; cbn [foldl]; [done|].
  pose proof (visitNeighbor_pending stack visited n) as H.
  destruct (visitNeighbor width height data (stack, visited) n)
    as [stack' visited'].
  simpl in H. rewrite IH. lia.
Qed.

(** The pixels counted, stacked and pending add up to the same number
    throughout the loop. *)
Lemma fillLoop_count fuel st :
  f_pixelCount (fillLoop width height data fuel st)
  + Z.of_nat (length (f_stack (fillLoop width height data fuel st))
              + pendingPixels data 0 (f_visited (fillLoop width height data fuel st)))
  = f_pixelCount st
    + Z.of_nat (length (f_stack st) + pendingPixels data 0 (f_visited st)).
Proof.
  revert st. induction fuel as [|fuel IH]; intros st; simpl; [done|].
  destruct (f_stack st) as [|[x y] rest] eqn:E; [by rewrite E|].
  rewrite IH. unfold fillStep.
  pose proof (visitNeighbors_pending
                [(x + 1, y); (x - 1, y); (x, y + 1); (x, y - 1)]
                rest (f_visited st)) as H.
  destruct (foldl _ _ _) as [stack visited]. simpl in *. lia.
Qed.

(** A fill started on an unvisited opaque pixel counts no more pixels
    than were pending, and takes what it counts out of them. *)
Lemma floodFill_count visited x y :
  0 <= x < width -> 0 <= y < height ->
  visited !! Z.to_nat (y * width + x) = Some 0 ->
  negb (isTransparent data (getIndex width x y)) = true ->
  ((floodFill width height data visited x y).1 <> None ->
   (50 <= pendingPixels data 0 visited)%nat) /\
  (pendingPixels data 0 (floodFill width height data visited x y).2
   <= pendingPixels data 0 visited)%nat.
Proof.
  intros Hx Hy Hv Ho. unfold floodFill.
  match goal with |- context [fillLoop _ _ _ ?n ?st0] =>
    pose proof (fillLoop_count n st0) as Hc;
    set (st := fillLoop width height data n st0) in * end.
  simpl in Hc.
  assert (S (pendingPixels data 0 (<[Z.to_nat (y * width + x):=1]> visited))
          = pendingPixels data 0 visited) as Hmark.
  { apply pendingPixels_mark; [done|].
    unfold opaqueAt. simpl. rewrite Z2Nat.id by nia. exact Ho. }
  assert (0 <= f_pixelCount st) as Hpos.
  { unfold st. clear.
    match goal with |- context [fillLoop _ _ _ ?n ?st0] =>
      assert (0 <= f_pixelCount st0) as H0 by (simpl; lia);
      revert H0; generalize st0; generalize n end.
    intros n. induction n as [|n IH]; intros st0 H0; simpl; [done|].
    destruct (f_stack st0) as [|[x' y'] rest]; [done|].
    apply IH. unfold fillStep. destruct (foldl _ _ _). simpl. lia. }
  simpl. split.
  - destruct (Z.ltb_spec (f_pixelCount st) 50); [done|]. intros _. lia.
  - lia.
Qed.

Lemma scanPixel_few y acc x :
  0 <= x < width -> 0 <= y < height ->
  (pendingPixels data 0 acc.1 < 50)%nat -> acc.2 = [] ->
  (pendingPixels data 0 (scanPixel width height data y acc x).1 < 50)%nat /\
  (scanPixel width height data y acc x).2 = [].
Proof.
  intros Hx Hy Hp Hb. destruct acc as [visited boxes].
  cbn [fst snd] in *. subst. unfold scanPixel.
  destruct (visited !! Z.to_nat (y * width + x)) as [[| |]|] eqn:Hv;
    try done.
  destruct (negb (isTransparent data (getIndex width x y))) eqn:Ho; [|done].
  destruct (floodFill_count visited x y Hx Hy Hv Ho) as [Hbox Hle].
  destruct (floodFill width height data visited x y) as [[b|] visited'];
    cbn [fst snd] in *.
  - exfalso.
    assert (50 <= pendingPixels data 0 visited)%nat by by apply Hbox.
    lia.
  - split; [lia|done].
Qed.

Lemma scanRows_few ys acc :
  Forall (fun y => 0 <= y < height) ys ->
  (pendingPixels data 0 acc.1 < 50)%nat -> acc.2 = [] ->
  (foldl (fun acc y =>
            foldl (scanPixel width height data y) acc (seqZ 0 width))
         acc ys).2 = [].
Proof.
  assert (forall y xs acc, 0 <= y < height ->
            Forall (fun x => 0 <= x < width) xs ->
            (pendingPixels data 0 acc.1 < 50)%nat -> acc.2 = [] ->
            (pendingPixels data 0
               (foldl (scanPixel width height data y) acc xs).1 < 50)%nat /\
            (foldl (scanPixel width height data y) acc xs).2 = []) as Hrow.
  { intros y xs acc0 Hy Hxs. revert acc0.
    induction Hxs as [|x xs Hx _ IH]; intros acc0 Hp Hb; cbn [foldl];
      [done|].
    destruct (scanPixel_few y acc0 x Hx Hy Hp Hb) as [Hp' Hb']. by apply IH. }
  assert (Forall (fun x => 0 <= x < width) (seqZ 0 width)) as Hxs.
  { apply list.Forall_forall. intros x Hx%elem_of_seqZ. lia. }
  intros Hys. revert acc.
  induction Hys as [|y ys Hy _ IH]; intros acc Hp Hb; cbn [foldl]; [done|].
  destruct (Hrow y (seqZ 0 width) acc Hy Hxs Hp Hb) as [Hp' Hb'].
  by apply IH.
Qed.

(** With fewer than 50 opaque pixels in the raster the scan pushes no
    box. *)
Lemma detectBoxes_few :
  (opaquePixels width height data < 50)%nat ->
  detectBoxes width height data = [].
Proof.
  intros Hfew. unfold detectBoxes. apply scanRows_few.
  - apply list.Forall_forall. intros y Hy%elem_of_seqZ. lia.
  - simpl. by rewrite pendingPixels_all.
  - done.
Qed.

End FillCount.

Lemma fillLoop_stopped width height data fuel st :
  f_stack st = [] -> fillLoop width height data fuel st = st.
Proof. intros H. destruct fuel; simpl; [done|]. by rewrite H. Qed.

Lemma fillLoop_add width height data fuel extra st :
  fillLoop width height data (fuel + extra) st
  = fillLoop width height data extra (fillLoop width height data fuel st).
Proof.
  revert st. induction fuel as [|fuel IH]; intros st; simpl; [done|].
  destruct (f_stack st) as [|[x y] rest] eqn:E; [|apply IH].
  by rewrite fillLoop_stopped.
Qed.

(** X7: the loop of [floodFill] comes to an end: after at most one
    iteration per entry of the visited array, plus one, the stack is
    empty, and further iterations would change nothing. *)
Theorem floodFill_loop_ends width height data visited startX startY extra :
  let st0 :=
    {| f_minX := startX; f_maxX := startX;
       f_minY := startY; f_maxY := startY;
       f_stack := [(startX, startY)];
       f_visited := <[Z.to_nat (startY * width + startX) := 1]> visited;
       f_pixelCount := 0 |} in
  f_stack (fillLoop width height data (S (length visited)) st0) = [] /\
  fillLoop width height data (S (length visited) + extra) st0
  = fillLoop width height data (S (length visited)) st0.
Proof.
  intros st0.
  pose proof (floodFill_terminates width height data visited startX startY)
    as Hend.
  split; [exact Hend|].
  rewrite fillLoop_add. by apply fillLoop_stopped.
Qed.

(** X8: every box pushed by the scan of [findSprites], before the
    merge, starts inside the raster, has a positive width and height
    no larger than the raster's, and ends at most one pixel past its
    right and bottom edges. *)
Theorem detectBoxes_boxes width height data b :
  b ∈ detectBoxes width height data ->
  0 <= box_x b /\ 0 <= box_y b /\
  0 < box_width b <= width /\ 0 < box_height b <= height /\
  box_x b + box_width b <= width + 1 /\
  box_y b + box_height b <= height + 1.
Proof.
  intros Hb.
  pose proof (detectBoxes_bounds width height data) as H.
  rewrite list.Forall_forall in H. exact (H b Hb).
Qed.

Lemma detectBoxes_boxes_witness :
  mkBox 1 1 10 10 ∈ detectBoxes 10 10 (cv_data cornerRaster) /\
  0 <= 1 /\ 0 <= 1 /\ 0 < 10 <= 10 /\ 0 < 10 <= 10 /\
  1 + 10 <= 10 + 1 /\ 1 + 10 <= 10 + 1.
Proof.
  assert (mkBox 1 1 10 10 ∈ detectBoxes 10 10 (cv_data cornerRaster)) as H.
  { apply list_elem_of_lookup. exists 0%nat. vm_compute. reflexivity. }
  split; [exact H|].
  exact (detectBoxes_boxes 10 10 (cv_data cornerRaster) (mkBox 1 1 10 10) H).
Defined.

(** X9: the noise filter: a raster with fewer than 50 opaque pixels
    (alpha 10 or more) yields no sprite at all, however the pixels are
    arranged. *)
Theorem findSprites_few_opaque canvas :
  cv_context canvas = true ->
  (opaquePixels (cv_width canvas) (cv_height canvas) (cv_data canvas) < 50)%nat ->
  findSprites canvas = Ok [].
Proof.
  intros Hctx Hfew. unfold findSprites. rewrite Hctx.
  by rewrite detectBoxes_few.
Qed.

Lemma findSprites_few_opaque_witness :
  cv_context speckRaster = true /\
  (opaquePixels (cv_width speckRaster) (cv_height speckRaster)
     (cv_data speckRaster) < 50)%nat /\
  findSprites speckRaster = Ok [].
Proof.
  assert (opaquePixels (cv_width speckRaster) (cv_height speckRaster)
            (cv_data speckRaster) < 50)%nat as H.
  { vm_compute. lia. }
  split; [reflexivity|]. split; [exact H|].
  exact (findSprites_few_opaque speckRaster eq_refl H).
Defined.

Lemma filter_none {A} (P : A -> Prop) `{!forall x, Decision (P x)}
    (l : list A) :
  (forall x, x ∈ l -> ~ P x) -> filter P l = [].
Proof.
  induction l as [|x l IH]; intros Hall; [done|].
  rewrite filter_cons_False by (apply Hall; left).
  apply IH. intros y Hy. apply Hall. by right.
Qed.

Lemma opaquePixels_none width height data :
  0 <= width -> 0 <= height ->
  Z.of_nat (length data) = 4 * width * height ->
  (forall p a, data !! (4 * p + 3)%nat = Some a -> a < 10) ->
  opaquePixels width height data = 0%nat.
Proof.
  intros Hw Hh Hlen Halpha. unfold opaquePixels.
  rewrite filter_none; [done|].
  intros idx Hidx%elem_of_seq.
  unfold opaqueAt, isTransparent.
  replace (Z.to_nat (Z.of_nat idx * 4 + 3)) with (4 * idx + 3)%nat by lia.
  destruct (data !! (4 * idx + 3)%nat) as [a|] eqn:E.
  - specialize (Halpha idx a E).
    destruct (Z.ltb_spec a 10); [done|lia].
  - apply lookup_ge_None in E. nia.
Qed.

(** X10: a raster all of whose alpha bytes are below 10 yields the
    empty list of sprites, not an error. *)
Theorem findSprites_all_transparent canvas :
  validCanvas canvas -> cv_context canvas = true ->
  (forall p a, cv_data canvas !! (4 * p + 3)%nat = Some a -> a < 10) ->
  findSprites canvas = Ok [].
Proof.
  intros (Hw & Hh & Hlen & _) Hctx Halpha.
  unfold findSprites. rewrite Hctx.
  rewrite detectBoxes_few; [done|].
  rewrite opaquePixels_none; [lia|done..].
Qed.

Lemma findSprites_all_transparent_witness :
  validCanvas (mkCanvas 2 1 [255; 255; 255; 0; 7; 8; 9; 9] true) /\
  (forall p a,
     [255; 255; 255; 0; 7; 8; 9; 9] !! (4 * p + 3)%nat = Some a -> a < 10) /\
  findSprites (mkCanvas 2 1 [255; 255; 255; 0; 7; 8; 9; 9] true) = Ok [].
Proof.
  assert (validCanvas (mkCanvas 2 1 [255; 255; 255; 0; 7; 8; 9; 9] true))
    as Hv.
  { unfold validCanvas. simpl. repeat split; try lia.
    repeat constructor; lia. }
  assert (forall p a,
            [255; 255; 255; 0; 7; 8; 9; 9] !! (4 * p + 3)%nat = Some a ->
            a < 10) as Ha.
  { intros p a H. pose proof (lookup_lt_Some _ _ _ H) as Hlt.
    simpl in Hlt.
    assert (p = 0 \/ p = 1)%nat as [-> | ->] by lia;
      simpl in H; injection H as <-; lia. }
  split; [exact Hv|]. split; [exact Ha|].
  exact (findSprites_all_transparent _ Hv eq_refl Ha).
Defined.

(** X11: the boxes [findSprites] returns do not intersect one another,
    have positive width and height, start inside the raster and end at
    most one pixel past its right and bottom edges. *)
Theorem findSprites_boxes canvas boxes :
  findSprites canvas = Ok boxes ->
  (forall i j b1 b2, i <> j ->
     boxes !! i = Some b1 -> boxes !! j = Some b2 ->
     doBoxesIntersect b1 b2 = false) /\
  (forall g, g ∈ boxes ->
     0 <= box_x g /\ 0 <= box_y g /\
     0 < box_width g /\ 0 < box_height g /\
     box_x g + box_width g <= cv_width canvas + 1 /\
     box_y g + box_height g <= cv_height canvas + 1).
Proof.
  unfold findSprites. destruct (cv_context canvas); [|done].
  intros [= <-].
  set (W := cv_width canvas). set (H := cv_height canvas).
  set (l := detectBoxes W H (cv_data canvas)).
  pose proof (detectBoxes_bounds W H (cv_data canvas)) as Hdet.
  rewrite list.Forall_forall in Hdet. fold l in Hdet.
  destruct (mergeOverlappingBoxes_closure l) as [_ _ Hgen].
  split.
  - intros i j b1 b2 Hij H1 H2.
    pose proof (mergeOverlappingBoxes_noOverlap l) as Hno.
    destruct (Nat.lt_trichotomy i j) as [Hlt|[->|Hgt]]; [eauto|done|].
    rewrite doBoxesIntersect_sym. eauto.
  - intros g Hg.
    assert (boxInside g (mkBox 0 0 (W + 1) (H + 1))) as Hin.
    { eapply generated_hull; [|by apply Hgen].
      intros b Hb. specialize (Hdet b Hb). unfold detectedBox in Hdet.
      unfold boxInside. simpl. lia. }
    assert (0 < box_width g /\ 0 < box_height g) as Hpos.
    { eapply generated_positive; [|by apply Hgen].
      intros b Hb. specialize (Hdet b Hb). unfold detectedBox in Hdet. lia. }
    unfold boxInside in Hin. simpl in Hin. lia.
Qed.

Lemma findSprites_boxes_witness :
  findSprites twoSquares = Ok [mkBox 1 1 9 10; mkBox 12 1 9 10] /\
  doBoxesIntersect (mkBox 1 1 9 10) (mkBox 12 1 9 10) = false /\
  12 + 9 <= cv_width twoSquares + 1.
Proof.
  split; [exact findSprites_twoSquares|].
  destruct (findSprites_boxes twoSquares _ findSprites_twoSquares)
    as [Hapart Hbox].
  split.
  - apply (Hapart 0%nat 1%nat); [lia|reflexivity|reflexivity].
  - destruct (Hbox (mkBox 12 1 9 10)) as (_ & _ & _ & _ & H & _); [|exact H].
    apply list_elem_of_lookup. by exists 1%nat.
Defined.

(** ** Background removal *)

Section RemoveLoopLookup.

Variable close : Z -> Z -> Z -> bool.

(** Every byte after the loop, in one formula. *)
Lemma removeLoop_lookup data k :
  removeLoop close (length data) 0 data !! k
  = if (k mod 4 =? 3)%nat && rgbClose close data (k - 3)
    then (if (k <? length data)%nat then Some 0 else None)
    else data !! k.
Proof.
  pose proof (Nat.div_mod_eq k 4) as Hk.
  pose proof (Nat.mod_upper_bound k 4 ltac:(done)) as Hc.
  destruct (Nat.eqb_spec (k mod 4) 3) as [H3|H3]; simpl.
  - replace k with (0 + 4 * (k / 4) + 3)%nat at 1 by lia.
    rewrite removeLoop_lookup_alpha by lia.
    replace (0 + 4 * (k / 4))%nat with (k - 3)%nat by lia.
    replace (k - 3 + 3)%nat with k by lia. done.
  - apply removeLoop_lookup_other. intros m. lia.
Qed.

Lemma removeLoop_keeps_colours (close' : Z -> Z -> Z -> bool) data k :
  (k mod 4 = 3)%nat ->
  rgbClose close (removeLoop close' (length data) 0 data) (k - 3)
  = rgbClose close data (k - 3).
Proof.
  intros H3. pose proof (Nat.div_mod_eq k 4) as Hk.
  unfold rgbClose.
  rewrite !removeLoop_lookup_other by (intros m; lia). done.
Qed.

Lemma removeLoop_idempotent data :
  removeLoop close (length (removeLoop close (length data) 0 data)) 0
    (removeLoop close (length data) 0 data)
  = removeLoop close (length data) 0 data.
Proof.
  apply list_eq. intros k.
  rewrite removeLoop_lookup. rewrite removeLoop_length.
  destruct (Nat.eqb_spec (k mod 4) 3) as [H3|H3]; simpl; [|done].
  rewrite removeLoop_keeps_colours by done.
  destruct (rgbClose close data (k - 3)) eqn:E; [|done].
  rewrite removeLoop_lookup.
  apply Nat.eqb_eq in H3. by rewrite H3, E.
Qed.

End RemoveLoopLookup.

Lemma rgbClose_tolerance t1 t2 r0 g0 b0 data j :
  t1 <= t2 ->
  rgbClose (withinTolerance t1 r0 g0 b0) data j = true ->
  rgbClose (withinTolerance t2 r0 g0 b0) data j = true.
Proof.
  intros Ht. unfold rgbClose.
  destruct (data !! j), (data !! (j + 1)%nat), (data !! (j + 2)%nat);
    try done.
  rewrite !withinTolerance_spec. nia.
Qed.

(** X12: [removeBackground] is idempotent: a second run with the same
    tolerance changes nothing. *)
Theorem removeBackground_idempotent canvas tolerance :
  removeBackground (removeBackground canvas tolerance) tolerance
  = removeBackground canvas tolerance.
Proof.
  unfold removeBackground at 2 3.
  destruct (cv_context canvas) eqn:Hctx;
    [|unfold removeBackground; by rewrite Hctx].
  unfold removeBackground. simpl. f_equal.
  set (data := cv_data canvas).
  destruct (removeBackgroundData_eq tolerance data)
    as [E|(r0 & g0 & b0 & Hr & Hg & Hb & _ & E)].
  - rewrite E. exact E.
  - rewrite E.
    set (data' := removeLoop (withinTolerance tolerance r0 g0 b0)
                    (length data) 0 data).
    destruct (removeBackgroundData_eq tolerance data')
      as [E'|(r0' & g0' & b0' & Hr' & Hg' & Hb' & _ & E')]; [done|].
    rewrite E'. unfold data' in Hr', Hg', Hb'.
    rewrite removeLoop_lookup_other in Hr', Hg', Hb' by (intros m; lia).
    assert (r0' = r0) as -> by congruence.
    assert (g0' = g0) as -> by congruence.
    assert (b0' = b0) as -> by congruence.
    apply removeLoop_idempotent.
Qed.

Lemma pixelAt_in_range data p :
  (4 * p + 3 < length data)%nat ->
  exists r g b a, pixelAt data p = Some (r, g, b, a).
Proof.
  intros Hlt. unfold pixelAt.
  destruct (lookup_lt_is_Some_2 data (4 * p)) as [r ->]; [lia|].
  destruct (lookup_lt_is_Some_2 data (4 * p + 1)) as [g ->]; [lia|].
  destruct (lookup_lt_is_Some_2 data (4 * p + 2)) as [b ->]; [lia|].
  destruct (lookup_lt_is_Some_2 data (4 * p + 3)) as [a ->]; [lia|].
  by exists r, g, b, a.
Qed.

Lemma removeBackgroundData_pixel t data r0 g0 b0 a0 p r g b a :
  pixelAt data 0 = Some (r0, g0, b0, a0) -> a0 <> 0 ->
  pixelAt data p = Some (r, g, b, a) ->
  removeBackgroundData t data !! (4 * p + 3)%nat
  = Some (if withinTolerance t r0 g0 b0 r g b then 0 else a).
Proof.
  intros H0 Hne Hp.
  rewrite (removeBackgroundData_alpha t _ _ _ _ _ p H0) by done.
  apply pixelAt_Some in Hp as (Hr & Hg & Hb & Ha).
  unfold rgbClose. rewrite Hr, Hg, Hb, Ha.
  destruct (withinTolerance t r0 g0 b0 r g b); [|done].
  apply lookup_lt_Some in Ha.
  by destruct (Nat.ltb_spec (4 * p + 3) (length data)); [|lia].
Qed.

Lemma removeBackgroundData_keyed t data :
  data !! 3%nat = Some 0 -> removeBackgroundData t data = data.
Proof. intros H. unfold removeBackgroundData. by rewrite H. Qed.

(** X13: with a tolerance that is not negative, [removeBackground]
    leaves the pixel at (0,0) fully transparent, whatever its colour
    and alpha were. *)
Theorem removeBackground_clears_corner canvas tolerance r0 g0 b0 a0 :
  cv_context canvas = true ->
  pixelAt (cv_data canvas) 0 = Some (r0, g0, b0, a0) ->
  0 <= tolerance ->
  cv_data (removeBackground canvas tolerance) !! 3%nat = Some 0.
Proof.
  intros Hctx H0 Ht. unfold removeBackground. rewrite Hctx. cbn [cv_data].
  destruct (Z.eq_dec a0 0) as [->|Hne].
  - apply pixelAt_Some in H0 as (_ & _ & _ & Ha).
    by rewrite removeBackgroundData_keyed.
  - change 3%nat with (4 * 0 + 3)%nat.
    rewrite (removeBackgroundData_pixel tolerance _ _ _ _ _ 0 _ _ _ _
               H0 Hne H0).
    assert (withinTolerance tolerance r0 g0 b0 r0 g0 b0 = true) as ->;
      [|done].
    apply withinTolerance_spec. nia.
Qed.

Lemma removeBackground_clears_corner_witness :
  cv_context whiteBlack = true /\
  pixelAt (cv_data whiteBlack) 0 = Some (255, 255, 255, 255) /\
  0 <= 20 /\
  cv_data (removeBackground whiteBlack 20) !! 3%nat = Some 0.
Proof.
  split; [reflexivity|]. split; [reflexivity|]. split; [lia|].
  apply (removeBackground_clears_corner whiteBlack 20 255 255 255 255);
    [reflexivity|reflexivity|lia].
Defined.

(** X14: what [removeBackground] does to each pixel when the pixel at
    (0,0) is not fully transparent: the alpha becomes 0 if the
    tolerance is not negative and the squared distance of the colour
    to the colour at (0,0) is at most the square of the tolerance, and
    stays as it is otherwise. *)
Theorem removeBackground_pixel canvas tolerance r0 g0 b0 a0 p r g b a :
  cv_context canvas = true ->
  pixelAt (cv_data canvas) 0 = Some (r0, g0, b0, a0) -> a0 <> 0 ->
  pixelAt (cv_data canvas) p = Some (r, g, b, a) ->
  cv_data (removeBackground canvas tolerance) !! (4 * p + 3)%nat
  = Some (if decide (0 <= tolerance /\
                     (r - r0) ^ 2 + (g - g0) ^ 2 + (b - b0) ^ 2
                     <= tolerance * tolerance)
          then 0 else a).
Proof.
  intros Hctx H0 Hne Hp. unfold removeBackground. rewrite Hctx. cbn [cv_data].
  rewrite (removeBackgroundData_pixel tolerance _ _ _ _ _ p _ _ _ _
             H0 Hne Hp).
  f_equal. destruct (withinTolerance tolerance r0 g0 b0 r g b) eqn:E.
  - apply withinTolerance_spec in E. by rewrite decide_True.
  - rewrite decide_False; [done|].
    intros H. apply withinTolerance_spec in H. congruence.
Qed.

Lemma removeBackground_pixel_witness :
  cv_context whiteBlack = true /\
  pixelAt (cv_data whiteBlack) 0 = Some (255, 255, 255, 255) /\
  255 <> 0 /\
  pixelAt (cv_data whiteBlack) 1 = Some (0, 0, 0, 255) /\
  cv_data (removeBackground whiteBlack 100) !! 7%nat = Some 255.
Proof.
  split; [reflexivity|]. split; [reflexivity|]. split; [lia|].
  split; [reflexivity|].
  apply (removeBackground_pixel whiteBlack 100 255 255 255 255 1 0 0 0 255);
    [reflexivity|reflexivity|lia|reflexivity].
Defined.

(** X15: a larger tolerance removes at least as much: a pixel whose
    alpha is 0 after [removeBackground] with one tolerance has alpha 0
    after it with any larger tolerance. *)
Theorem removeBackground_monotone canvas t1 t2 p :
  t1 <= t2 ->
  cv_data (removeBackground canvas t1) !! (4 * p + 3)%nat = Some 0 ->
  cv_data (removeBackground canvas t2) !! (4 * p + 3)%nat = Some 0.
Proof.
  intros Ht. unfold removeBackground.
  destruct (cv_context canvas); [|done]. cbn [cv_data].
  set (data := cv_data canvas). intros H1.
  assert (4 * p + 3 < length data)%nat as Hlt.
  { apply lookup_lt_Some in H1. by rewrite removeBackgroundData_length in H1. }
  destruct (pixelAt_in_range data 0 ltac:(lia)) as (r0 & g0 & b0 & a0 & H0).
  destruct (pixelAt_in_range data p Hlt) as (r & g & b & a & Hp).
  destruct (Z.eq_dec a0 0) as [->|Hne].
  - apply pixelAt_Some in H0 as (_ & _ & _ & Ha).
    rewrite removeBackgroundData_keyed in H1 by done.
    by rewrite removeBackgroundData_keyed.
  - rewrite (removeBackgroundData_pixel t1 _ _ _ _ _ p _ _ _ _ H0 Hne Hp)
      in H1.
    rewrite (removeBackgroundData_pixel t2 _ _ _ _ _ p _ _ _ _ H0 Hne Hp).
    f_equal. injection H1 as H1.
    destruct (withinTolerance t1 r0 g0 b0 r g b) eqn:E1.
    + apply withinTolerance_spec in E1.
      assert (withinTolerance t2 r0 g0 b0 r g b = true) as ->; [|done].
      apply withinTolerance_spec. nia.
    + subst a. by destruct (withinTolerance t2 r0 g0 b0 r g b).
Qed.

Lemma removeBackground_monotone_witness :
  441 <= 442 /\
  cv_data (removeBackground whiteBlack 441) !! 3%nat = Some 0 /\
  cv_data (removeBackground whiteBlack 442) !! 3%nat = Some 0.
Proof.
  split; [lia|]. split; [reflexivity|].
  apply (removeBackground_monotone whiteBlack 441 442 0); [lia|reflexivity].
Defined.

(** ** A processing run *)

Lemma preparedCanvas_frame image settings :
  cv_context (preparedCanvas image settings) = cv_context image /\
  cv_width (preparedCanvas image settings) = cv_width image /\
  cv_height (preparedCanvas image settings) = cv_height image /\
  length (cv_data (preparedCanvas image settings))
  = length (cv_data image).
Proof.
  unfold preparedCanvas. destruct (set_removeBackground settings); [|done].
  unfold removeBackground. destruct (cv_context image) eqn:E; [|done].
  simpl. by rewrite removeBackgroundData_length.
Qed.

Section ProcessMore.

Context {Blob : Type}.
Variables (tempContext : bool) (toBlob : TempCanvas -> option Blob)
          (now : nat -> Z).

Lemma process_no_boxes image settings st :
  cv_context image = true ->
  findSprites (preparedCanvas image settings) = Ok [] ->
  process Blob tempContext toBlob now image settings st
  = (noSprites st, None).
Proof. intros Hctx Hfind. unfold process. by rewrite Hctx, Hfind. Qed.

Lemma makeAsset_fields canvas settings index box a :
  makeAsset Blob tempContext toBlob now canvas settings index box = Ok a ->
  cropImage Blob tempContext toBlob canvas box settings
  = Ok (a_blob Blob a) /\
  a_id Blob a = (index, now index) /\ a_box Blob a = box /\
  a_status Blob a = pending /\ a_originalName Blob a = [] /\
  a_finalName Blob a = jsString "item_" ++ jsString (pretty (index + 1)%nat).
Proof.
  unfold makeAsset. destruct (cropImage _ _ _ _ _ _) as [blob|]; [|done].
  by intros [= <-].
Qed.

End ProcessMore.

(** X16: the size recorded for a sprite is the size of the canvas that
    was encoded for it, in homogenised and in verbatim mode alike, and
    its blob is what the encoder made of that canvas. *)
Theorem makeAsset_size Blob tempContext toBlob now canvas settings index box a :
  makeAsset Blob tempContext toBlob now canvas settings index box = Ok a ->
  toBlob (cropCanvas canvas box settings) = Some (a_blob Blob a) /\
  a_outputWidth Blob a = tc_width (cropCanvas canvas box settings) /\
  a_outputHeight Blob a = tc_height (cropCanvas canvas box settings).
Proof.
  unfold makeAsset, cropImage. destruct tempContext; [|done].
  destruct (toBlob (cropCanvas canvas box settings)) as [blob|] eqn:E;
    [|done].
  intros [= <-]. simpl. split; [done|].
  unfold cropCanvas. by destruct (set_homogenize settings).
Qed.

Lemma makeAsset_size_witness :
  exists a,
    makeAsset TempCanvas true Some (fun _ => 0) plainRaster verbatim 0
      (mkBox 5 5 30 40) = Ok a /\
    a_outputWidth TempCanvas a = 34 /\ a_outputHeight TempCanvas a = 44.
Proof.
  eexists. split; [reflexivity|].
  destruct (makeAsset_size TempCanvas true Some (fun _ => 0) plainRaster
              verbatim 0 (mkBox 5 5 30 40) _ eq_refl) as (_ & Hw & Hh).
  split; [exact Hw|exact Hh].
Defined.

(** X17: when [process] hands assets to the naming queue, it has moved
    to the review step with exactly one asset per detected box, in the
    order of the boxes and at least one: the asset at position [i] is
    pending, carries the box at position [i], the blob [cropImage]
    gave for that box, the identifier of index [i], no suggested name
    and the name [item_<i+1>]. *)
Theorem process_assets
    Blob tempContext toBlob now image settings st st' assets :
  process Blob tempContext toBlob now image settings st
  = (st', Some assets) ->
  exists boxes,
    findSprites (preparedCanvas image settings) = Ok boxes /\
    app_step Blob st' = REVIEW /\ app_assets Blob st' = assets /\
    assets <> [] /\ length assets = length boxes /\
    forall i a, assets !! i = Some a ->
      exists box,
        boxes !! i = Some box /\ a_box Blob a = box /\
        cropImage Blob tempContext toBlob (preparedCanvas image settings)
          box settings = Ok (a_blob Blob a) /\
        a_id Blob a = (i, now i) /\ a_status Blob a = pending /\
        a_originalName Blob a = [] /\
        a_finalName Blob a
        = jsString "item_" ++ jsString (pretty (i + 1)%nat).
Proof.
  unfold process. destruct (cv_context image); [|done].
  destruct (findSprites _) as [[|b boxes]|] eqn:Hfind; try done.
  destruct (promiseAll _) as [l|] eqn:E; [|done].
  intros [= <- <-]. exists (b :: boxes).
  apply promiseAll_Ok in E.
  pose proof (Forall2_length _ _ _ E) as Hlen.
  rewrite length_imap in Hlen.
  split; [done|]. split; [done|]. split; [done|]. split; [|split; [done|]].
  - intros ->. simpl in Hlen. lia.
  - intros i a Ha.
    destruct (Forall2_lookup_r _ _ _ _ _ E Ha) as (r & Hr & ->).
    apply list_lookup_imap_Some in Hr as (box & Hbox & Hr).
    symmetry in Hr. apply makeAsset_fields in Hr
      as (Hcrop & Hid & Hb & Hs & Ho & Hf).
    exists box. by repeat split.
Qed.

Lemma process_assets_witness :
  exists st' assets,
    process TempCanvas true Some (fun _ => 0) twoSquares verbatim
      (initialState TempCanvas) = (st', Some assets) /\
    app_step TempCanvas st' = REVIEW /\ length assets = 2%nat.
Proof.
  destruct (process TempCanvas true Some (fun _ => 0) twoSquares verbatim
              (initialState TempCanvas)) as [st' [assets|]] eqn:E;
    [|vm_compute in E; discriminate E].
  exists st', assets. split; [reflexivity|].
  destruct (process_assets TempCanvas true Some (fun _ => 0) twoSquares
              verbatim (initialState TempCanvas) st' assets E)
    as (boxes & Hfind & Hstep & _ & _ & Hlen & _).
  split; [exact Hstep|].
  change (preparedCanvas twoSquares verbatim) with twoSquares in Hfind.
  rewrite findSprites_twoSquares in Hfind. injection Hfind as <-.
  exact Hlen.
Defined.

(** X18: an image with fewer than 50 opaque pixels left after the
    optional background removal is reported as holding no sprites:
    [process] alerts, goes back to the settings step, keeps the asset
    list and does not start naming. *)
Theorem process_few_opaque
    Blob tempContext toBlob now image settings (st : AppState Blob) :
  cv_context image = true ->
  (opaquePixels (cv_width image) (cv_height image)
     (cv_data (preparedCanvas image settings)) < 50)%nat ->
  process Blob tempContext toBlob now image settings st
  = (noSprites st, None).
Proof.
  intros Hctx Hfew. apply process_no_boxes; [done|].
  destruct (preparedCanvas_frame image settings) as (Hc & Hw & Hh & _).
  unfold findSprites. rewrite Hc, Hctx, Hw, Hh.
  by rewrite detectBoxes_few.
Qed.

Lemma process_few_opaque_witness :
  cv_context speckRaster = true /\
  (opaquePixels (cv_width speckRaster) (cv_height speckRaster)
     (cv_data (preparedCanvas speckRaster verbatim)) < 50)%nat /\
  process TempCanvas true Some (fun _ => 0) speckRaster verbatim
    (initialState TempCanvas)
  = (noSprites (initialState TempCanvas), None).
Proof.
  assert (opaquePixels (cv_width speckRaster) (cv_height speckRaster)
            (cv_data (preparedCanvas speckRaster verbatim)) < 50)%nat as H.
  { vm_compute. lia. }
  split; [reflexivity|]. split; [exact H|].
  exact (process_few_opaque TempCanvas true Some (fun _ => 0) speckRaster
           verbatim (initialState TempCanvas) eq_refl H).
Defined.

(** X19: background removal followed by detection: if every pixel of
    an image is within the tolerance of the colour of its pixel (0,0),
    which is not fully transparent, then with background removal on no
    sprite is left, and the run ends as for an image without sprites. *)
Theorem process_uniform_image
    Blob tempContext toBlob now image settings (st : AppState Blob)
    r0 g0 b0 a0 :
  validCanvas image -> cv_context image = true ->
  set_removeBackground settings = true ->
  pixelAt (cv_data image) 0 = Some (r0, g0, b0, a0) -> a0 <> 0 ->
  (forall p r g b a,
     pixelAt (cv_data image) p = Some (r, g, b, a) ->
     withinTolerance (set_backgroundTolerance settings) r0 g0 b0 r g b
     = true) ->
  process Blob tempContext toBlob now image settings st
  = (noSprites st, None).
Proof.
  intros (Hw & Hh & Hlen & _) Hctx Hrm H0 Hne Hall.
  apply process_no_boxes; [done|].
  destruct (preparedCanvas_frame image settings) as (Hc & Hw' & Hh' & _).
  unfold findSprites. rewrite Hc, Hctx, Hw', Hh'.
  rewrite detectBoxes_few; [done|].
  rewrite opaquePixels_none; [lia|done|done| |].
  - destruct (preparedCanvas_frame image settings) as (_ & _ & _ & ->).
    exact Hlen.
  - unfold preparedCanvas, removeBackground. rewrite Hrm, Hctx.
    cbn [cv_data]. intros p a Ha.
    assert (4 * p + 3 < length (cv_data image))%nat as Hlt.
    { apply lookup_lt_Some in Ha.
      by rewrite removeBackgroundData_length in Ha. }
    destruct (pixelAt_in_range _ p Hlt) as (r & g & b & a' & Hp).
    rewrite (removeBackgroundData_pixel _ _ _ _ _ _ p _ _ _ _ H0 Hne Hp)
      in Ha.
    rewrite (Hall p r g b a' Hp) in Ha. injection Ha as <-. lia.
Qed.

Lemma process_uniform_image_witness :
  validCanvas plainImage /\
  pixelAt (cv_data plainImage) 0 = Some (10, 20, 30, 255) /\
  process TempCanvas true Some (fun _ => 0) plainImage removing
    (initialState TempCanvas)
  = (noSprites (initialState TempCanvas), None).
Proof.
  assert (validCanvas plainImage) as Hv.
  { unfold validCanvas. simpl. repeat split; try lia.
    repeat constructor; lia. }
  split; [exact Hv|]. split; [reflexivity|].
  apply (process_uniform_image TempCanvas true Some (fun _ => 0) plainImage
           removing (initialState TempCanvas) 10 20 30 255 Hv);
    [reflexivity|reflexivity|reflexivity|lia|].
  intros p r g b a Hp.
  apply pixelAt_Some in Hp as (Hr & Hg & Hb & Ha).
  pose proof (lookup_lt_Some _ _ _ Ha) as Hlt. simpl in Hlt.
  assert (p = 0 \/ p = 1)%nat as [-> | ->] by lia;
    simpl in Hr, Hg, Hb;
    injection Hr as <-; injection Hg as <-; injection Hb as <-;
    reflexivity.
Defined.

(** ** The naming queue *)

Section QueueMore.

Context {Blob : Type}.
Variables (respond : Asset Blob -> ApiOutcome)
          (completion : list (Asset Blob) -> list (Asset Blob)).
Hypothesis completion_perm : forall batch, completion batch ≡ₚ batch.

Lemma sameSprite_refl (a : Asset Blob) : sameSprite a a.
Proof. by repeat split. Qed.

Lemma sameSprite_trans (a b c : Asset Blob) :
  sameSprite a b -> sameSprite b c -> sameSprite a c.
Proof.
  intros (?&?&?&?&?) (?&?&?&?&?). repeat split; congruence.
Qed.

Lemma startNaming_frame st a k e :
  app_assets Blob st !! k = Some e ->
  exists e', app_assets Blob (startNaming Blob st a) !! k = Some e' /\
             sameSprite e e'.
Proof.
  intros He. simpl. unfold markNaming. rewrite list_lookup_fmap, He. simpl.
  eexists. split; [done|]. case_decide; by repeat split.
Qed.

Lemma finishNaming_frame st a k e :
  app_assets Blob st !! k = Some e ->
  exists e', app_assets Blob (finishNaming Blob respond st a) !! k = Some e' /\
             sameSprite e e'.
Proof.
  intros He. simpl. unfold markReady. rewrite list_lookup_fmap, He. simpl.
  eexists. split; [done|]. case_decide; by repeat split.
Qed.

Lemma runBatch_frame batch st k e :
  app_assets Blob st !! k = Some e ->
  exists e', app_assets Blob (runBatch Blob respond completion batch st) !! k
             = Some e' /\ sameSprite e e'.
Proof.
  unfold runBatch. intros He.
  assert (forall l st0 e0, app_assets Blob st0 !! k = Some e0 ->
            exists e', app_assets Blob (foldl (startNaming Blob) st0 l) !! k
                       = Some e' /\ sameSprite e0 e') as Hs.
  { induction l as [|a l IH]; intros st0 e0 H0; [exists e0; by repeat split|].
    destruct (startNaming_frame st0 a k e0 H0) as (e1 & H1 & Hs1).
    destruct (IH _ _ H1) as (e' & H' & Hs'). exists e'. split; [done|].
    by eapply sameSprite_trans. }
  assert (forall l st0 e0, app_assets Blob st0 !! k = Some e0 ->
            exists e', app_assets Blob
                         (foldl (finishNaming Blob respond) st0 l) !! k
                       = Some e' /\ sameSprite e0 e') as Hf.
  { induction l as [|a l IH]; intros st0 e0 H0; [exists e0; by repeat split|].
    destruct (finishNaming_frame st0 a k e0 H0) as (e1 & H1 & Hs1).
    destruct (IH _ _ H1) as (e' & H' & Hs'). exists e'. split; [done|].
    by eapply sameSprite_trans. }
  destruct (Hs batch st e He) as (e1 & H1 & Hs1).
  destruct (Hf (completion batch) _ e1 H1) as (e' & H' & Hs').
  exists e'. split; [done|]. by eapply sameSprite_trans.
Qed.

Lemma runBatch_rest batch st :
  app_step Blob (runBatch Blob respond completion batch st) = app_step Blob st /\
  app_alerts Blob (runBatch Blob respond completion batch st)
  = app_alerts Blob st /\
  app_processedCount Blob (runBatch Blob respond completion batch st)
  = app_processedCount Blob st + Z.of_nat (length (completion batch)).
Proof.
  unfold runBatch.
  assert (forall l st0,
            app_step Blob (foldl (startNaming Blob) st0 l) = app_step Blob st0 /\
            app_alerts Blob (foldl (startNaming Blob) st0 l)
            = app_alerts Blob st0 /\
            app_processedCount Blob (foldl (startNaming Blob) st0 l)
            = app_processedCount Blob st0) as Hs.
  { induction l as [|a l IH]; intros st0; [done|]. simpl.
    destruct (IH (startNaming Blob st0 a)) as (-> & -> & ->). done. }
  assert (forall l st0,
            app_step Blob (foldl (finishNaming Blob respond) st0 l)
            = app_step Blob st0 /\
            app_alerts Blob (foldl (finishNaming Blob respond) st0 l)
            = app_alerts Blob st0 /\
            app_processedCount Blob (foldl (finishNaming Blob respond) st0 l)
            = app_processedCount Blob st0 + Z.of_nat (length l)) as Hf.
  { induction l as [|a l IH]; intros st0; [simpl; repeat split; lia|].
    cbn [foldl]. destruct (IH (finishNaming Blob respond st0 a))
      as (-> & -> & ->).
    simpl. repeat split; lia. }
  destruct (Hf (completion batch) (foldl (startNaming Blob) st batch))
    as (-> & -> & ->).
  destruct (Hs batch st) as (-> & -> & ->). done.
Qed.

Lemma queueLoop_frame fuel i currentAssets st k e :
  app_assets Blob st !! k = Some e ->
  exists e',
    app_assets Blob
      (queueLoop Blob respond completion fuel i currentAssets st) !! k
    = Some e' /\ sameSprite e e'.
Proof.
  revert i st e. induction fuel as [|fuel IH]; intros i st e He; simpl.
  - exists e. split; [done|apply sameSprite_refl].
  - destruct (i <? length currentAssets)%nat;
      [|exists e; split; [done|apply sameSprite_refl]].
    destruct (runBatch_frame (take 3 (drop i currentAssets)) st k e He)
      as (e1 & H1 & Hs1).
    destruct (IH (i + 3)%nat _ e1 H1) as (e' & H' & Hs').
    exists e'. split; [done|]. by eapply sameSprite_trans.
Qed.

Lemma queueLoop_rest fuel i currentAssets st :
  (length currentAssets <= i + 3 * fuel)%nat ->
  app_step Blob (queueLoop Blob respond completion fuel i currentAssets st)
  = app_step Blob st /\
  app_alerts Blob (queueLoop Blob respond completion fuel i currentAssets st)
  = app_alerts Blob st /\
  app_processedCount Blob
    (queueLoop Blob respond completion fuel i currentAssets st)
  = app_processedCount Blob st
    + Z.of_nat (length (drop i currentAssets)).
Proof.
  revert i st. induction fuel as [|fuel IH]; intros i st Hlen;
    cbn [queueLoop].
  - rewrite drop_ge by lia. simpl. repeat split; lia.
  - destruct (Nat.ltb_spec i (length currentAssets)) as [Hlt|Hge].
    + destruct (IH (i + 3)%nat
                  (runBatch Blob respond completion
                     (take 3 (drop i currentAssets)) st) ltac:(lia))
        as (-> & -> & ->).
      destruct (runBatch_rest (take 3 (drop i currentAssets)) st)
        as (-> & -> & ->).
      split; [done|]. split; [done|].
      rewrite (Permutation_length (completion_perm _)).
      rewrite length_take, !length_drop. lia.
    + rewrite drop_ge by lia. simpl. repeat split; lia.
Qed.

(** Entries whose identifier no asset of the batch carries are left
    alone. *)
Lemma finishNaming_fold_other done st k e :
  app_assets Blob st !! k = Some e ->
  (forall d, d ∈ done -> a_id Blob e <> a_id Blob d) ->
  app_assets Blob (foldl (finishNaming Blob respond) st done) !! k = Some e.
Proof.
  revert st. induction done as [|d done IH]; intros st He Hall; [done|].
  cbn [foldl]. apply IH.
  - destruct (finishNaming_lookup respond st d k e He)
      as (e1 & H1 & _ & Hne & _).
    rewrite H1, Hne; [done|]. apply Hall. left.
  - intros c Hc. apply Hall. by right.
Qed.

Lemma queueLoop_other fuel i currentAssets st k e :
  app_assets Blob st !! k = Some e ->
  (forall a, a ∈ currentAssets -> a_id Blob e <> a_id Blob a) ->
  app_assets Blob
    (queueLoop Blob respond completion fuel i currentAssets st) !! k
  = Some e.
Proof.
  revert i st. induction fuel as [|fuel IH]; intros i st He Hall; simpl;
    [done|].
  destruct (i <? length currentAssets)%nat; [|done].
  apply IH; [|done]. unfold runBatch.
  assert (forall b, b ∈ take 3 (drop i currentAssets) ->
            a_id Blob e <> a_id Blob b) as Hbatch.
  { intros b Hb. apply Hall.
    by apply (subseteq_drop i), (subseteq_take 3). }
  apply finishNaming_fold_other.
  - destruct (startNaming_fold (take 3 (drop i currentAssets)) st k e He)
      as (e1 & H1 & _ & Hsame).
    by rewrite H1, Hsame.
  - intros d Hd. apply Hbatch. by rewrite <- (completion_perm _).
Qed.

End QueueMore.

Lemma runPipeline_no_error_witness :
  (forall batch : list (Asset TempCanvas), reverse batch ≡ₚ batch) /\
  Forall (fun a => a_status TempCanvas a <> error)
    (app_assets TempCanvas (initialState TempCanvas)) /\
  Forall (fun a => a_status TempCanvas a <> error)
    (app_assets TempCanvas
       (runPipeline TempCanvas true Some (fun _ => 0)
          (fun _ => RequestFailure) reverse twoSquares verbatim
          (initialState TempCanvas))).
Proof.
  split; [exact reverse_Permutation|]. split; [constructor|].
  apply (runPipeline_no_error TempCanvas true Some (fun _ => 0)
           (fun _ => RequestFailure) reverse twoSquares verbatim
           (initialState TempCanvas) reverse_Permutation).
  constructor.
Defined.

Lemma queueLoop_step_alerts {Blob} respond completion fuel i
    (currentAssets : list (Asset Blob)) st :
  app_step Blob (queueLoop Blob respond completion fuel i currentAssets st)
  = app_step Blob st /\
  app_alerts Blob (queueLoop Blob respond completion fuel i currentAssets st)
  = app_alerts Blob st.
Proof.
  revert i st. induction fuel as [|fuel IH]; intros i st; simpl; [done|].
  destruct (i <? length currentAssets)%nat; [|done].
  destruct (IH (i + 3)%nat
              (runBatch Blob respond completion
                 (take 3 (drop i currentAssets)) st)) as (-> & ->).
  by destruct (runBatch_rest respond completion
                 (take 3 (drop i currentAssets)) st) as (-> & -> & _).
Qed.

(** X21: a run that detected sprites and encoded them all ends in the
    review step with every sprite ready: the entry at each position is
    the sprite [process] made for it, named by what [identifyAsset]
    returned for it, and the processed counter has advanced by the
    number of sprites. *)
Theorem runPipeline_success
    Blob tempContext toBlob now respond completion
    image settings st st' assets :
  (forall batch, completion batch ≡ₚ batch) ->
  process Blob tempContext toBlob now image settings st
  = (st', Some assets) ->
  app_step Blob
    (runPipeline Blob tempContext toBlob now respond completion
       image settings st) = REVIEW /\
  app_processedCount Blob
    (runPipeline Blob tempContext toBlob now respond completion
       image settings st)
  = app_processedCount Blob st + Z.of_nat (length assets) /\
  length (app_assets Blob
            (runPipeline Blob tempContext toBlob now respond completion
               image settings st)) = length assets /\
  forall i a0, assets !! i = Some a0 ->
    exists a,
      app_assets Blob
        (runPipeline Blob tempContext toBlob now respond completion
           image settings st) !! i = Some a /\
      sameSprite a0 a /\ namedReady (identifyAsset (respond a0)) a.
Proof.
  intros Hperm Hproc. unfold runPipeline. rewrite Hproc.
  pose proof (process_ids_distinct _ _ _ _ _ _ _ _ Hproc) as Hnd.
  assert (app_step Blob st' = REVIEW /\ app_assets Blob st' = assets /\
          app_processedCount Blob st' = app_processedCount Blob st)
    as (Hstep & Hassets & Hcount).
  { revert Hproc. unfold process. destruct (cv_context image); [|done].
    destruct (findSprites _) as [[|b boxes]|]; try done.
    destruct (promiseAll _) as [l|]; [|done]. by intros [= <- <-]. }
  unfold queueAiNaming.
  destruct (queueLoop_rest respond completion Hperm (length assets) 0
              assets st' ltac:(lia)) as (-> & _ & ->).
  rewrite queueLoop_length, drop_0, Hassets, Hstep, Hcount.
  split; [done|]. split; [done|]. split; [done|].
  intros i a0 Ha0.
  destruct (queueLoop_entry respond completion Hperm assets Hnd a0
              (list_elem_of_lookup_2 _ _ _ Ha0)
              (length assets) 0 st' i a0)
    as (a & Ha & _ & Hdone); [lia|by rewrite Hassets|done|].
  destruct (queueLoop_frame respond completion (length assets) 0 assets
              st' i a0) as (a' & Ha' & Hsame); [by rewrite Hassets|].
  exists a. split; [exact Ha|].
  rewrite Ha in Ha'. simplify_eq. split; [done|].
  apply Hdone. left. rewrite drop_0.
  by apply (list_elem_of_lookup_2 _ i).
Qed.

Lemma runPipeline_success_witness :
  (forall batch : list (Asset TempCanvas), reverse batch ≡ₚ batch) /\
  app_step TempCanvas
    (runPipeline TempCanvas true Some (fun _ => 0)
       (fun _ => RequestFailure) reverse twoSquares verbatim
       (initialState TempCanvas)) = REVIEW /\
  app_processedCount TempCanvas
    (runPipeline TempCanvas true Some (fun _ => 0)
       (fun _ => RequestFailure) reverse twoSquares verbatim
       (initialState TempCanvas)) = 2.
Proof.
  split; [exact reverse_Permutation|].
  destruct (process TempCanvas true Some (fun _ => 0) twoSquares verbatim
              (initialState TempCanvas)) as [st' [assets|]] eqn:E;
    [|vm_compute in E; discriminate E].
  destruct (runPipeline_success TempCanvas true Some (fun _ => 0)
              (fun _ => RequestFailure) reverse twoSquares verbatim
              (initialState TempCanvas) st' assets reverse_Permutation E)
    as (Hstep & Hcount & _).
  split; [exact Hstep|]. rewrite Hcount.
  assert (length assets = 2%nat) as ->; [|reflexivity].
  vm_compute in E. by injection E as _ <-.
Defined.

(** X22: the naming queue touches nothing but names and statuses: the
    asset list keeps its length, the entry at each position keeps its
    identifier, blob, box and size, and the step and the alerts are as
    before, whatever the collaborator answers and in whatever order. *)
Theorem queueAiNaming_frame
    Blob (respond : Asset Blob -> ApiOutcome)
    (completion : list (Asset Blob) -> list (Asset Blob))
    (currentAssets : list (Asset Blob)) (st : AppState Blob) :
  length (app_assets Blob
            (queueAiNaming Blob respond completion currentAssets st))
  = length (app_assets Blob st) /\
  app_step Blob (queueAiNaming Blob respond completion currentAssets st)
  = app_step Blob st /\
  app_alerts Blob (queueAiNaming Blob respond completion currentAssets st)
  = app_alerts Blob st /\
  forall k e, app_assets Blob st !! k = Some e ->
    exists e',
      app_assets Blob
        (queueAiNaming Blob respond completion currentAssets st) !! k
      = Some e' /\ sameSprite e e'.
Proof.
  unfold queueAiNaming. split; [apply queueLoop_length|].
  destruct (queueLoop_step_alerts respond completion (length currentAssets)
              0 currentAssets st) as (-> & ->).
  split; [done|]. split; [done|].
  intros k e. apply queueLoop_frame.
Qed.

Lemma queueAiNaming_frame_witness :
  app_assets unit (mkApp unit REVIEW sampleAssets 0 []) !! 1%nat
  = Some (sampleAsset 1) /\
  exists e',
    app_assets unit
      (queueAiNaming unit sampleRespond reverse sampleAssets
         (mkApp unit REVIEW sampleAssets 0 [])) !! 1%nat = Some e' /\
    sameSprite (sampleAsset 1) e'.
Proof.
  split; [reflexivity|].
  destruct (queueAiNaming_frame unit sampleRespond reverse sampleAssets
              (mkApp unit REVIEW sampleAssets 0 [])) as (_ & _ & _ & H).
  apply (H 1%nat (sampleAsset 1)). reflexivity.
Defined.

(** X23: the processed counter ends one higher for every asset handed
    to the queue, each request completing once. *)
Theorem queueAiNaming_processedCount
    Blob (respond : Asset Blob -> ApiOutcome)
    (completion : list (Asset Blob) -> list (Asset Blob))
    (currentAssets : list (Asset Blob)) (st : AppState Blob) :
  (forall batch, completion batch ≡ₚ batch) ->
  app_processedCount Blob
    (queueAiNaming Blob respond completion currentAssets st)
  = app_processedCount Blob st + Z.of_nat (length currentAssets).
Proof.
  intros Hperm. unfold queueAiNaming.
  destruct (queueLoop_rest respond completion Hperm (length currentAssets)
              0 currentAssets st ltac:(lia)) as (_ & _ & ->).
  by rewrite drop_0.
Qed.

Lemma queueAiNaming_processedCount_witness :
  (forall batch : list (Asset unit), reverse batch ≡ₚ batch) /\
  app_processedCount unit
    (queueAiNaming unit sampleRespond reverse sampleAssets
       (mkApp unit REVIEW sampleAssets 0 [])) = 4.
Proof.
  split; [exact reverse_Permutation|].
  exact (queueAiNaming_processedCount unit sampleRespond reverse sampleAssets
           (mkApp unit REVIEW sampleAssets 0 []) reverse_Permutation).
Defined.

(** X24: the queue leaves alone every entry of the asset list whose
    identifier is not that of an asset handed to it, such as the
    sprites of a later run. *)
Theorem queueAiNaming_other_ids
    Blob (respond : Asset Blob -> ApiOutcome)
    (completion : list (Asset Blob) -> list (Asset Blob))
    (currentAssets : list (Asset Blob)) (st : AppState Blob) k e :
  (forall batch, completion batch ≡ₚ batch) ->
  app_assets Blob st !! k = Some e ->
  (forall a, a ∈ currentAssets -> a_id Blob e <> a_id Blob a) ->
  app_assets Blob (queueAiNaming Blob respond completion currentAssets st) !! k
  = Some e.
Proof.
  intros Hperm He Hall. unfold queueAiNaming. by apply queueLoop_other.
Qed.

Lemma queueAiNaming_other_ids_witness :
  (forall batch : list (Asset unit), reverse batch ≡ₚ batch) /\
  app_assets unit
    (queueAiNaming unit sampleRespond reverse [sampleAsset 0; sampleAsset 1]
       (mkApp unit REVIEW sampleAssets 0 [])) !! 3%nat
  = Some (sampleAsset 3).
Proof.
  split; [exact reverse_Permutation|].
  apply (queueAiNaming_other_ids unit sampleRespond reverse
           [sampleAsset 0; sampleAsset 1]
           (mkApp unit REVIEW sampleAssets 0 []) 3 (sampleAsset 3)
           reverse_Permutation); [reflexivity|].
  intros a Ha. repeat (apply elem_of_cons in Ha as [->|Ha]);
    [| |by apply elem_of_nil in Ha]; discriminate.
Defined.

(** ** Renaming and resetting *)

(** X25: a rename and the arrival of a suggested name do not commute:
    a name the user gives a sprite before its naming request completes
    is replaced by the suggested name, while a rename after completion
    stands and leaves the suggested name and the status as they are. *)
Theorem rename_and_naming
    Blob (respond : Asset Blob -> ApiOutcome) (st : AppState Blob)
    asset newName k e :
  app_assets Blob st !! k = Some e -> a_id Blob e = a_id Blob asset ->
  (exists e1,
     app_assets Blob
       (finishNaming Blob respond
          (handleRename Blob (a_id Blob asset) newName st) asset) !! k
     = Some e1 /\
     a_finalName Blob e1 = identifyAsset (respond asset) /\
     a_status Blob e1 = ready) /\
  (exists e2,
     app_assets Blob
       (handleRename Blob (a_id Blob asset) newName
          (finishNaming Blob respond st asset)) !! k
     = Some e2 /\
     a_finalName Blob e2 = newName /\
     a_originalName Blob e2 = identifyAsset (respond asset) /\
     a_status Blob e2 = ready).
Proof.
  intros He Hid. split.
  - cbn [finishNaming handleRename app_assets]. unfold markReady.
    rewrite !list_lookup_fmap, He. cbn [fmap option_fmap option_map].
    rewrite (decide_True _ _ Hid). cbn [a_id].
    rewrite (decide_True _ _ Hid). by eexists.
  - cbn [finishNaming handleRename app_assets]. unfold markReady.
    rewrite !list_lookup_fmap, He. cbn [fmap option_fmap option_map].
    rewrite (decide_True _ _ Hid). cbn [a_id].
    rewrite (decide_True _ _ Hid). by eexists.
Qed.

Lemma rename_and_naming_witness :
  exists e1,
    app_assets unit
      (finishNaming unit sampleRespond
         (handleRename unit (a_id unit (sampleAsset 0)) (jsString "shield")
            (mkApp unit REVIEW sampleAssets 0 []))
         (sampleAsset 0)) !! 0%nat = Some e1 /\
    a_finalName unit e1 = jsString "iron_sword" /\
    a_status unit e1 = ready.
Proof.
  destruct (rename_and_naming unit sampleRespond
              (mkApp unit REVIEW sampleAssets 0 []) (sampleAsset 0)
              (jsString "shield") 0 (sampleAsset 0) eq_refl eq_refl)
    as [H _].
  exact H.
Defined.

Lemma finishNaming_fold_empty {Blob} (respond : Asset Blob -> ApiOutcome)
    (late : list (Asset Blob)) (st0 : AppState Blob) :
  app_assets Blob st0 = [] ->
  app_assets Blob (foldl (finishNaming Blob respond) st0 late) = [] /\
  app_step Blob (foldl (finishNaming Blob respond) st0 late)
  = app_step Blob st0 /\
  app_processedCount Blob (foldl (finishNaming Blob respond) st0 late)
  = app_processedCount Blob st0 + Z.of_nat (length late).
Proof.
  revert st0. induction late as [|a late IH]; intros st0 H0; cbn [foldl].
  - simpl. repeat split; [done|lia].
  - destruct (IH (finishNaming Blob respond st0 a)) as (-> & -> & ->).
    + simpl. by rewrite H0.
    + simpl. repeat split; lia.
Qed.

(** X26: results that arrive after a reset find nothing to name: the
    completions still in flight and the batches still to come leave
    the asset list empty and the step at upload, but each of them
    still advances the processed counter that the reset had set to 0. *)
Theorem reset_then_late_results
    Blob (respond : Asset Blob -> ApiOutcome)
    (completion : list (Asset Blob) -> list (Asset Blob))
    (ses : Session Blob) (late currentAssets : list (Asset Blob)) i :
  (forall batch, completion batch ≡ₚ batch) ->
  let st1 :=
    foldl (finishNaming Blob respond)
      (ses_app Blob (handleReset Blob ses)) late in
  let st2 :=
    queueLoop Blob respond completion (length currentAssets) i
      currentAssets st1 in
  app_assets Blob st2 = [] /\ app_step Blob st2 = UPLOAD /\
  app_processedCount Blob st2
  = Z.of_nat (length late + length (drop i currentAssets)).
Proof.
  intros Hperm st1 st2.
  destruct (finishNaming_fold_empty respond late
              (ses_app Blob (handleReset Blob ses)) eq_refl)
    as (Ha1 & Hs1 & Hc1).
  fold st1 in Ha1, Hs1, Hc1.
  destruct (queueLoop_rest respond completion Hperm (length currentAssets)
              i currentAssets st1 ltac:(lia)) as (Hs2 & _ & Hc2).
  fold st2 in Hs2, Hc2. split.
  - apply nil_length_inv. unfold st2. by rewrite queueLoop_length, Ha1.
  - rewrite Hs2, Hc2, Hs1, Hc1. simpl. split; [done|]. lia.
Qed.

Lemma reset_then_late_results_witness :
  (forall batch : list (Asset unit), reverse batch ≡ₚ batch) /\
  app_processedCount unit
    (queueLoop unit sampleRespond reverse (length sampleAssets) 3
       sampleAssets
       (foldl (finishNaming unit sampleRespond)
          (ses_app unit
             (handleReset unit
                (mkSession unit (mkApp unit REVIEW sampleAssets 0 []) None)))
          [sampleAsset 1; sampleAsset 0])) = 3.
Proof.
  split; [exact reverse_Permutation|].
  destruct (reset_then_late_results unit sampleRespond reverse
              (mkSession unit (mkApp unit REVIEW sampleAssets 0 []) None)
              [sampleAsset 1; sampleAsset 0] sampleAssets 3
              reverse_Permutation) as (_ & _ & H).
  exact H.
Defined.

(** ** The naming service *)

Lemma rev_reverse {A} (l : list A) : rev l = reverse l.
Proof. unfold reverse. apply rev_alt. Qed.

Lemma trim_reverse s :
  trim s = reverse (trimStart (reverse (trimStart s))).
Proof. unfold trim. by rewrite !rev_reverse. Qed.

Lemma trimStart_suffix s :
  exists p, s = p ++ trimStart s /\ Forall (fun c => isWhiteSpace c = true) p.
Proof.
  induction s as [|c s (p & Hp & Hws)]; [by exists []|]. simpl.
  destruct (isWhiteSpace c) eqn:E.
  - exists (c :: p). split; [by rewrite Hp at 1|by constructor].
  - by exists [].
Qed.

Lemma trimStart_head s c :
  head (trimStart s) = Some c -> isWhiteSpace c = false.
Proof.
  induction s as [|d s IH]; [done|]. simpl.
  destruct (isWhiteSpace d) eqn:E; [done|]. by intros [= <-].
Qed.

Lemma trimStart_elem s c : c ∈ trimStart s -> c ∈ s.
Proof.
  destruct (trimStart_suffix s) as (p & Hp & _). intros Hc.
  rewrite Hp. apply elem_of_app. by right.
Qed.

Lemma trimStart_keeps s c :
  c ∈ s -> isWhiteSpace c = false -> c ∈ trimStart s.
Proof.
  destruct (trimStart_suffix s) as (p & Hp & Hws). intros Hc Hn.
  rewrite Hp in Hc. apply elem_of_app in Hc as [Hc|Hc]; [|done].
  rewrite list.Forall_forall in Hws. specialize (Hws _ Hc). congruence.
Qed.

Lemma trimStart_last s c :
  last (trimStart s) = Some c -> last s = Some c.
Proof.
  destruct (trimStart_suffix s) as (p & Hp & _). intros Hc.
  rewrite Hp, last_app. by rewrite Hc.
Qed.

Lemma trimStart_blank s :
  Forall (fun c => isWhiteSpace c = true) s -> trimStart s = [].
Proof. induction 1 as [|c s Hc _ IH]; [done|]. simpl. by rewrite Hc. Qed.

Lemma trimStart_id s :
  (forall c, head s = Some c -> isWhiteSpace c = false) -> trimStart s = s.
Proof.
  destruct s as [|c s]; [done|]. intros H. simpl. by rewrite (H c eq_refl).
Qed.

Lemma trim_elem s c : c ∈ trim s -> c ∈ s.
Proof.
  rewrite trim_reverse, elem_of_reverse. intros H.
  apply trimStart_elem in H. rewrite elem_of_reverse in H.
  by apply trimStart_elem.
Qed.

Lemma trim_keeps s c : c ∈ s -> isWhiteSpace c = false -> c ∈ trim s.
Proof.
  intros Hc Hn. rewrite trim_reverse, elem_of_reverse.
  apply trimStart_keeps; [|done]. apply elem_of_reverse.
  by apply trimStart_keeps.
Qed.

Lemma trim_head s c : head (trim s) = Some c -> isWhiteSpace c = false.
Proof.
  rewrite trim_reverse, head_reverse. intros H.
  apply trimStart_last in H. rewrite last_reverse in H.
  by apply trimStart_head in H.
Qed.

Lemma trim_last s c : last (trim s) = Some c -> isWhiteSpace c = false.
Proof. rewrite trim_reverse, last_reverse. apply trimStart_head. Qed.

Lemma trim_blank s :
  Forall (fun c => isWhiteSpace c = true) s -> trim s = [].
Proof. intros H. unfold trim. by rewrite (trimStart_blank s H). Qed.

Lemma trim_id s :
  (forall c, head s = Some c -> isWhiteSpace c = false) ->
  (forall c, last s = Some c -> isWhiteSpace c = false) ->
  trim s = s.
Proof.
  intros Hh Hl. rewrite trim_reverse, (trimStart_id s Hh).
  rewrite trimStart_id; [apply reverse_involutive|].
  intros c. rewrite head_reverse. apply Hl.
Qed.

Lemma removeAll_elem d s c : c ∈ removeAll d s <-> c ∈ s /\ c <> d.
Proof.
  unfold removeAll. rewrite !list_elem_of_In, filter_In.
  rewrite negb_true_iff, Z.eqb_neq. done.
Qed.

Lemma removeAll_id d s : d ∉ s -> removeAll d s = s.
Proof.
  unfold removeAll. induction s as [|c s IH]; [done|]. intros Hd. simpl.
  apply not_elem_of_cons in Hd as [Hne Hd].
  destruct (Z.eqb_spec c d); [congruence|]. simpl. by rewrite IH.
Qed.

(** X27: whatever the collaborator does, the name [identifyAsset]
    returns holds no backtick and no line feed and neither begins nor
    ends with white space. *)
Theorem identifyAsset_clean (outcome : ApiOutcome) :
  (96 ∉ identifyAsset outcome) /\ (10 ∉ identifyAsset outcome) /\
  (forall c, head (identifyAsset outcome) = Some c -> isWhiteSpace c = false) /\
  (forall c, last (identifyAsset outcome) = Some c -> isWhiteSpace c = false).
Proof.
  assert ((96 ∉ unknown_item) /\ (10 ∉ unknown_item) /\
          (forall c, head unknown_item = Some c -> isWhiteSpace c = false) /\
          (forall c, last unknown_item = Some c -> isWhiteSpace c = false))
    as Hunknown.
  { split; [|split; [|split]].
    - apply (bool_decide_unpack (96 ∉ unknown_item)). by vm_compute.
    - apply (bool_decide_unpack (10 ∉ unknown_item)). by vm_compute.
    - by intros c [= <-].
    - by intros c [= <-]. }
  destruct outcome as [| | |response_text]; try exact Hunknown.
  cbn [identifyAsset]. split; [|split; [|split]].
  - intros H. apply trim_elem, removeAll_elem in H as [H _].
    by apply removeAll_elem in H as [_ H].
  - intros H. by apply trim_elem, removeAll_elem in H as [_ H].
  - apply trim_head.
  - apply trim_last.
Qed.

(** X28: a plain answer is returned as it is: text that is not empty,
    holds no backtick and no line feed and neither begins nor ends
    with white space becomes the name unchanged. *)
Theorem identifyAsset_plain_answer (t : JsString) :
  t <> [] -> 96 ∉ t -> 10 ∉ t ->
  (forall c, head t = Some c -> isWhiteSpace c = false) ->
  (forall c, last t = Some c -> isWhiteSpace c = false) ->
  identifyAsset (Answer (Some t)) = t.
Proof.
  intros Hne H96 H10 Hh Hl. cbn [identifyAsset].
  rewrite (trim_id t Hh Hl). destruct t as [|c t]; [done|].
  by rewrite (removeAll_id 96 _ H96), (removeAll_id 10 _ H10), (trim_id _ Hh Hl).
Qed.

Lemma identifyAsset_plain_answer_witness :
  identifyAsset (Answer (Some (jsString "iron_sword"))) = jsString "iron_sword".
Proof.
  apply (identifyAsset_plain_answer (jsString "iron_sword")).
  - discriminate.
  - apply (bool_decide_unpack (96 ∉ jsString "iron_sword")). by vm_compute.
  - apply (bool_decide_unpack (10 ∉ jsString "iron_sword")). by vm_compute.
  - by intros c [= <-].
  - by intros c [= <-].
Defined.

(** X29: the fallback name is chosen before the clean-up and not after
    it: an answer made of backticks and white space only, with at
    least one backtick, yields the empty name, not [unknown_item]. *)
Theorem identifyAsset_only_backticks (t : JsString) :
  Forall (fun c => c = 96 \/ isWhiteSpace c = true) t -> 96 ∈ t ->
  identifyAsset (Answer (Some t)) = [].
Proof.
  intros Hall H96. cbn [identifyAsset].
  assert (96 ∈ trim t) as Hin by (by apply trim_keeps).
  assert (Forall (fun c => c = 96 \/ isWhiteSpace c = true) (trim t)) as Hall'.
  { rewrite list.Forall_forall in Hall. apply list.Forall_forall.
    intros c Hc. by apply Hall, trim_elem. }
  destruct (trim t) as [|c t'] eqn:E; [by apply elem_of_nil in Hin|].
  apply trim_blank, list.Forall_forall. intros d Hd.
  apply removeAll_elem in Hd as [Hd _].
  apply removeAll_elem in Hd as [Hd Hne].
  rewrite list.Forall_forall in Hall'. by destruct (Hall' d Hd).
Qed.

Lemma identifyAsset_only_backticks_witness :
  identifyAsset (Answer (Some [96; 96; 96; 10; 96; 96; 96])) = [].
Proof.
  apply identifyAsset_only_backticks.
  - repeat (constructor; [first [by left | by right]|]). constructor.
  - left.
Defined.

Lemma jsSplit_no_separator sep s : sep ∉ s -> jsSplit sep s = [s].
Proof.
  induction s as [|c s IH]; [done|]. intros Hs.
  apply not_elem_of_cons in Hs as [Hne Hs]. simpl.
  destruct (Z.eqb_spec c sep); [congruence|]. by rewrite (IH Hs).
Qed.

Lemma jsSplit_first sep p r :
  sep ∉ p -> jsSplit sep (p ++ sep :: r) = p :: jsSplit sep r.
Proof.
  induction p as [|c p IH]; intros Hp.
  - simpl. by rewrite Z.eqb_refl.
  - apply not_elem_of_cons in Hp as [Hne Hp]. simpl.
    destruct (Z.eqb_spec c sep); [congruence|]. by rewrite (IH Hp).
Qed.

(** X30: [blobToBase64] resolves with the text between the first and
    the second comma of what the reader produced, which for a data URL
    is its base64 payload; a result with no comma resolves with
    [undefined], and a reader error rejects the promise. *)
Theorem blobToBase64_payload (prefix payload rest : JsString) msg :
  44 ∉ prefix -> 44 ∉ payload ->
  blobToBase64 (Ok (prefix ++ 44 :: payload)) = Ok (Some payload) /\
  blobToBase64 (Ok (prefix ++ 44 :: payload ++ 44 :: rest))
  = Ok (Some payload) /\
  blobToBase64 (Ok prefix) = Ok None /\
  blobToBase64 (Throw msg) = Throw msg.
Proof.
  intros Hp Hq. unfold blobToBase64. repeat split.
  - by rewrite (jsSplit_first 44 _ _ Hp), (jsSplit_no_separator 44 _ Hq).
  - by rewrite (jsSplit_first 44 _ _ Hp), (jsSplit_first 44 _ _ Hq).
  - by rewrite (jsSplit_no_separator 44 _ Hp).
Qed.

Lemma blobToBase64_payload_witness :
  blobToBase64 (Ok (jsString "data:image/png;base64,iVBORw0KGgo="))
  = Ok (Some (jsString "iVBORw0KGgo=")).
Proof.
  destruct (blobToBase64_payload (jsString "data:image/png;base64")
              (jsString "iVBORw0KGgo=") [] "error") as [H _].
  - apply (bool_decide_unpack (44 ∉ jsString "data:image/png;base64")).
    by vm_compute.
  - apply (bool_decide_unpack (44 ∉ jsString "iVBORw0KGgo=")).
    by vm_compute.
  - exact H.
Defined.
